(** * Graph engine (Graph.h): stack, queue, adjacency lists, binary min-heap,
      BFS, DFS, Prim and Dijkstra.

    The C++ header is embedded function by function.  [int] values are
    integers in [Z] whose arithmetic wraps to 32 bits ([add32], [mul32]);
    arrays allocated with [new T[n]] are lists read and written through
    [rd] and [wr], which report an access outside the allocation as
    [OutOfBounds]; the linked containers (stack, queue, adjacency chain) are
    lists whose head is the [front] node; loops and the recursion of
    [percolateDown] take a fuel argument and report [OutOfFuel] when it is
    used up. *)

From Stdlib Require Import ZArith Lia.
From stdpp Require Import base tactics option list relations numbers sorting.

Local Open Scope Z_scope.

(** ** Machine integers *)

Definition INT_MAX : Z := 2147483647.
Definition INT_MIN : Z := -2147483648.

(** Two's complement wrap-around of a 32-bit [int]. *)
Definition wrap32 (z : Z) : Z := (z - INT_MIN) `mod` 4294967296 + INT_MIN.
Definition add32 (a b : Z) : Z := wrap32 (a + b).
Definition sub32 (a b : Z) : Z := wrap32 (a - b).
Definition mul32 (a b : Z) : Z := wrap32 (a * b).

(** ** Outcomes: a value, an access outside an array, or fuel used up *)

Inductive outcome (A : Type) : Type :=
| Ok (a : A)
| OutOfBounds
| OutOfFuel.
Arguments Ok {A} a.
Arguments OutOfBounds {A}.
Arguments OutOfFuel {A}.

Definition bind {A B : Type} (m : outcome A) (k : A -> outcome B) : outcome B :=
  match m with
  | Ok a => k a
  | OutOfBounds => OutOfBounds
  | OutOfFuel => OutOfFuel
  end.

Notation "'do' x <- m ;; k" := (bind m (fun x => k))
  (at level 10, x name, m at level 99, k at level 200).
Notation "'do' ' pat <- m ;; k" := (bind m (fun x => match x with pat => k end))
  (at level 10, pat pattern, m at level 99, k at level 200).

(** [a[i]] as an rvalue and [a[i] = x] on an array of [length a] cells. *)
Definition rd {A : Type} (a : list A) (i : Z) : outcome A :=
  if 0 <=? i then
    match a !! Z.to_nat i with
    | Some x => Ok x
    | None => OutOfBounds
    end
  else OutOfBounds.

Definition wr {A : Type} (a : list A) (i : Z) (x : A) : outcome (list A) :=
  if 0 <=? i then
    match a !! Z.to_nat i with
    | Some _ => Ok (<[Z.to_nat i := x]> a)
    | None => OutOfBounds
    end
  else OutOfBounds.

(** [for (int i = 0; i < n; i++) body] over a state [s], as [for_up 0 n]. *)
Fixpoint for_up {St : Type} (i : Z) (n : nat) (body : Z -> St -> outcome St)
    (s : St) : outcome St :=
  match n with
  | O => Ok s
  | S n' => do s' <- body i s ;; for_up (i + 1) n' body s'
  end.

(** ** Stack<int> and Queue<int> *)

Module Stack.
Definition t := list Z.
Definition empty : t := [].
Definition push (s : t) (v : Z) : t := v :: s.
Definition pop (s : t) : t := match s with [] => [] | _ :: s' => s' end.
Definition top (s : t) : Z := match s with [] => 0 | v :: _ => v end.
Definition isEmpty (s : t) : bool := match s with [] => true | _ => false end.
End Stack.

Module Queue.
Definition t := list Z.
Definition empty : t := [].
Definition enqueue (q : t) (v : Z) : t := q ++ [v].
Definition dequeue (q : t) : t := match q with [] => [] | _ :: q' => q' end.
Definition getFront (q : t) : Z := match q with [] => 0 | v :: _ => v end.
Definition isEmpty (q : t) : bool := match q with [] => true | _ => false end.
End Queue.

(** ** AdjList<int> *)

Record Node : Type := mkNode { destination : Z; weight : Z }.

Definition AdjList : Type := list Node.

(** [AddEdge] links the new node in front of the chain. *)
Definition AddEdge (l : AdjList) (dest w : Z) : AdjList := mkNode dest w :: l.
Definition getHead (l : AdjList) : list Node := l.

(** ** Heap<int> *)

Record HNode : Type := mkHNode { vertex : Z; key : Z }.

Record Heap : Type := mkHeap { arr : list HNode; size : Z; capacity : Z }.

Definition set_arr (h : Heap) (a : list HNode) : Heap :=
  {| arr := a; size := size h; capacity := capacity h |}.

(** [Heap(cap)]: [cap + 1] default nodes, cell 0 unused. *)
Definition Heap_new (cap : Z) : Heap :=
  {| arr := replicate (Z.to_nat (add32 cap 1)) (mkHNode 0 0);
     size := 0;
     capacity := cap |}.

Definition Heap_isEmpty (h : Heap) : bool := size h =? 0.

(** [temp = arr[i]; arr[i] = arr[j]; arr[j] = temp]. *)
Definition swap (a : list HNode) (i j : Z) : outcome (list HNode) :=
  do temp <- rd a i ;;
  do aj <- rd a j ;;
  do a1 <- wr a i aj ;;
  wr a1 j temp.

(** [l <= size && arr[l].key < arr[s].key ? l : s], with the short circuit. *)
Definition pick_smaller (h : Heap) (l s : Z) : outcome Z :=
  if l <=? size h then
    do x <- rd (arr h) l ;;
    do y <- rd (arr h) s ;;
    Ok (if key x <? key y then l else s)
  else Ok s.

(** [percolateDown(i)]; [fuel] bounds the depth of the recursion. *)
Fixpoint percolateDown (fuel : nat) (h : Heap) (i : Z) : outcome Heap :=
  match fuel with
  | O => OutOfFuel
  | S fuel' =>
      let left := mul32 2 i in
      let right := add32 (mul32 2 i) 1 in
      let smallest := i in
      do smallest <- pick_smaller h left smallest ;;
      do smallest <- pick_smaller h right smallest ;;
      if negb (smallest =? i) then
        do a <- swap (arr h) i smallest ;;
        percolateDown fuel' (set_arr h a) smallest
      else Ok h
  end.

(** [percolateUp(i)]; [fuel] bounds the number of loop tests, [parent] is
    recomputed from [i] as the loop does. *)
Fixpoint percolateUp (fuel : nat) (h : Heap) (i : Z) : outcome Heap :=
  match fuel with
  | O => OutOfFuel
  | S fuel' =>
      let parent := i `quot` 2 in
      do go <- (if 1 <? i then
               do x <- rd (arr h) i ;;
               do y <- rd (arr h) parent ;;
               Ok (key x <? key y)
             else Ok false) ;;
      if go : bool then
        do a <- swap (arr h) i parent ;;
        percolateUp fuel' (set_arr h a) parent
      else Ok h
  end.

(** [InsertKey(v, k)].  The index halves on every pass of [percolateUp], so
    [size] loop tests are enough ([percolateUp_ok]). *)
Definition InsertKey (h : Heap) (v k : Z) : outcome Heap :=
  if size h >=? capacity h then Ok h
  else
    let size' := add32 (size h) 1 in
    do a <- wr (arr h) size' (mkHNode v k) ;;
    percolateUp (Z.to_nat size')
      {| arr := a; size := size'; capacity := capacity h |} size'.

(** [ExtractMin()], returning the extracted node and the heap left.  The
    index at least doubles on every call of [percolateDown], so [size + 1]
    calls are enough ([percolateDown_ok]). *)
Definition ExtractMin (h : Heap) : outcome (HNode * Heap) :=
  if size h =? 0 then Ok (mkHNode 0 0, h)
  else
    do minNode <- rd (arr h) 1 ;;
    do last <- rd (arr h) (size h) ;;
    do a <- wr (arr h) 1 last ;;
    let size' := sub32 (size h) 1 in
    do h' <- percolateDown (S (Z.to_nat size'))
            {| arr := a; size := size'; capacity := capacity h |} 1 ;;
    Ok (minNode, h').

(** ** Graph *)

Record Graph : Type :=
  mkGraph { vertices : Z; array : list AdjList; AdjMat : list (list Z) }.

(** [Graph(v)]: [v] empty chains and a [v] x [v] matrix of zeros. *)
Definition Graph_new (v : Z) : Graph :=
  {| vertices := v;
     array := replicate (Z.to_nat v) [];
     AdjMat := replicate (Z.to_nat v) (replicate (Z.to_nat v) 0) |}.

Definition addEdge (g : Graph) (src dest w : Z) : outcome Graph :=
  if (0 <=? src) && (src <? vertices g) && (0 <=? dest) && (dest <? vertices g)
  then
    do ls <- rd (array g) src ;;
    do a1 <- wr (array g) src (AddEdge ls dest w) ;;
    do ld <- rd a1 dest ;;
    do a2 <- wr a1 dest (AddEdge ld src w) ;;
    do rs <- rd (AdjMat g) src ;;
    do rs' <- wr rs dest w ;;
    do m1 <- wr (AdjMat g) src rs' ;;
    do rd' <- rd m1 dest ;;
    do rd'' <- wr rd' src w ;;
    do m2 <- wr m1 dest rd'' ;;
    Ok {| vertices := vertices g; array := a2; AdjMat := m2 |}
  else Ok g.

(** The inner [while (temp)] of BFS over the chain of [currVertex]. *)
Fixpoint BFS_scan (temp : list Node) (visited : list bool) (q : Queue.t)
  : outcome (list bool * Queue.t) :=
  match temp with
  | [] => Ok (visited, q)
  | nd :: next =>
      let adjVertex := destination nd in
      do seen <- rd visited adjVertex ;;
      if negb seen then
        do visited' <- wr visited adjVertex true ;;
        BFS_scan next visited' (Queue.enqueue q adjVertex)
      else BFS_scan next visited q
  end.

(** The outer [while (!q.isEmpty())]; the result is the buffer and [count]. *)
Fixpoint BFS_loop (fuel : nat) (g : Graph) (visited : list bool) (q : Queue.t)
    (buffer : list Z) (count : Z) : outcome (list Z * Z) :=
  match fuel with
  | O => OutOfFuel
  | S fuel' =>
      if Queue.isEmpty q then Ok (buffer, count)
      else
        let currVertex := Queue.getFront q in
        do buffer' <- wr buffer count currVertex ;;
        let count' := add32 count 1 in
        let q' := Queue.dequeue q in
        do adj <- rd (array g) currVertex ;;
        do ' (visited', q'') <- BFS_scan (getHead adj) visited q' ;;
        BFS_loop fuel' g visited' q'' buffer' count'
  end.

Definition all_false (n : Z) : list bool := replicate (Z.to_nat n) false.

Definition BFS (fuel : nat) (g : Graph) (startIndex : Z) (buffer : list Z)
  : outcome (list Z * Z) :=
  let visited := all_false (vertices g) in
  do visited' <- wr visited startIndex true ;;
  BFS_loop fuel g visited' (Queue.enqueue Queue.empty startIndex) buffer 0.

(** The inner [while (temp)] of DFS: every unvisited neighbour is pushed. *)
Fixpoint DFS_scan (temp : list Node) (visited : list bool) (s : Stack.t)
  : outcome Stack.t :=
  match temp with
  | [] => Ok s
  | nd :: next =>
      let AdjVertex := destination nd in
      do seen <- rd visited AdjVertex ;;
      if negb seen then DFS_scan next visited (Stack.push s AdjVertex)
      else DFS_scan next visited s
  end.

(** One pass through the body of [while (!s.isEmpty())]. *)
Definition DFS_body (g : Graph) (visited : list bool) (s : Stack.t)
    (buffer : list Z) (count : Z)
  : outcome (list bool * Stack.t * list Z * Z) :=
  let currVertex := Stack.top s in
  let s' := Stack.pop s in
  do seen <- rd visited currVertex ;;
  do ' (buffer', count', visited') <-
    (if negb seen then
       do b <- wr buffer count currVertex ;;
       do v <- wr visited currVertex true ;;
       Ok (b, add32 count 1, v)
     else Ok (buffer, count, visited)) ;;
  do adj <- rd (array g) currVertex ;;
  do s'' <- DFS_scan (getHead adj) visited' s' ;;
  Ok (visited', s'', buffer', count').

Fixpoint DFS_loop (fuel : nat) (g : Graph) (visited : list bool) (s : Stack.t)
    (buffer : list Z) (count : Z) : outcome (list Z * Z) :=
  match fuel with
  | O => OutOfFuel
  | S fuel' =>
      if Stack.isEmpty s then Ok (buffer, count)
      else
        do ' (visited', s', buffer', count') <-
          DFS_body g visited s buffer count ;;
        DFS_loop fuel' g visited' s' buffer' count'
  end.

Definition DFS (fuel : nat) (g : Graph) (startIndex : Z) (buffer : list Z)
  : outcome (list Z * Z) :=
  let visited := all_false (vertices g) in
  DFS_loop fuel g visited (Stack.push Stack.empty startIndex) buffer 0.

(** The inner [while (temp)] of Prim's algorithm for the extracted vertex [u]. *)
Fixpoint Prims_scan (temp : list Node) (u : Z) (visited : list bool)
    (key : list Z) (parentBuffer : list Z) (h : Heap)
  : outcome (list Z * list Z * Heap) :=
  match temp with
  | [] => Ok (key, parentBuffer, h)
  | nd :: next =>
      let v := destination nd in
      let w := weight nd in
      do seen <- rd visited v ;;
      do lighter <- (if negb seen then do kv <- rd key v ;; Ok (w <? kv)
                     else Ok false) ;;
      if lighter : bool then
        do key' <- wr key v w ;;
        do parentBuffer' <- wr parentBuffer v u ;;
        do kv <- rd key' v ;;
        do h' <- InsertKey h v kv ;;
        Prims_scan next u visited key' parentBuffer' h'
      else Prims_scan next u visited key parentBuffer h
  end.

Fixpoint Prims_loop (fuel : nat) (g : Graph) (visited : list bool)
    (key : list Z) (parentBuffer : list Z) (h : Heap) : outcome (list Z) :=
  match fuel with
  | O => OutOfFuel
  | S fuel' =>
      if Heap_isEmpty h then Ok parentBuffer
      else
        do ' (minNode, h1) <- ExtractMin h ;;
        let u := vertex minNode in
        do seen <- rd visited u ;;
        if seen : bool then Prims_loop fuel' g visited key parentBuffer h1
        else
          do visited' <- wr visited u true ;;
          do adj <- rd (array g) u ;;
          do ' (key', parentBuffer', h2) <-
            Prims_scan (getHead adj) u visited' key parentBuffer h1 ;;
          Prims_loop fuel' g visited' key' parentBuffer' h2
  end.

Definition PrimsAlgorithm (fuel : nat) (g : Graph) (startIndex : Z)
    (parentBuffer : list Z) : outcome (list Z) :=
  let h := Heap_new (mul32 (vertices g) (vertices g)) in
  let key := replicate (Z.to_nat (vertices g)) INT_MAX in
  let visited := all_false (vertices g) in
  do parentBuffer' <-
    for_up 0 (Z.to_nat (vertices g)) (fun i b => wr b i (-1)) parentBuffer ;;
  do key' <- wr key startIndex 0 ;;
  do h' <- InsertKey h startIndex 0 ;;
  Prims_loop fuel g visited key' parentBuffer' h'.

(** The inner [while (temp)] of Dijkstra's algorithm for the extracted [u]. *)
Fixpoint Dijkstra_scan (temp : list Node) (u : Z) (distBuffer : list Z)
    (h : Heap) : outcome (list Z * Heap) :=
  match temp with
  | [] => Ok (distBuffer, h)
  | nd :: next =>
      let v := destination nd in
      let w := weight nd in
      do du <- rd distBuffer u ;;
      do shorter <- (if negb (du =? INT_MAX) then
                       do du' <- rd distBuffer u ;;
                       do dv <- rd distBuffer v ;;
                       Ok (add32 du' w <? dv)
                     else Ok false) ;;
      if shorter : bool then
        do du' <- rd distBuffer u ;;
        do distBuffer' <- wr distBuffer v (add32 du' w) ;;
        do dv <- rd distBuffer' v ;;
        do h' <- InsertKey h v dv ;;
        Dijkstra_scan next u distBuffer' h'
      else Dijkstra_scan next u distBuffer h
  end.

Fixpoint Dijkstra_loop (fuel : nat) (g : Graph) (distBuffer : list Z)
    (h : Heap) : outcome (list Z) :=
  match fuel with
  | O => OutOfFuel
  | S fuel' =>
      if Heap_isEmpty h then Ok distBuffer
      else
        do ' (minNode, h1) <- ExtractMin h ;;
        let u := vertex minNode in
        let d := key minNode in
        do du <- rd distBuffer u ;;
        if d >? du then Dijkstra_loop fuel' g distBuffer h1
        else
          do adj <- rd (array g) u ;;
          do ' (distBuffer', h2) <- Dijkstra_scan (getHead adj) u distBuffer h1 ;;
          Dijkstra_loop fuel' g distBuffer' h2
  end.

Definition DijkstraAlgorithm (fuel : nat) (g : Graph) (startIndex : Z)
    (distBuffer : list Z) : outcome (list Z) :=
  let h := Heap_new (mul32 (vertices g) (vertices g)) in
  do distBuffer' <-
    for_up 0 (Z.to_nat (vertices g)) (fun i b => wr b i INT_MAX) distBuffer ;;
  do distBuffer'' <- wr distBuffer' startIndex 0 ;;
  do h' <- InsertKey h startIndex 0 ;;
  Dijkstra_loop fuel g distBuffer'' h'.

(** A graph built by the constructor followed by [addEdge] calls. *)
Fixpoint add_edges (g : Graph) (es : list (Z * Z * Z)) : outcome Graph :=
  match es with
  | [] => Ok g
  | (u, v, w) :: es' => do g' <- addEdge g u v w ;; add_edges g' es'
  end.

(** ** Well-formed graphs

    The shape the constructor establishes and [addEdge] keeps: [vertices]
    adjacency chains, a [vertices] x [vertices] matrix, and every stored
    destination a vertex id. *)

Record wf_graph (g : Graph) : Prop := mk_wf_graph {
  wf_vertices : 0 <= vertices g <= INT_MAX;
  wf_array : length (array g) = Z.to_nat (vertices g);
  wf_rows : length (AdjMat g) = Z.to_nat (vertices g);
  wf_cols : Forall (fun row => length row = Z.to_nat (vertices g)) (AdjMat g);
  wf_dest :
    Forall (Forall (fun nd => 0 <= destination nd < vertices g)) (array g)
}.

(** The graphs a caller can hold: constructed, then edges added. *)
Inductive graph_state : Graph -> Prop :=
| gs_new v : 0 <= v <= INT_MAX -> graph_state (Graph_new v)
| gs_addEdge g u v w g' :
    graph_state g -> addEdge g u v w = Ok g' -> graph_state g'.

(** ** Heap invariants and histories *)

(** The key stored in cell [i] (0 outside the array). *)
Definition keyAt (a : list HNode) (i : Z) : Z :=
  match rd a i with
  | Ok x => key x
  | _ => 0
  end.

(** The largest capacity whose child indices [2*i+1] stay within [int]. *)
Definition MAX_CAPACITY : Z := 1073741823.

(** What the constructor sets up: [capacity + 1] cells, [size] within
    [[0, capacity]]. *)
Definition heap_shape (h : Heap) : Prop :=
  0 <= size h <= capacity h /\
  capacity h <= MAX_CAPACITY /\
  length (arr h) = Z.to_nat (capacity h + 1).

(** Min-heap order in the 1-based layout: the children of cell [i] are the
    cells [2 * i] and [2 * i + 1]. *)
Definition heap_ordered (h : Heap) : Prop :=
  forall i, 1 <= i ->
    (2 * i <= size h -> keyAt (arr h) i <= keyAt (arr h) (2 * i)) /\
    (2 * i + 1 <= size h -> keyAt (arr h) i <= keyAt (arr h) (2 * i + 1)).

(** Order everywhere except between cell [i] and its parent (the state of
    the array inside the loop of [percolateUp]). *)
Definition ordered_but_up (a : list HNode) (n i : Z) : Prop :=
  (forall p j, 2 <= j <= n -> j <> i -> j = 2 * p \/ j = 2 * p + 1 ->
     keyAt a p <= keyAt a j) /\
  (forall g j, 2 <= j <= n -> j = 2 * i \/ j = 2 * i + 1 ->
     i = 2 * g \/ i = 2 * g + 1 -> 1 <= g -> keyAt a g <= keyAt a j).

(** Order everywhere except between cell [i] and its children (the state of
    the array on entry to [percolateDown]). *)
Definition ordered_but_down (a : list HNode) (n i : Z) : Prop :=
  (forall p j, 2 <= j <= n -> p <> i -> j = 2 * p \/ j = 2 * p + 1 ->
     keyAt a p <= keyAt a j) /\
  (forall g j, 2 <= j <= n -> j = 2 * i \/ j = 2 * i + 1 ->
     i = 2 * g \/ i = 2 * g + 1 -> 1 <= g -> keyAt a g <= keyAt a j).

Inductive heap_op : Type :=
| OpInsertKey (v k : Z)
| OpExtractMin.

Definition run_op (h : Heap) (op : heap_op) : outcome Heap :=
  match op with
  | OpInsertKey v k => InsertKey h v k
  | OpExtractMin => do ' (_, h') <- ExtractMin h ;; Ok h'
  end.

Fixpoint run_ops (h : Heap) (ops : list heap_op) : outcome Heap :=
  match ops with
  | [] => Ok h
  | op :: ops' => do h' <- run_op h op ;; run_ops h' ops'
  end.

(** The heaps reachable from [Heap(c)] by [InsertKey] and [ExtractMin]. *)
Inductive heap_state (c : Z) : Heap -> Prop :=
| hs_new : heap_state c (Heap_new c)
| hs_InsertKey h v k h' :
    heap_state c h -> InsertKey h v k = Ok h' -> heap_state c h'
| hs_ExtractMin h m h' :
    heap_state c h -> ExtractMin h = Ok (m, h') -> heap_state c h'.

(** ** Reading a spanning tree off the parent array *)

(** The pairs [(parentBuffer[v], v)] for [v <> start] with a parent. *)
Definition tree_edges (start : Z) (parentBuffer : list Z) : list (Z * Z) :=
  filter (fun e => e.2 <> start /\ e.1 <> -1)
    (imap (fun v p => (p, Z.of_nat v)) parentBuffer).

(** The weight the matrix records for an edge, and the sum over a tree. *)
Definition edge_weight (g : Graph) (e : Z * Z) : outcome Z :=
  do row <- rd (AdjMat g) e.1 ;; rd row e.2.

Fixpoint tree_weight (g : Graph) (es : list (Z * Z)) : outcome Z :=
  match es with
  | [] => Ok 0
  | e :: es' =>
      do w <- edge_weight g e ;;
      do rest <- tree_weight g es' ;;
      Ok (w + rest)
  end.

(** A heap used to illustrate the heap theorems. *)
Definition example_heap : Heap :=
  {| arr := [mkHNode 0 0; mkHNode 1 3; mkHNode 0 5; mkHNode 2 4];
     size := 3;
     capacity := 3 |}.

(** ** Reachability and the traversal order the specification describes *)

(** [v] is recorded in the chain of [u]. *)
Definition edge (g : Graph) (u v : Z) : Prop :=
  exists adj nd, rd (array g) u = Ok adj /\ nd ∈ adj /\ destination nd = v.

Definition reachable (g : Graph) : Z -> Z -> Prop := rtc (edge g).

(** The destinations in the chain of [u], front node first, which is the
    most recently added edge. *)
Definition neighbours (g : Graph) (u : Z) : list Z :=
  match rd (array g) u with
  | Ok adj => destination <$> adj
  | _ => []
  end.

(** The specification's exploration of one vertex: "for each neighbor in
    adjacency order, if unvisited, mark visited and enqueue". *)
Fixpoint discover (ns : list Z) (seen : list Z) (q : list Z)
  : list Z * list Z :=
  match ns with
  | [] => (seen, q)
  | v :: ns' =>
      if decide (v ∈ seen) then discover ns' seen q
      else discover ns' (v :: seen) (q ++ [v])
  end.

(** The specification's loop: "dequeue a vertex, append it to the output in
    dequeue order", then explore it; [bfs_order g seen q out] says that
    [out] is the dequeue order from the queue [q] with [seen] marked. *)
Inductive bfs_order (g : Graph) : list Z -> list Z -> list Z -> Prop :=
| bfs_order_done seen : bfs_order g seen [] []
| bfs_order_visit seen u q out :
    bfs_order g (discover (neighbours g u) seen q).1
                (discover (neighbours g u) seen q).2 out ->
    bfs_order g seen (u :: q) (u :: out).

(** "Enqueues [start] and marks it visited immediately." *)
Definition bfs_traversal (g : Graph) (start : Z) (out : list Z) : Prop :=
  bfs_order g [start] [start] out.

(** The visited array marks exactly the members of [seen]. *)
Definition marks (visited : list bool) (seen : list Z) : Prop :=
  forall v, v ∈ seen <-> 0 <= v /\ visited !! Z.to_nat v = Some true.

(** The loop invariant of BFS: [out] is what has been written, [q] the
    queue, [seen] the vertices marked so far. *)
Record bfs_inv (g : Graph) (start : Z) (visited : list bool)
    (q out seen : list Z) : Prop := mk_bfs_inv {
  bi_len : length visited = Z.to_nat (vertices g);
  bi_marks : marks visited seen;
  bi_seen : forall v, v ∈ seen <-> v ∈ out ++ q;
  bi_nodup : NoDup (out ++ q);
  bi_reach : forall v, v ∈ out ++ q -> 0 <= v < vertices g /\ reachable g start v;
  bi_closed : forall u v, u ∈ out -> edge g u v -> v ∈ out ++ q;
  bi_start : start ∈ out ++ q
}.

(** A graph used to illustrate the general theorems: three vertices, the
    edge 0-1 of weight 1, vertex 2 isolated. *)
Definition example_graph : Graph :=
  {| vertices := 3;
     array := [[mkNode 1 1]; [mkNode 0 1]; []];
     AdjMat := [[0; 1; 0]; [1; 0; 0]; [0; 0; 0]] |}.

(** ** Termination measure of DFS *)

(** The longest adjacency chain. *)
Definition max_degree (g : Graph) : nat := max_list (length <$> array g).

(** Whether the top of the stack is an unvisited vertex. *)
Definition top_unvisited (visited : list bool) (s : Stack.t) : bool :=
  match s with
  | [] => false
  | v :: _ =>
      match rd visited v with
      | Ok false => true
      | _ => false
      end
  end.

(** A quantity every pass through the DFS loop decreases: [written]
    vertices have been visited, [s] is the stack. *)
Definition dfs_potential (g : Graph) (visited : list bool) (s : Stack.t)
    (written : nat) : nat :=
  (Z.to_nat (vertices g) - written) * (2 * max_degree g + 3) + length s +
  (if top_unvisited visited s then 0 else max_degree g + 1).

(** Fuel that lets DFS run to completion on [g]. *)
Definition dfs_fuel (g : Graph) : nat :=
  Z.to_nat (vertices g) * (2 * max_degree g + 3) + 2.

(** The loop invariant of DFS: [out] is what has been written. *)
Record dfs_inv (g : Graph) (visited : list bool) (s : Stack.t)
    (out : list Z) : Prop := mk_dfs_inv {
  di_len : length visited = Z.to_nat (vertices g);
  di_marks : marks visited out;
  di_nodup : NoDup out;
  di_stack : forall v, v ∈ s -> 0 <= v < vertices g
}.

(** The triangle 0-1, 0-2, 1-2, on which DFS stacks vertex 2 twice. *)
Definition triangle_graph : Graph :=
  {| vertices := 3;
     array := [[mkNode 2 1; mkNode 1 1]; [mkNode 2 1; mkNode 0 1];
               [mkNode 1 1; mkNode 0 1]];
     AdjMat := [[0; 1; 1]; [1; 0; 1]; [1; 1; 0]] |}.

(** The largest vertex count whose square, the heap capacity of Prim's and
    Dijkstra's algorithms, is an [int]. *)
Definition MAX_VERTICES : Z := 46340.

(** ** Breadth-first order by distance *)

(** A vertex written before another is no farther from [start]: whenever
    the later one has a path of [k] edges, the earlier one has a path of at
    most [k] edges. *)
Definition level_order (g : Graph) (start : Z) (out : list Z) : Prop :=
  forall l1 x l2 y l3 k,
    out = l1 ++ x :: l2 ++ y :: l3 ->
    nsteps (edge g) k start y ->
    exists k', (k' <= k)%nat /\ nsteps (edge g) k' start x.

(** Levels assigned during the traversal: [lvl v] is the length of a path to
    [v]; written and queued vertices are in level order; nothing is more than
    one level beyond the head of the queue; edges out of written vertices go
    up by at most one level. *)
Record lvl_inv (g : Graph) (start : Z) (lvl : Z -> nat) (out q : list Z)
  : Prop := mk_lvl_inv {
  li_path : forall v, v ∈ out ++ q -> nsteps (edge g) (lvl v) start v;
  li_sorted : StronglySorted (fun x y => (lvl x <= lvl y)%nat) (out ++ q);
  li_head : forall u q0 v,
    q = u :: q0 -> v ∈ out ++ q -> (lvl v <= lvl u + 1)%nat;
  li_edge : forall x y,
    x ∈ out -> edge g x y -> y ∈ out ++ q /\ (lvl y <= lvl x + 1)%nat;
  li_start : start ∈ out ++ q /\ lvl start = 0%nat
}.

(** ** Using the containers and the graph: helper runs *)

(** [n] times: read [top()], then [pop()]. *)
Fixpoint stack_drain (n : nat) (s : Stack.t) : list Z * Stack.t :=
  match n with
  | O => ([], s)
  | S n' =>
      let v := Stack.top s in
      let r := stack_drain n' (Stack.pop s) in
      (v :: r.1, r.2)
  end.

(** [n] times: read [getFront()], then [dequeue()]. *)
Fixpoint queue_drain (n : nat) (q : Queue.t) : list Z * Queue.t :=
  match n with
  | O => ([], q)
  | S n' =>
      let v := Queue.getFront q in
      let r := queue_drain n' (Queue.dequeue q) in
      (v :: r.1, r.2)
  end.

(** The weight of the first record for [v] in a chain, 0 when there is
    none. *)
Definition latest_weight (adj : AdjList) (v : Z) : Z :=
  match list_find (fun nd => destination nd = v) adj with
  | Some (_, nd) => weight nd
  | None => 0
  end.

(** ** The depth-first order the code follows *)

(** The inner loop of DFS on the abstract state: every neighbour not in
    [seen] goes on top of the stack, in chain order. *)
Fixpoint push_unvisited (ns : list Z) (seen : list Z) (s : list Z) : list Z :=
  match ns with
  | [] => s
  | v :: ns' =>
      if decide (v ∈ seen) then push_unvisited ns' seen s
      else push_unvisited ns' seen (v :: s)
  end.

(** [dfs_order g seen s out]: from the stack [s] with [seen] marked, the
    loop pops [u]; an unmarked [u] is marked and written; either way the
    unmarked neighbours of [u] are pushed. *)
Inductive dfs_order (g : Graph) : list Z -> list Z -> list Z -> Prop :=
| dfs_order_done seen : dfs_order g seen [] []
| dfs_order_skip seen u s out :
    u ∈ seen ->
    dfs_order g seen (push_unvisited (neighbours g u) seen s) out ->
    dfs_order g seen (u :: s) out
| dfs_order_visit seen u s out :
    u ∉ seen ->
    dfs_order g (seen ++ [u])
      (push_unvisited (neighbours g u) (seen ++ [u]) s) out ->
    dfs_order g seen (u :: s) (u :: out).

Definition dfs_traversal (g : Graph) (start : Z) (out : list Z) : Prop :=
  dfs_order g [] [start] out.

(** ** The contents of a heap and runs of heap operations *)

(** The entries stored in a heap: cells [1 .. size]. *)
Definition heap_entries (h : Heap) : list HNode :=
  take (Z.to_nat (size h)) (drop 1 (arr h)).

(** [InsertKey] for each entry of a list, first to last. *)
Fixpoint insert_all (h : Heap) (es : list HNode) : outcome Heap :=
  match es with
  | [] => Ok h
  | e :: es' => do h' <- InsertKey h (vertex e) (key e) ;; insert_all h' es'
  end.

(** [n] calls of [ExtractMin], collecting what they return. *)
Fixpoint extract_all (n : nat) (h : Heap) : outcome (list HNode * Heap) :=
  match n with
  | O => Ok ([], h)
  | S n' =>
      do ' (m, h1) <- ExtractMin h ;;
      do ' (ms, h2) <- extract_all n' h1 ;;
      Ok (m :: ms, h2)
  end.

(** ** Prim's algorithm: what the parent array encodes *)

(** The largest vertex count whose square is a heap capacity within
    [MAX_CAPACITY]. *)
Definition MAX_HEAP_VERTICES : Z := 32767.

(** The number of edge records in all chains. *)
Definition total_records (g : Graph) : nat := sum_list (length <$> array g).

(** The records in the chains of the vertices not yet visited. *)
Definition unvisited_records (visited : list bool) (chains : list AdjList)
  : nat :=
  sum_list (zip_with (fun (b : bool) adj => if b then 0%nat else length adj)
              visited chains).

(** Fuel that lets Prim's algorithm run to completion on [g]. *)
Definition prim_fuel (g : Graph) : nat := total_records g + 2.

(** [v] has a parent in the parent array. *)
Definition has_parent (pb : list Z) (v : Z) : Prop :=
  exists p, rd pb v = Ok p /\ p <> -1.

(** Following parent entries from [v] leads to [start]. *)
Inductive tree_path (pb : list Z) (start : Z) : Z -> Prop :=
| tree_path_root : tree_path pb start start
| tree_path_step v p :
    rd pb v = Ok p -> p <> -1 -> tree_path pb start p ->
    tree_path pb start v.

(** No weight is [INT_MAX] and the heap, of capacity [vertices * vertices],
    has room for one entry per record. *)
Definition span_ok (g : Graph) : Prop :=
  (forall adj nd, adj ∈ array g -> nd ∈ adj -> weight nd < INT_MAX) /\
  Z.of_nat (total_records g) <= vertices g * vertices g.

(** The invariant of Prim's loop, between two neighbour scans and inside
    one. *)
Record prim_inv (g : Graph) (start : Z) (visited : list bool)
    (key pb : list Z) (h : Heap) : Prop := mk_prim_inv {
  pi_visited : length visited = Z.to_nat (vertices g);
  pi_key : length key = Z.to_nat (vertices g);
  pi_pb : length pb = Z.to_nat (vertices g);
  pi_shape : heap_shape h;
  pi_ordered : heap_ordered h;
  pi_capacity : capacity h = vertices g * vertices g;
  pi_entries : forall e, e ∈ heap_entries h ->
    0 <= vertex e < vertices g /\ (vertex e = start \/ has_parent pb (vertex e));
  pi_root : rd pb start = Ok (-1);
  pi_start : rd visited start = Ok true \/
             (forall e, e ∈ heap_entries h -> vertex e = start);
  pi_parent : forall v p, rd pb v = Ok p -> p <> -1 ->
    rd visited p = Ok true /\ edge g p v;
  pi_tree : forall u, rd visited u = Ok true -> tree_path pb start u;
  pi_keys : forall v kv, rd key v = Ok kv -> kv < INT_MAX ->
    v = start \/ has_parent pb v;
  pi_queued : span_ok g -> forall v, has_parent pb v ->
    rd visited v = Ok false -> exists e, e ∈ heap_entries h /\ vertex e = v
}.


(** ** Shortest paths *)

(** The chain of [u] holds a record for [v] with weight [w]. *)
Definition record (g : Graph) (u v w : Z) : Prop :=
  exists adj, rd (array g) u = Ok adj /\ mkNode v w ∈ adj.

(** [walk g start v d]: some walk from [start] to [v] along records of the
    chains has total weight [d] (as a mathematical integer). *)
Inductive walk (g : Graph) (start : Z) : Z -> Z -> Prop :=
| walk_nil : walk g start start 0
| walk_step u v w d :
    walk g start u d -> record g u v w -> walk g start v (d + w).

(** [d] is the least total weight of a walk from [start] to [v]. *)
Definition shortest (g : Graph) (start v d : Z) : Prop :=
  walk g start v d /\ forall s, walk g start v s -> d <= s.

(** Weights between 0 and [B], small enough that no path sum reaches
    [INT_MAX], and at most [vertices * vertices] records, the capacity of
    the heap. *)
Definition weights_ok (g : Graph) (B : Z) : Prop :=
  0 <= B /\
  (forall adj nd, adj ∈ array g -> nd ∈ adj -> 0 <= weight nd <= B) /\
  vertices g * B < INT_MAX /\
  Z.of_nat (total_records g) <= vertices g * vertices g.

(** Fuel that lets Dijkstra's algorithm run to completion on [g] when the
    weights are not negative. *)
Definition dijkstra_fuel (g : Graph) : nat := total_records g + 2.

(** The number of marked cells. *)
Definition settled_count (settled : list bool) : Z :=
  Z.of_nat (sum_list ((fun b : bool => if b then 1%nat else 0%nat) <$> settled)).

(** The invariant of Dijkstra's loop.  [settled] marks the vertices whose
    chain has been scanned and [m] is the key extracted last; neither is
    stored by the code. *)
Record dij_inv (g : Graph) (start B : Z) (settled : list bool) (m : Z)
    (dist : list Z) (h : Heap) : Prop := mk_dij_inv {
  dj_settled : length settled = Z.to_nat (vertices g);
  dj_dist : length dist = Z.to_nat (vertices g);
  dj_shape : heap_shape h;
  dj_ordered : heap_ordered h;
  dj_capacity : capacity h = vertices g * vertices g;
  dj_nodup : NoDup (heap_entries h);
  dj_entries : forall e, e ∈ heap_entries h ->
    0 <= vertex e < vertices g /\ m <= key e /\
    exists d, rd dist (vertex e) = Ok d /\ d <= key e /\ d <> INT_MAX /\
              (rd settled (vertex e) = Ok true -> d < key e);
  dj_start : rd dist start = Ok 0;
  dj_walk : forall v d, rd dist v = Ok d -> d <> INT_MAX ->
    walk g start v d /\ 0 <= d <= settled_count settled * B;
  dj_done : forall u d, rd settled u = Ok true -> rd dist u = Ok d ->
    d <= m /\ d <= (settled_count settled - 1) * B;
  dj_pending : forall u d, rd settled u = Ok false -> rd dist u = Ok d ->
    d <> INT_MAX -> mkHNode u d ∈ heap_entries h
}.

(** ** Dijkstra's algorithm with any weights *)

(** How far the distances are above [INT_MIN] in total; every relaxation
    lowers it. *)
Definition dist_slack (dist : list Z) : Z :=
  foldr (fun d acc => (d - INT_MIN) + acc) 0 dist.

(** What holds of Dijkstra's loop whatever the weights are. *)
Record dij_safe (g : Graph) (start : Z) (dist : list Z) (h : Heap)
  : Prop := mk_dij_safe {
  ds_dist : length dist = Z.to_nat (vertices g);
  ds_range : Forall (fun d => INT_MIN <= d <= INT_MAX) dist;
  ds_shape : heap_shape h;
  ds_ordered : heap_ordered h;
  ds_entries : forall e, e ∈ heap_entries h -> 0 <= vertex e < vertices g;
  ds_reached : forall v d, rd dist v = Ok d -> d <> INT_MAX ->
    reachable g start v
}.

(** ** The exported functions

    The two globals and the functions exported to the front end.  A null
    pointer is [None]. *)

Module Bridge.

Record state : Type :=
  mkState { globalGraph : option Graph; outputBuffer : option (list Z) }.

(** Both globals start as [nullptr]. *)
Definition start : state := {| globalGraph := None; outputBuffer := None |}.

(** The array behind [outputBuffer]; a null pointer has no cell. *)
Definition buffer (b : state) : list Z := default [] (outputBuffer b).


Definition addEdge (u v w : Z) (b : state) : outcome state :=
  match globalGraph b with
  | Some g =>
      do g' <- addEdge g u v w ;;
      Ok {| globalGraph := Some g'; outputBuffer := outputBuffer b |}
  | None => Ok b
  end.

Definition getResultBuffer (b : state) : option (list Z) := outputBuffer b.

Definition runBFS (fuel : nat) (startNode : Z) (b : state) : outcome state :=
  match globalGraph b with
  | Some g =>
      do ' (buf, _) <- BFS fuel g startNode (buffer b) ;;
      Ok {| globalGraph := Some g; outputBuffer := Some buf |}
  | None => Ok b
  end.

Definition runDFS (fuel : nat) (startNode : Z) (b : state) : outcome state :=
  match globalGraph b with
  | Some g =>
      do ' (buf, _) <- DFS fuel g startNode (buffer b) ;;
      Ok {| globalGraph := Some g; outputBuffer := Some buf |}
  | None => Ok b
  end.






(** The states between calls: nothing allocated, or a graph built by the
    constructor and [addEdge] together with a buffer of [vertices] cells. *)
Definition inv (b : state) : Prop :=
  match globalGraph b, outputBuffer b with
  | None, None => True
  | Some g, Some buf =>
      graph_state g /\ vertices g <= MAX_HEAP_VERTICES /\
      length buf = Z.to_nat (vertices g)
  | _, _ => False
  end.

End Bridge.

(** The state after [initGraph(3)], the three [addEdge] calls of the
    triangle and some earlier result in the buffer. *)
Definition triangle_session : Bridge.state :=
  {| Bridge.globalGraph := Some triangle_graph;
     Bridge.outputBuffer := Some [7; 8; 9] |}.

(** ** The greedy rule of Prim's algorithm *)

(** What ties the keys, the parents and the heap to the order in which the
    vertices were marked: every vertex after the first was attached by a
    lightest record leaving the vertices marked before it. *)
Record prim_greedy (g : Graph) (start : Z) (order : list Z)
    (visited : list bool) (keys pb : list Z) (h : Heap) : Prop :=
  mk_prim_greedy {
  pg_nodup : NoDup order;
  pg_order : forall v, v ∈ order <-> rd visited v = Ok true;
  pg_head : order = [] \/ head order = Some start;
  pg_tree : forall before v after,
    order = before ++ v :: after -> before <> [] ->
    exists p w, rd pb v = Ok p /\ p ∈ before /\ record g p v w /\
      forall x y w', x ∈ before -> y ∉ before -> record g x y w' -> w <= w';
  pg_key : forall v kv,
    rd visited v = Ok false -> rd keys v = Ok kv -> kv < INT_MAX ->
    (v = start /\ order = []) \/
    exists p, rd pb v = Ok p /\ p ∈ order /\ record g p v kv;
  pg_entries : forall e, e ∈ heap_entries h ->
    key e < INT_MAX /\ exists kv, rd keys (vertex e) = Ok kv /\ kv <= key e;
  pg_queued : forall v kv,
    rd visited v = Ok false -> rd keys v = Ok kv -> kv < INT_MAX ->
    mkHNode v kv ∈ heap_entries h
}.
(** * Basic facts *)

Lemma wrap32_id z : INT_MIN <= z <= INT_MAX -> wrap32 z = z.
Proof.
  unfold wrap32, INT_MIN, INT_MAX. intros Hz.
  rewrite Z.mod_small; lia.
Qed.

Lemma bind_Ok_inv {A B} (m : outcome A) (k : A -> outcome B) b :
  bind m k = Ok b -> exists a, m = Ok a /\ k a = Ok b.
Proof. destruct m; simpl; intros H; try discriminate. eauto. Qed.

Lemma rd_Some {A} (a : list A) i x :
  0 <= i -> a !! Z.to_nat i = Some x -> rd a i = Ok x.
Proof.
  intros Hi Hx. unfold rd. destruct (Z.leb_spec 0 i); [|lia]. by rewrite Hx.
Qed.

Lemma rd_Ok_inv {A} (a : list A) i x :
  rd a i = Ok x -> 0 <= i < Z.of_nat (length a) /\ a !! Z.to_nat i = Some x.
Proof.
  unfold rd. destruct (Z.leb_spec 0 i); [|discriminate].
  destruct (a !! Z.to_nat i) eqn:E; [|discriminate].
  intros [= ->]. apply lookup_lt_Some in E as Hlt. split; [lia|done].
Qed.

Lemma rd_ex {A} (a : list A) i :
  0 <= i < Z.of_nat (length a) ->
  exists x, a !! Z.to_nat i = Some x /\ rd a i = Ok x.
Proof.
  intros Hi. destruct (lookup_lt_is_Some_2 a (Z.to_nat i)) as [x Hx]; [lia|].
  exists x. split; [done|]. apply rd_Some; [lia|done].
Qed.

Lemma wr_ok {A} (a : list A) i x :
  0 <= i < Z.of_nat (length a) -> wr a i x = Ok (<[Z.to_nat i := x]> a).
Proof.
  intros Hi. unfold wr. destruct (Z.leb_spec 0 i); [|lia].
  destruct (lookup_lt_is_Some_2 a (Z.to_nat i)) as [y Hy]; [lia|].
  by rewrite Hy.
Qed.

Lemma wr_Ok_inv {A} (a : list A) i x a' :
  wr a i x = Ok a' ->
  0 <= i < Z.of_nat (length a) /\ a' = <[Z.to_nat i := x]> a.
Proof.
  unfold wr. destruct (Z.leb_spec 0 i); [|discriminate].
  destruct (a !! Z.to_nat i) eqn:E; [|discriminate].
  intros [= <-]. apply lookup_lt_Some in E. split; [lia|done].
Qed.

(** * addEdge *)

Lemma addEdge_in_range g u v w :
  wf_graph g -> 0 <= u < vertices g -> 0 <= v < vertices g ->
  exists lu lv ru rv,
    array g !! Z.to_nat u = Some lu /\
    <[Z.to_nat u := AddEdge lu v w]> (array g) !! Z.to_nat v = Some lv /\
    AdjMat g !! Z.to_nat u = Some ru /\
    <[Z.to_nat u := <[Z.to_nat v := w]> ru]> (AdjMat g) !! Z.to_nat v = Some rv /\
    addEdge g u v w =
      Ok {| vertices := vertices g;
            array := <[Z.to_nat v := AddEdge lv u w]>
                       (<[Z.to_nat u := AddEdge lu v w]> (array g));
            AdjMat := <[Z.to_nat v := <[Z.to_nat u := w]> rv]>
                        (<[Z.to_nat u := <[Z.to_nat v := w]> ru]> (AdjMat g)) |}.
Proof.
  intros [Hn Ha Hr Hc Hd] Hu Hv. unfold addEdge.
  destruct (Z.leb_spec 0 u); [|lia]. destruct (Z.ltb_spec u (vertices g)); [|lia].
  destruct (Z.leb_spec 0 v); [|lia]. destruct (Z.ltb_spec v (vertices g)); [|lia].
  cbn [andb].
  destruct (rd_ex (array g) u) as (lu & Hlu & ->); [lia|]. cbn [bind].
  rewrite wr_ok by lia. cbn [bind].
  destruct (rd_ex (<[Z.to_nat u:=AddEdge lu v w]> (array g)) v)
    as (lv & Hlv & ->); [rewrite length_insert; lia|]. cbn [bind].
  rewrite wr_ok by (rewrite length_insert; lia). cbn [bind].
  destruct (rd_ex (AdjMat g) u) as (ru & Hru & ->); [lia|]. cbn [bind].
  assert (length ru = Z.to_nat (vertices g)) as Hlru.
  { eapply (Forall_lookup_1 _ _ _ _ Hc Hru). }
  rewrite wr_ok by lia. cbn [bind].
  rewrite wr_ok by lia. cbn [bind].
  destruct (rd_ex (<[Z.to_nat u:=<[Z.to_nat v:=w]> ru]> (AdjMat g)) v)
    as (rv & Hrv & ->); [rewrite length_insert; lia|]. cbn [bind].
  assert (length rv = Z.to_nat (vertices g)) as Hlrv.
  { destruct (decide (Z.to_nat u = Z.to_nat v)) as [E|E].
    - rewrite E, list_lookup_insert_eq in Hrv by lia.
      injection Hrv as <-. by rewrite length_insert.
    - rewrite list_lookup_insert_ne in Hrv by done.
      eapply (Forall_lookup_1 _ _ _ _ Hc Hrv). }
  rewrite wr_ok by lia. cbn [bind].
  rewrite wr_ok by (rewrite length_insert; lia). cbn [bind].
  exists lu, lv, ru, rv. done.
Qed.

Lemma Graph_new_wf v : 0 <= v <= INT_MAX -> wf_graph (Graph_new v).
Proof.
  intros Hv. split; simpl.
  - done.
  - by rewrite length_replicate.
  - by rewrite length_replicate.
  - apply Forall_replicate. by rewrite length_replicate.
  - apply Forall_replicate. constructor.
Qed.

Lemma addEdge_wf g u v w g' :
  wf_graph g -> addEdge g u v w = Ok g' -> wf_graph g'.
Proof.
  intros Hwf H.
  destruct (decide (0 <= u < vertices g /\ 0 <= v < vertices g)) as [[Hu Hv]|Hn].
  - destruct (addEdge_in_range g u v w Hwf Hu Hv)
      as (lu & lv & ru & rv & Hlu & Hlv & Hru & Hrv & E).
    rewrite E in H. injection H as <-.
    destruct Hwf as [Hn Ha Hr Hc Hd]. split; simpl.
    + done.
    + by rewrite !length_insert.
    + by rewrite !length_insert.
    + assert (Forall (fun row => length row = Z.to_nat (vertices g))
                (<[Z.to_nat u:=<[Z.to_nat v:=w]> ru]> (AdjMat g))) as Hc1.
      { apply Forall_insert; [done|]. rewrite length_insert.
        eapply (Forall_lookup_1 _ _ _ _ Hc Hru). }
      apply Forall_insert; [done|]. rewrite length_insert.
      eapply (Forall_lookup_1 _ _ _ _ Hc1 Hrv).
    + assert (Forall (Forall (fun nd => 0 <= destination nd < vertices g))
                (<[Z.to_nat u:=AddEdge lu v w]> (array g))) as Hd1.
      { apply Forall_insert; [done|]. constructor; [done|].
        eapply (Forall_lookup_1 _ _ _ _ Hd Hlu). }
      apply Forall_insert; [done|]. constructor; [done|].
      eapply (Forall_lookup_1 _ _ _ _ Hd1 Hlv).
  - unfold addEdge in H.
    destruct (Z.leb_spec 0 u), (Z.ltb_spec u (vertices g)),
      (Z.leb_spec 0 v), (Z.ltb_spec v (vertices g));
      cbn [andb] in H; try (injection H as <-; done); lia.
Qed.

Lemma graph_state_wf g : graph_state g -> wf_graph g.
Proof.
  induction 1 as [v Hv|g u v w g' _ IH H].
  - by apply Graph_new_wf.
  - by eapply addEdge_wf.
Qed.

(** C5. After [addEdge(u, v, w)] with both ends in range, the chain of [u]
    holds a record [(v, w)], the chain of [v] holds a record [(u, w)], and
    the matrix cells [u][v] and [v][u] both hold [w]. *)
Theorem addEdge_symmetric g u v w :
  wf_graph g -> 0 <= u < vertices g -> 0 <= v < vertices g ->
  exists g',
    addEdge g u v w = Ok g' /\
    (exists lu, rd (array g') u = Ok lu /\ mkNode v w ∈ lu) /\
    (exists lv, rd (array g') v = Ok lv /\ mkNode u w ∈ lv) /\
    (exists ru, rd (AdjMat g') u = Ok ru /\ rd ru v = Ok w) /\
    (exists rv, rd (AdjMat g') v = Ok rv /\ rd rv u = Ok w).
Proof.
  intros Hwf Hu Hv.
  destruct (addEdge_in_range g u v w Hwf Hu Hv)
    as (lu & lv & ru & rv & Hlu & Hlv & Hru & Hrv & E).
  destruct Hwf as [Hn Ha Hr Hc Hd].
  assert (length ru = Z.to_nat (vertices g)) as Hlru
    by (eapply (Forall_lookup_1 _ _ _ _ Hc Hru)).
  eexists. split; [exact E|]. simpl.
  destruct (decide (Z.to_nat u = Z.to_nat v)) as [Euv|Euv].
  - assert (u = v) as -> by lia.
    rewrite list_lookup_insert_eq in Hlv by lia. injection Hlv as <-.
    rewrite list_lookup_insert_eq in Hrv by lia. injection Hrv as <-.
    repeat split.
    + eexists. split.
      * apply rd_Some; [lia|]. apply list_lookup_insert_eq.
        rewrite length_insert. lia.
      * apply list_elem_of_here.
    + eexists. split.
      * apply rd_Some; [lia|]. apply list_lookup_insert_eq.
        rewrite length_insert. lia.
      * apply list_elem_of_here.
    + eexists. split.
      * apply rd_Some; [lia|]. apply list_lookup_insert_eq.
        rewrite length_insert. lia.
      * apply rd_Some; [lia|]. apply list_lookup_insert_eq.
        rewrite length_insert. lia.
    + eexists. split.
      * apply rd_Some; [lia|]. apply list_lookup_insert_eq.
        rewrite length_insert. lia.
      * apply rd_Some; [lia|]. apply list_lookup_insert_eq.
        rewrite length_insert. lia.
  - rewrite list_lookup_insert_ne in Hlv by done.
    rewrite list_lookup_insert_ne in Hrv by done.
    assert (length rv = Z.to_nat (vertices g)) as Hlrv
      by (eapply (Forall_lookup_1 _ _ _ _ Hc Hrv)).
    repeat split.
    + eexists. split.
      * apply rd_Some; [lia|]. rewrite list_lookup_insert_ne by done.
        apply list_lookup_insert_eq. lia.
      * apply list_elem_of_here.
    + eexists. split.
      * apply rd_Some; [lia|]. apply list_lookup_insert_eq.
        rewrite length_insert. lia.
      * apply list_elem_of_here.
    + eexists. split.
      * apply rd_Some; [lia|]. rewrite list_lookup_insert_ne by done.
        apply list_lookup_insert_eq. lia.
      * apply rd_Some; [lia|]. apply list_lookup_insert_eq. lia.
    + eexists. split.
      * apply rd_Some; [lia|]. apply list_lookup_insert_eq.
        rewrite length_insert. lia.
      * apply rd_Some; [lia|]. apply list_lookup_insert_eq. lia.
Qed.

(** C6. With [u] or [v] outside [[0, vertices)], [addEdge] reports nothing
    and hands back the graph it was given: same chains, same matrix. *)
Theorem addEdge_out_of_range g u v w :
  ~ (0 <= u < vertices g /\ 0 <= v < vertices g) -> addEdge g u v w = Ok g.
Proof.
  intros Hn. unfold addEdge.
  destruct (Z.leb_spec 0 u), (Z.ltb_spec u (vertices g)),
    (Z.leb_spec 0 v), (Z.ltb_spec v (vertices g)); cbn [andb]; try done; lia.
Qed.

Lemma addEdge_out_of_range_witness :
  ~ (0 <= 0 < vertices (Graph_new 3) /\ 0 <= 3 < vertices (Graph_new 3)) /\
  addEdge (Graph_new 3) 0 3 5 = Ok (Graph_new 3).
Proof.
  assert (~ (0 <= 0 < vertices (Graph_new 3) /\
             0 <= 3 < vertices (Graph_new 3))) as H by (simpl; lia).
  split; [exact H|]. exact (addEdge_out_of_range (Graph_new 3) 0 3 5 H).
Defined.

Lemma addEdge_symmetric_witness :
  (wf_graph (Graph_new 3) /\ 0 <= 0 < vertices (Graph_new 3) /\
   0 <= 2 < vertices (Graph_new 3)) /\
  exists g',
    addEdge (Graph_new 3) 0 2 7 = Ok g' /\
    (exists lu, rd (array g') 0 = Ok lu /\ mkNode 2 7 ∈ lu) /\
    (exists lv, rd (array g') 2 = Ok lv /\ mkNode 0 7 ∈ lv) /\
    (exists ru, rd (AdjMat g') 0 = Ok ru /\ rd ru 2 = Ok 7) /\
    (exists rv, rd (AdjMat g') 2 = Ok rv /\ rd rv 0 = Ok 7).
Proof.
  assert (wf_graph (Graph_new 3) /\ 0 <= 0 < vertices (Graph_new 3) /\
          0 <= 2 < vertices (Graph_new 3)) as H.
  { split; [apply Graph_new_wf; unfold INT_MAX; lia|simpl; lia]. }
  split; [exact H|]. destruct H as (H1 & H2 & H3).
  exact (addEdge_symmetric (Graph_new 3) 0 2 7 H1 H2 H3).
Defined.

(** * The heap *)

Lemma keyAt_lookup a i x :
  0 <= i -> a !! Z.to_nat i = Some x -> keyAt a i = key x.
Proof. intros Hi Hx. unfold keyAt. by rewrite (rd_Some a i x). Qed.

Lemma keyAt_insert a n x k :
  0 <= n < Z.of_nat (length a) ->
  keyAt (<[Z.to_nat n := x]> a) k = if decide (k = n) then key x else keyAt a k.
Proof.
  intros Hn. unfold keyAt, rd. destruct (Z.leb_spec 0 k) as [Hk|Hk].
  - destruct (decide (k = n)) as [->|Hne].
    + rewrite list_lookup_insert_eq by lia. done.
    + rewrite list_lookup_insert_ne by lia. done.
  - destruct (decide (k = n)); [lia|done].
Qed.

Lemma swap_ok a i j :
  0 <= i < Z.of_nat (length a) -> 0 <= j < Z.of_nat (length a) ->
  exists a',
    swap a i j = Ok a' /\ length a' = length a /\
    (i <> j -> forall k,
       keyAt a' k = if decide (k = j) then keyAt a i
                    else if decide (k = i) then keyAt a j else keyAt a k).
Proof.
  intros Hi Hj. unfold swap.
  destruct (rd_ex a i Hi) as (x & Hx & ->).
  destruct (rd_ex a j Hj) as (y & Hy & ->). cbn [bind].
  rewrite wr_ok by done. cbn [bind].
  rewrite wr_ok by (rewrite length_insert; done).
  eexists. split; [done|]. split; [by rewrite !length_insert|].
  intros Hne k. rewrite keyAt_insert by (rewrite length_insert; done).
  rewrite keyAt_insert by done.
  rewrite (keyAt_lookup a i x), (keyAt_lookup a j y) by (done || lia). done.
Qed.

Lemma pick_smaller_ok h l s :
  (l <= size h -> 0 <= l < Z.of_nat (length (arr h))) ->
  0 <= s < Z.of_nat (length (arr h)) ->
  pick_smaller h l s =
    Ok (if decide (l <= size h /\ keyAt (arr h) l < keyAt (arr h) s)
        then l else s).
Proof.
  intros Hl Hs. unfold pick_smaller.
  destruct (Z.leb_spec l (size h)) as [Hle|Hgt].
  - destruct (rd_ex (arr h) l (Hl Hle)) as (x & Hx & ->).
    destruct (rd_ex (arr h) s Hs) as (y & Hy & ->). cbn [bind].
    rewrite (keyAt_lookup _ l x), (keyAt_lookup _ s y) by (done || lia).
    destruct (Z.ltb_spec (key x) (key y)); case_decide; (done || lia).
  - case_decide; [lia|done].
Qed.

Lemma mul32_2 i : 0 <= i <= MAX_CAPACITY -> mul32 2 i = 2 * i.
Proof.
  unfold MAX_CAPACITY. intros Hi. unfold mul32.
  apply wrap32_id. unfold INT_MIN, INT_MAX. lia.
Qed.

Lemma add32_1 i : INT_MIN <= i < INT_MAX -> add32 i 1 = i + 1.
Proof. intros Hi. unfold add32. apply wrap32_id. lia. Qed.

Lemma sub32_1 i : INT_MIN < i <= INT_MAX -> sub32 i 1 = i - 1.
Proof. intros Hi. unfold sub32. apply wrap32_id. lia. Qed.

Lemma heap_ordered_alt h :
  heap_ordered h <->
  (forall p j, 2 <= j <= size h -> j = 2 * p \/ j = 2 * p + 1 ->
     keyAt (arr h) p <= keyAt (arr h) j).
Proof.
  unfold heap_ordered. split.
  - intros H p j Hj [->| ->]; apply H; lia.
  - intros H i Hi. split; intros Hc; apply H; lia.
Qed.

Lemma percolateUp_ok fuel : forall h i,
  heap_shape h -> 1 <= i <= size h -> (Z.to_nat i <= fuel)%nat ->
  ordered_but_up (arr h) (size h) i ->
  exists h',
    percolateUp fuel h i = Ok h' /\ heap_shape h' /\ heap_ordered h' /\
    size h' = size h /\ capacity h' = capacity h.
Proof.
  induction fuel as [|fuel IH]; intros h i Hsh Hi Hfuel [Ha Hb]; [lia|].
  destruct Hsh as (Hsz & Hcap & Hlen). simpl.
  assert (i `quot` 2 = i `div` 2) as -> by (apply Z.quot_div_nonneg; lia).
  pose proof (Z.div_mod i 2) as Hdm. pose proof (Z.mod_pos_bound i 2) as Hmb.
  set (p := i `div` 2) in *.
  assert (i = 2 * p \/ i = 2 * p + 1) as Hip by lia.
  destruct (Z.ltb_spec 1 i) as [H1|H1].
  - destruct (rd_ex (arr h) i) as (x & Hx & ->); [lia|].
    destruct (rd_ex (arr h) p) as (y & Hy & ->); [lia|]. cbn [bind].
    rewrite <- (keyAt_lookup _ i x), <- (keyAt_lookup _ p y) by (done || lia).
    destruct (Z.ltb_spec (keyAt (arr h) i) (keyAt (arr h) p)) as [Hlt|Hge].
    + destruct (swap_ok (arr h) i p) as (a' & -> & Hlen' & Hk); [lia..|].
      cbn [bind]. specialize (Hk ltac:(lia)).
      destruct (IH (set_arr h a') p) as (h' & E & Hsh' & Ho' & Hs' & Hc');
        [| | | |exists h'; done].
      * unfold heap_shape; simpl. rewrite Hlen'. done.
      * simpl. lia.
      * lia.
      * simpl. split.
        -- intros q j Hj Hjp Hq. rewrite !Hk.
           destruct (decide (j = i)) as [->|Hji].
           { assert (q = p) as -> by lia. repeat case_decide; lia. }
           destruct (decide (q = i)) as [->|Hqi].
           { repeat case_decide; try lia. apply (Hb p); lia. }
           destruct (decide (q = p)) as [->|Hqp].
           { repeat case_decide; try lia.
             pose proof (Ha p j Hj Hji Hq). lia. }
           repeat case_decide; try lia. by apply Ha.
        -- intros g j Hj Hjp Hg Hg1. rewrite !Hk.
           assert (keyAt (arr h) g <= keyAt (arr h) p) by (apply Ha; lia).
           destruct (decide (j = i)) as [->|Hji].
           { repeat case_decide; lia. }
           repeat case_decide; try lia.
           pose proof (Ha p j Hj Hji Hjp). lia.
    + eexists. split; [done|]. split; [done|]. split; [|done].
      apply heap_ordered_alt. intros q j Hj Hq.
      destruct (decide (j = i)) as [->|Hji]; [|by apply Ha].
      assert (q = p) as -> by lia. lia.
  - cbn [bind]. eexists. split; [done|]. split; [done|]. split; [|done].
    apply heap_ordered_alt. intros q j Hj Hq. apply Ha; [done|lia|done].
Qed.

Lemma percolateDown_ok fuel : forall h i,
  heap_shape h -> 1 <= i <= MAX_CAPACITY ->
  (Z.to_nat (size h + 1 - i) < fuel)%nat ->
  ordered_but_down (arr h) (size h) i ->
  exists h',
    percolateDown fuel h i = Ok h' /\ heap_shape h' /\ heap_ordered h' /\
    size h' = size h /\ capacity h' = capacity h.
Proof.
  induction fuel as [|fuel IH]; intros h i Hsh Hi Hfuel [Ha Hb]; [lia|].
  destruct Hsh as (Hsz & Hcap & Hlen). simpl.
  destruct (decide (i <= size h)) as [Hin|Hout].
  - rewrite mul32_2 by lia.
    rewrite add32_1 by (unfold INT_MIN, INT_MAX, MAX_CAPACITY in *; lia).
    rewrite pick_smaller_ok by lia. cbn [bind].
    set (s1 := if decide (2 * i <= size h /\ _) then _ else _).
    assert (0 <= s1 < Z.of_nat (length (arr h))) as Hs1
      by (subst s1; case_decide; lia).
    rewrite pick_smaller_ok by lia. cbn [bind].
    set (s := if decide (2 * i + 1 <= size h /\ _) then _ else _).
    destruct (Z.eqb_spec s i) as [Hsi|Hsi]; cbn [negb].
    + eexists. split; [done|]. split; [done|]. split; [|done].
      apply heap_ordered_alt. intros q j Hj Hq.
      destruct (decide (q = i)) as [->|Hqi]; [|by apply Ha].
      destruct Hq as [->| ->]; subst s s1; repeat case_decide; lia.
    + assert (i < s <= size h /\ (s = 2 * i \/ s = 2 * i + 1) /\
              keyAt (arr h) s < keyAt (arr h) i /\
              (forall j, 2 <= j <= size h -> j = 2 * i \/ j = 2 * i + 1 ->
                 keyAt (arr h) s <= keyAt (arr h) j)) as (Hs & Hsc & Hlt & Hmin).
      { subst s s1. repeat case_decide; try lia.
        - repeat split; try lia. intros j Hj [->| ->]; lia.
        - repeat split; try lia. intros j Hj [->| ->]; lia.
        - repeat split; try lia. intros j Hj [->| ->]; lia. }
      clearbody s. clear s1 Hs1.
      destruct (swap_ok (arr h) i s) as (a' & -> & Hlen' & Hk); [lia..|].
      cbn [bind]. specialize (Hk ltac:(lia)).
      destruct (IH (set_arr h a') s) as (h' & E & Hsh' & Ho' & Hs' & Hc');
        [| | | |exists h'; done].
      * unfold heap_shape; simpl. rewrite Hlen'. done.
      * lia.
      * simpl. lia.
      * simpl. split.
        -- intros q j Hj Hqs Hq. rewrite !Hk.
           destruct (decide (j = s)) as [->|Hjs].
           { assert (q = i) as -> by lia. repeat case_decide; lia. }
           destruct (decide (j = i)) as [->|Hji].
           { repeat case_decide; try lia. apply (Hb q); lia. }
           destruct (decide (q = i)) as [->|Hqi].
           { repeat case_decide; try lia. apply Hmin; lia. }
           repeat case_decide; try lia. by apply Ha.
        -- intros g j Hj Hjs Hg Hg1. rewrite !Hk.
           assert (g = i) as -> by lia.
           repeat case_decide; try lia. apply Ha; lia.
  - assert (forall l s, size h < l -> pick_smaller h l s = Ok s) as Hpick.
    { intros l s Hl. unfold pick_smaller.
      destruct (Z.leb_spec l (size h)); [lia|done]. }
    rewrite mul32_2 by lia.
    rewrite add32_1 by (unfold INT_MIN, INT_MAX, MAX_CAPACITY in *; lia).
    rewrite Hpick by lia. cbn [bind]. rewrite Hpick by lia. cbn [bind].
    rewrite Z.eqb_refl. cbn [negb].
    eexists. split; [done|]. split; [done|]. split; [|done].
    apply heap_ordered_alt. intros q j Hj Hq. apply Ha; [done|lia|done].
Qed.

Lemma Heap_new_shape c :
  0 <= c <= MAX_CAPACITY -> heap_shape (Heap_new c) /\ heap_ordered (Heap_new c).
Proof.
  intros Hc. split.
  - unfold heap_shape; simpl. rewrite length_replicate.
    rewrite add32_1 by (unfold INT_MIN, INT_MAX, MAX_CAPACITY in *; lia). lia.
  - intros i Hi. simpl. lia.
Qed.

Lemma InsertKey_ok h v k :
  heap_shape h -> heap_ordered h ->
  exists h',
    InsertKey h v k = Ok h' /\ heap_shape h' /\ heap_ordered h' /\
    capacity h' = capacity h /\
    size h' = (if decide (size h < capacity h) then size h + 1 else size h).
Proof.
  intros Hsh Hord. unfold InsertKey.
  destruct (Z.geb_spec (size h) (capacity h)) as [Hfull|Hroom].
  - exists h. case_decide; [lia|done].
  - destruct Hsh as (Hsz & Hcap & Hlen).
    rewrite add32_1 by (unfold INT_MIN, INT_MAX, MAX_CAPACITY in *; lia).
    rewrite wr_ok by lia. cbn [bind].
    set (h1 := {| arr := _; size := _; capacity := _ |}).
    destruct (percolateUp_ok (Z.to_nat (size h + 1)) h1 (size h + 1))
      as (h' & E & Hsh' & Ho' & Hs' & Hc').
    + unfold heap_shape, h1; simpl. rewrite length_insert. lia.
    + simpl. lia.
    + lia.
    + pose proof (proj1 (heap_ordered_alt h) Hord) as Hord'.
      unfold h1; simpl. split.
      * intros p j Hj Hne Hp.
        rewrite !keyAt_insert by lia. repeat case_decide; try lia.
        apply Hord'; lia.
      * intros g j Hj Hc. lia.
    + exists h'. rewrite Hs', Hc'. unfold h1; simpl.
      case_decide; [done|lia].
Qed.

Lemma ExtractMin_ok h :
  heap_shape h -> heap_ordered h ->
  exists m h',
    ExtractMin h = Ok (m, h') /\ heap_shape h' /\ heap_ordered h' /\
    capacity h' = capacity h /\
    (size h = 0 -> h' = h) /\
    (size h <> 0 -> rd (arr h) 1 = Ok m /\ size h' = size h - 1).
Proof.
  intros Hsh Hord. unfold ExtractMin.
  destruct (Z.eqb_spec (size h) 0) as [Hz|Hnz].
  - exists (mkHNode 0 0), h. do 5 (split; [done|]). lia.
  - destruct Hsh as (Hsz & Hcap & Hlen).
    destruct (rd_ex (arr h) 1) as (m & Hm & ->); [lia|].
    destruct (rd_ex (arr h) (size h)) as (l & Hl & ->); [lia|]. cbn [bind].
    rewrite wr_ok by lia. cbn [bind].
    rewrite sub32_1 by (unfold INT_MIN, INT_MAX, MAX_CAPACITY in *; lia).
    set (h1 := {| arr := _; size := _; capacity := _ |}).
    destruct (percolateDown_ok (S (Z.to_nat (size h - 1))) h1 1)
      as (h' & E & Hsh' & Ho' & Hs' & Hc').
    + unfold heap_shape, h1; simpl. rewrite length_insert. lia.
    + unfold MAX_CAPACITY. lia.
    + simpl. lia.
    + pose proof (proj1 (heap_ordered_alt h) Hord) as Hord'.
      unfold h1; simpl. split.
      * intros p j Hj Hne Hp.
        rewrite !keyAt_insert by lia. repeat case_decide; try lia.
        apply Hord'; lia.
      * intros g j Hj Hc. lia.
    + rewrite E. cbn [bind]. exists m, h'. rewrite Hs', Hc'.
      do 4 (split; [done|]). split; [lia|done].
Qed.

Lemma heap_root_least h :
  heap_ordered h ->
  forall i, 1 <= i <= size h -> keyAt (arr h) 1 <= keyAt (arr h) i.
Proof.
  intros Hord0 i. pose proof (proj1 (heap_ordered_alt h) Hord0) as Hord.
  assert (forall n : nat, forall j, (Z.to_nat j <= n)%nat -> 1 <= j <= size h ->
            keyAt (arr h) 1 <= keyAt (arr h) j) as Hind.
  { induction n as [|n IH]; intros j Hn Hj; [lia|].
    destruct (decide (j = 1)) as [->|Hne]; [lia|].
    pose proof (Z.div_mod j 2). pose proof (Z.mod_pos_bound j 2).
    etrans; [apply (IH (j `div` 2)); lia|].
    apply Hord; lia. }
  apply (Hind (Z.to_nat i)). lia.
Qed.

Lemma heap_state_inv c h :
  0 <= c <= MAX_CAPACITY -> heap_state c h ->
  heap_shape h /\ heap_ordered h /\ capacity h = c.
Proof.
  intros Hc. induction 1 as [|h v k h' _ IH E|h m h' _ IH E].
  - destruct (Heap_new_shape c Hc). done.
  - destruct IH as (Hsh & Ho & Hcap).
    destruct (InsertKey_ok h v k Hsh Ho) as (h'' & E' & ? & ? & ? & _).
    rewrite E in E'. injection E' as <-. do 2 (split; [done|]). lia.
  - destruct IH as (Hsh & Ho & Hcap).
    destruct (ExtractMin_ok h Hsh Ho) as (m' & h'' & E' & ? & ? & ? & _).
    rewrite E in E'. injection E' as <- <-. do 2 (split; [done|]). lia.
Qed.

Lemma percolateUp_size fuel : forall h i h',
  percolateUp fuel h i = Ok h' -> size h' = size h /\ capacity h' = capacity h.
Proof.
  induction fuel as [|fuel IH]; intros h i h' H; [discriminate|].
  simpl in H. apply bind_Ok_inv in H as (go & _ & H). destruct go.
  - apply bind_Ok_inv in H as (a & _ & H). by apply IH in H.
  - by injection H as <-.
Qed.

Lemma percolateDown_size fuel : forall h i h',
  percolateDown fuel h i = Ok h' -> size h' = size h /\ capacity h' = capacity h.
Proof.
  induction fuel as [|fuel IH]; intros h i h' H; [discriminate|].
  simpl in H. apply bind_Ok_inv in H as (s1 & _ & H).
  apply bind_Ok_inv in H as (s2 & _ & H).
  destruct (negb (s2 =? i)).
  - apply bind_Ok_inv in H as (a & _ & H). by apply IH in H.
  - by injection H as <-.
Qed.

Lemma wrap32_range z : INT_MIN <= wrap32 z <= INT_MAX.
Proof.
  unfold wrap32, INT_MIN, INT_MAX.
  pose proof (Z.mod_pos_bound (z - -2147483648) 4294967296). lia.
Qed.

Lemma run_op_size c h op h' :
  0 <= c <= INT_MAX -> 0 <= size h <= c -> capacity h = c ->
  run_op h op = Ok h' -> 0 <= size h' <= c /\ capacity h' = c.
Proof.
  intros Hc Hs Hcap H. destruct op as [v k|]; simpl in H.
  - unfold InsertKey in H.
    destruct (Z.geb_spec (size h) (capacity h)).
    + by injection H as <-.
    + apply bind_Ok_inv in H as (a & _ & H).
      apply percolateUp_size in H as [-> ->]. simpl.
      rewrite add32_1 by (unfold INT_MIN in *; lia). lia.
  - apply bind_Ok_inv in H as ([m h1] & E & H). injection H as <-.
    unfold ExtractMin in E. destruct (Z.eqb_spec (size h) 0).
    + by injection E as _ <-.
    + apply bind_Ok_inv in E as (x & _ & E).
      apply bind_Ok_inv in E as (l & _ & E).
      apply bind_Ok_inv in E as (a & _ & E).
      apply bind_Ok_inv in E as (h2 & E & E2). injection E2 as _ <-.
      apply percolateDown_size in E as [-> ->]. simpl.
      rewrite sub32_1 by (unfold INT_MIN in *; lia). lia.
Qed.

Lemma run_ops_size c ops : forall h h',
  0 <= c <= INT_MAX -> 0 <= size h <= c -> capacity h = c ->
  run_ops h ops = Ok h' -> 0 <= size h' <= c /\ capacity h' = c.
Proof.
  induction ops as [|op ops IH]; intros h h' Hc Hs Hcap H; simpl in H.
  - by injection H as <-.
  - apply bind_Ok_inv in H as (h1 & E & H).
    destruct (run_op_size c h op h1 Hc Hs Hcap E). by eapply IH.
Qed.

Lemma run_ops_total ops : forall h,
  heap_shape h -> heap_ordered h -> exists h', run_ops h ops = Ok h'.
Proof.
  induction ops as [|op ops IH]; intros h Hsh Ho; simpl; [by eexists|].
  destruct op as [v k|]; simpl.
  - destruct (InsertKey_ok h v k Hsh Ho) as (h1 & -> & ? & ? & _).
    cbn [bind]. by apply IH.
  - destruct (ExtractMin_ok h Hsh Ho) as (m & h1 & -> & ? & ? & _).
    cbn [bind]. by apply IH.
Qed.

(** C7. Whatever [InsertKey] and [ExtractMin] calls are made on [Heap(c)],
    the size stays within [[0, c]]; an [InsertKey] on a full heap returns
    the heap as it was.  Up to [MAX_CAPACITY] every call sequence runs to
    completion. *)
Theorem heap_size_within_capacity (c : Z) (ops : list heap_op) :
  0 <= c <= INT_MAX ->
  (c <= MAX_CAPACITY -> exists h, run_ops (Heap_new c) ops = Ok h) /\
  (forall h, run_ops (Heap_new c) ops = Ok h ->
     0 <= size h <= c /\ capacity h = c /\
     (forall v k, size h = c -> InsertKey h v k = Ok h)).
Proof.
  intros Hc. split.
  - intros Hmax. destruct (Heap_new_shape c) as [Hsh Ho]; [lia|].
    by apply run_ops_total.
  - intros h H.
    destruct (run_ops_size c ops (Heap_new c) h) as [Hs Hcap];
      [done|simpl; lia|done|done|].
    split; [done|]. split; [done|]. intros v k Hfull. unfold InsertKey.
    destruct (Z.geb_spec (size h) (capacity h)); [done|lia].
Qed.

Lemma heap_size_within_capacity_witness :
  0 <= 2 <= INT_MAX /\
  ((2 <= MAX_CAPACITY ->
    exists h,
      run_ops (Heap_new 2)
        [OpInsertKey 0 5; OpInsertKey 1 3; OpInsertKey 2 1; OpExtractMin] = Ok h) /\
   (forall h,
      run_ops (Heap_new 2)
        [OpInsertKey 0 5; OpInsertKey 1 3; OpInsertKey 2 1; OpExtractMin] = Ok h ->
      0 <= size h <= 2 /\ capacity h = 2 /\
      (forall v k, size h = 2 -> InsertKey h v k = Ok h))).
Proof.
  split; [unfold INT_MAX; lia|].
  apply (heap_size_within_capacity 2). unfold INT_MAX; lia.
Defined.

(** C8. Every heap reachable from [Heap(c)] by [InsertKey] and [ExtractMin]
    is in min-heap order (no key exceeds the keys of its two children), and
    [ExtractMin] hands back an entry whose key is at most the key of every
    entry stored in cells [1 .. size] at the time of the call. *)
Theorem heap_state_min_order (c : Z) (h : Heap) :
  0 <= c <= MAX_CAPACITY -> heap_state c h ->
  heap_ordered h /\
  exists m h',
    ExtractMin h = Ok (m, h') /\
    forall i, 1 <= i <= size h ->
      exists x, rd (arr h) i = Ok x /\ key m <= key x.
Proof.
  intros Hc Hst. destruct (heap_state_inv c h Hc Hst) as (Hsh & Ho & Hcap).
  split; [done|].
  destruct (ExtractMin_ok h Hsh Ho) as (m & h' & E & _ & _ & _ & _ & Hm).
  exists m, h'. split; [done|]. intros i Hi.
  destruct Hm as [Hm _]; [lia|].
  destruct Hsh as (Hsz & _ & Hlen).
  destruct (rd_ex (arr h) i) as (x & Hx & Hrd); [lia|].
  exists x. split; [done|].
  pose proof (heap_root_least h Ho i Hi) as Hle.
  unfold keyAt in Hle. by rewrite Hm, Hrd in Hle.
Qed.

Lemma example_heap_state : heap_state 3 example_heap.
Proof.
  apply (hs_InsertKey 3
           {| arr := [mkHNode 0 0; mkHNode 1 3; mkHNode 0 5; mkHNode 0 0];
              size := 2; capacity := 3 |} 2 4); [|reflexivity].
  apply (hs_InsertKey 3
           {| arr := [mkHNode 0 0; mkHNode 0 5; mkHNode 0 0; mkHNode 0 0];
              size := 1; capacity := 3 |} 1 3); [|reflexivity].
  apply (hs_InsertKey 3 (Heap_new 3) 0 5); [apply hs_new|reflexivity].
Qed.

Lemma heap_state_min_order_witness :
  (0 <= 3 <= MAX_CAPACITY /\ heap_state 3 example_heap) /\
  (heap_ordered example_heap /\
   exists m h',
     ExtractMin example_heap = Ok (m, h') /\
     forall i, 1 <= i <= size example_heap ->
       exists x, rd (arr example_heap) i = Ok x /\ key m <= key x).
Proof.
  split.
  - split; [unfold MAX_CAPACITY; lia|apply example_heap_state].
  - apply (heap_state_min_order 3 example_heap).
    + unfold MAX_CAPACITY; lia.
    + apply example_heap_state.
Defined.

(** * Fixed graphs *)

(** C2. On the 4-vertex graph with edges (0,1,1), (1,2,2), (0,2,4), (2,3,1)
    added in that order, Prim's algorithm from 0 fills the parent array so
    that the tree edges are 0-1, 1-2, 2-3, of total weight 4. *)
Theorem Prims_fixed_graph (parentBuffer : list Z) (fuel : nat) :
  length parentBuffer = 4%nat -> (6 <= fuel)%nat ->
  exists g pb,
    add_edges (Graph_new 4) [(0,1,1); (1,2,2); (0,2,4); (2,3,1)] = Ok g /\
    PrimsAlgorithm fuel g 0 parentBuffer = Ok pb /\
    tree_edges 0 pb = [(0,1); (1,2); (2,3)] /\
    tree_weight g (tree_edges 0 pb) = Ok 4.
Proof.
  intros Hlen Hfuel.
  destruct parentBuffer as [|a [|b [|c [|d [|]]]]]; try discriminate.
  do 6 (destruct fuel as [|fuel]; [lia|]).
  eexists. eexists. split; [reflexivity|].
  split; [vm_compute; reflexivity|].
  split; vm_compute; reflexivity.
Qed.

Lemma Prims_fixed_graph_witness :
  (length [0; 0; 0; 0] = 4%nat /\ (6 <= 6)%nat) /\
  exists g pb,
    add_edges (Graph_new 4) [(0,1,1); (1,2,2); (0,2,4); (2,3,1)] = Ok g /\
    PrimsAlgorithm 6 g 0 [0; 0; 0; 0] = Ok pb /\
    tree_edges 0 pb = [(0,1); (1,2); (2,3)] /\
    tree_weight g (tree_edges 0 pb) = Ok 4.
Proof.
  split; [split; [reflexivity|lia]|].
  apply (Prims_fixed_graph [0; 0; 0; 0] 6); [reflexivity|lia].
Defined.

(** C4. On the path graph with edges (0,1,1), (1,2,1), (2,3,1) added in
    that order, BFS and DFS from 0 both fill the four buffer cells with
    0, 1, 2, 3. *)
Theorem path_graph_traversals (buffer : list Z) (fuel : nat) :
  length buffer = 4%nat -> (5 <= fuel)%nat ->
  exists g,
    add_edges (Graph_new 4) [(0,1,1); (1,2,1); (2,3,1)] = Ok g /\
    BFS fuel g 0 buffer = Ok ([0; 1; 2; 3], 4) /\
    DFS fuel g 0 buffer = Ok ([0; 1; 2; 3], 4).
Proof.
  intros Hlen Hfuel.
  destruct buffer as [|a [|b [|c [|d [|]]]]]; try discriminate.
  do 5 (destruct fuel as [|fuel]; [lia|]).
  eexists. split; [reflexivity|].
  split; vm_compute; reflexivity.
Qed.

Lemma path_graph_traversals_witness :
  (length [7; 7; 7; 7] = 4%nat /\ (5 <= 5)%nat) /\
  exists g,
    add_edges (Graph_new 4) [(0,1,1); (1,2,1); (2,3,1)] = Ok g /\
    BFS 5 g 0 [7; 7; 7; 7] = Ok ([0; 1; 2; 3], 4) /\
    DFS 5 g 0 [7; 7; 7; 7] = Ok ([0; 1; 2; 3], 4).
Proof.
  split; [split; [reflexivity|lia]|].
  apply (path_graph_traversals [7; 7; 7; 7] 5); [reflexivity|lia].
Defined.

(** * Breadth-first search *)

Lemma discover_spec ns : forall seen q,
  exists fresh,
    (discover ns seen q).2 = q ++ fresh /\
    (forall v, v ∈ (discover ns seen q).1 <-> v ∈ seen \/ v ∈ fresh) /\
    NoDup fresh /\
    (forall v, v ∈ fresh -> (v ∉ seen) /\ v ∈ ns) /\
    (forall v, v ∈ ns -> v ∈ (discover ns seen q).1).
Proof.
  induction ns as [|n ns IH]; intros seen q; simpl.
  - exists []. rewrite app_nil_r. split; [done|]. split; [set_solver|].
    split; [constructor|]. split; set_solver.
  - case_decide as Hin.
    + destruct (IH seen q) as (fresh & Hq & Hseen & Hnd & Hfr & Hns).
      exists fresh. split; [done|]. split; [done|]. split; [done|].
      split; [set_solver|].
      intros v [->|Hv]%elem_of_cons; [|by apply Hns].
      apply Hseen. by left.
    + destruct (IH (n :: seen) (q ++ [n])) as (fresh & Hq & Hseen & Hnd & Hfr & Hns).
      exists (n :: fresh). split; [by rewrite Hq, <- app_assoc|].
      split; [intros v; rewrite Hseen; set_solver|].
      split; [apply NoDup_cons_2; [|done]; intros Hn; apply Hfr in Hn;
              set_solver|].
      split.
      * intros v [->|Hv]%elem_of_cons; [set_solver|].
        apply Hfr in Hv. set_solver.
      * intros v [->|Hv]%elem_of_cons; [|by apply Hns].
        apply Hseen. left. set_solver.
Qed.

Lemma BFS_scan_discover ns : forall visited q seen,
  Forall (fun nd => 0 <= destination nd < Z.of_nat (length visited)) ns ->
  marks visited seen ->
  exists visited',
    BFS_scan ns visited q =
      Ok (visited', (discover (destination <$> ns) seen q).2) /\
    length visited' = length visited /\
    marks visited' (discover (destination <$> ns) seen q).1.
Proof.
  induction ns as [|nd ns IH]; intros visited q seen Hns Hm; simpl.
  - by exists visited.
  - apply Forall_cons_1 in Hns as [Hd Hns]. simpl in Hd.
    destruct (rd_ex visited (destination nd) Hd) as (b & Hb & ->). cbn [bind].
    destruct b; cbn [negb].
    + rewrite decide_True by (apply Hm; split; [lia|done]).
      by apply IH.
    + rewrite decide_False by (intros [_ Hin]%Hm; congruence).
      rewrite wr_ok by done. cbn [bind].
      destruct (IH (<[Z.to_nat (destination nd):=true]> visited)
                  (Queue.enqueue q (destination nd)) (destination nd :: seen))
        as (visited' & E & Hlen & Hm').
      * by rewrite length_insert.
      * intros v. rewrite elem_of_cons, (Hm v).
        destruct (decide (v = destination nd)) as [->|Hne].
        -- rewrite list_lookup_insert_eq by lia.
           split; [intros _; split; [lia|done]|intros _; by left].
        -- destruct (decide (0 <= v)) as [Hv|Hv].
           ++ rewrite list_lookup_insert_ne by lia.
              split; [intros [?|?]; [lia|done]|intros ?; by right].
           ++ split; [intros [?|[? _]]; lia|intros [? _]; lia].
      * exists visited'. rewrite length_insert in Hlen. done.
Qed.

Lemma NoDup_bounded_length (l : list Z) (n : Z) :
  0 <= n -> NoDup l -> (forall v, v ∈ l -> 0 <= v < n) ->
  Z.of_nat (length l) <= n.
Proof.
  intros Hn Hnd Hb.
  assert ((Z.to_nat <$> l) ⊆+ seq 0 (Z.to_nat n)) as Hsub.
  { apply NoDup_submseteq.
    - apply NoDup_fmap_2_strong; [|done].
      intros x y Hx Hy Hxy. apply Hb in Hx, Hy. lia.
    - intros k (v & -> & Hv)%list_elem_of_fmap. apply Hb in Hv.
      apply elem_of_seq. lia. }
  apply submseteq_length in Hsub.
  rewrite length_fmap, length_seq in Hsub. lia.
Qed.

Lemma buffer_write (out buffer0 : list Z) (u : Z) :
  (length out < length buffer0)%nat ->
  <[length out := u]> (out ++ drop (length out) buffer0) =
  (out ++ [u]) ++ drop (length (out ++ [u])) buffer0.
Proof.
  intros Hlt.
  destruct (lookup_lt_is_Some_2 buffer0 (length out) Hlt) as [x Hx].
  rewrite (drop_S _ _ _ Hx).
  replace (length out) with (length out + 0)%nat at 1 by lia.
  rewrite insert_app_r. simpl. rewrite <- app_assoc. simpl.
  rewrite length_app. simpl. by rewrite Nat.add_1_r.
Qed.

Lemma neighbours_edge g u v : v ∈ neighbours g u <-> edge g u v.
Proof.
  unfold neighbours, edge. split.
  - destruct (rd (array g) u) as [adj| |] eqn:E; try (by intros ?%elem_of_nil).
    intros (nd & -> & Hnd)%list_elem_of_fmap. by exists adj, nd.
  - intros (adj & nd & -> & Hnd & <-). apply list_elem_of_fmap. by exists nd.
Qed.

Lemma closed_reachable g start (out : list Z) :
  start ∈ out -> (forall u v, u ∈ out -> edge g u v -> v ∈ out) ->
  forall v, reachable g start v -> v ∈ out.
Proof.
  intros Hs Hcl v Hr. induction Hr as [|x y z Hxy _ IH]; [done|].
  apply IH. by apply (Hcl x).
Qed.

Section BFS_loop.
Variables (g : Graph) (start : Z) (buffer0 : list Z).
Hypothesis Hwf : wf_graph g.
Hypothesis Hbuf : length buffer0 = Z.to_nat (vertices g).

Lemma bfs_inv_step visited u q out seen adj visited' :
  bfs_inv g start visited (u :: q) out seen ->
  rd (array g) u = Ok adj ->
  length visited' = length visited ->
  marks visited' (discover (destination <$> adj) seen q).1 ->
  bfs_inv g start visited' (discover (destination <$> adj) seen q).2
    (out ++ [u]) (discover (destination <$> adj) seen q).1.
Proof.
  intros [Hlen Hm Hseen Hnd Hreach Hcl Hst] Hadj Hlen' Hm'.
  assert (neighbours g u = destination <$> adj) as Hnb
    by (unfold neighbours; by rewrite Hadj).
  destruct (discover_spec (destination <$> adj) seen q)
    as (fresh & Hq & Hs' & Hndf & Hfr & Hns).
  rewrite Hq.
  assert (forall v, v ∈ (out ++ [u]) ++ q ++ fresh <->
                    v ∈ out ++ u :: q \/ v ∈ fresh) as Hmem.
  { intros v. rewrite ?elem_of_app, ?elem_of_cons, ?elem_of_nil. tauto. }
  split.
  - congruence.
  - done.
  - intros v. rewrite Hs', Hmem, Hseen. done.
  - rewrite <- app_assoc. simpl.
    replace (out ++ u :: q ++ fresh) with ((out ++ u :: q) ++ fresh)
      by (by rewrite <- app_assoc).
    apply list.NoDup_app. split; [done|]. split; [|done].
    intros v Hv Hf. apply Hfr in Hf as [Hf _]. by apply Hf, Hseen.
  - intros v [Hv|Hv]%Hmem; [by apply Hreach|].
    apply Hfr in Hv as [_ Hv]. rewrite <- Hnb in Hv.
    apply neighbours_edge in Hv.
    destruct Hv as (adj' & nd & Hrd & Hin & Hd). split.
    + rewrite Hadj in Hrd. injection Hrd as <-.
      destruct Hwf as [_ _ _ _ Hdest].
      apply rd_Ok_inv in Hadj as [_ Hadj].
      pose proof (Forall_lookup_1 _ _ _ _ Hdest Hadj) as Hall.
      rewrite list.Forall_forall in Hall. rewrite <- Hd. by apply Hall.
    + destruct (Hreach u) as [_ Hru]; [set_solver|].
      eapply rtc_r; [exact Hru|]. exists adj', nd. auto.
  - intros x v [Hx|Hx%list_elem_of_singleton]%elem_of_app He; apply Hmem.
    + left. by apply (Hcl x).
    + subst x. apply neighbours_edge in He. rewrite Hnb in He.
      apply Hns, Hs' in He as [He|He]; [left; by apply Hseen|by right].
  - apply Hmem. by left.
Qed.

Lemma BFS_loop_spec fuel : forall visited q out seen,
  bfs_inv g start visited q out seen ->
  (Z.to_nat (vertices g) - length out < fuel)%nat ->
  exists rest,
    BFS_loop fuel g visited q (out ++ drop (length out) buffer0)
      (Z.of_nat (length out)) =
      Ok ((out ++ rest) ++ drop (length (out ++ rest)) buffer0,
          Z.of_nat (length (out ++ rest))) /\
    NoDup (out ++ rest) /\
    (forall v, v ∈ out ++ rest <-> reachable g start v) /\
    bfs_order g seen q rest /\
    (length (out ++ rest) <= Z.to_nat (vertices g))%nat.
Proof.
  induction fuel as [|fuel IH]; intros visited q out seen Hinv Hfuel; [lia|].
  pose proof (wf_vertices g Hwf) as Hn.
  pose proof Hinv as [Hlen Hm Hseen Hnd Hreach Hcl Hst].
  assert (Z.of_nat (length (out ++ q)) <= vertices g) as Hle.
  { apply NoDup_bounded_length; [lia|done|]. intros v Hv. by apply Hreach. }
  destruct q as [|u q]; cbn [BFS_loop Queue.isEmpty].
  - exists []. rewrite !app_nil_r in *. split; [done|].
    split; [done|]. split; [|split; [constructor|lia]].
    intros v. split.
    + intros Hv. by apply Hreach.
    + by apply closed_reachable.
  - rewrite length_app in Hle. simpl in Hle.
    cbn [Queue.getFront Queue.dequeue].
    rewrite wr_ok by (rewrite length_app, length_drop; lia).
    cbn [bind]. rewrite Nat2Z.id, buffer_write by lia.
    destruct (Hreach u) as [Hu _]; [set_solver|].
    destruct (rd_ex (array g) u) as (adj & Hadj & Hrd);
      [rewrite (wf_array g Hwf); lia|].
    rewrite Hrd. cbn [bind]. unfold getHead.
    destruct (BFS_scan_discover adj visited q seen)
      as (visited' & E & Hlen' & Hm'); [|done|].
    { rewrite Hlen.
      eapply list.Forall_impl;
        [apply (Forall_lookup_1 _ _ _ _ (wf_dest g Hwf) Hadj)|].
      simpl. intros nd Hnd'. lia. }
    rewrite E. cbn [bind].
    rewrite add32_1 by (unfold INT_MIN, INT_MAX in *; lia).
    replace (Z.of_nat (length out) + 1) with (Z.of_nat (length (out ++ [u])))
      by (rewrite length_app; simpl; lia).
    destruct (IH visited' (discover (destination <$> adj) seen q).2
                (out ++ [u]) (discover (destination <$> adj) seen q).1)
      as (rest & Hrun & Hnd' & Hall & Hord & Hlenr).
    { by apply (bfs_inv_step visited u q out seen adj visited'). }
    { rewrite length_app. simpl. lia. }
    exists (u :: rest).
    replace (out ++ u :: rest) with ((out ++ [u]) ++ rest)
      by (by rewrite <- app_assoc).
    split; [done|]. split; [done|]. split; [done|]. split; [|done].
    constructor.
    replace (neighbours g u) with (destination <$> adj)
      by (unfold neighbours; by rewrite Hrd).
    done.
Qed.
End BFS_loop.

Lemma example_graph_state : graph_state example_graph.
Proof.
  apply (gs_addEdge (Graph_new 3) 0 1 1); [|reflexivity].
  apply gs_new. unfold INT_MAX. lia.
Qed.

Lemma example_graph_wf : wf_graph example_graph.
Proof. apply graph_state_wf, example_graph_state. Qed.

Lemma bfs_inv_init g start :
  wf_graph g -> 0 <= start < vertices g ->
  exists visited,
    wr (all_false (vertices g)) start true = Ok visited /\
    bfs_inv g start visited [start] [] [start].
Proof.
  intros Hwf Hs. unfold all_false.
  rewrite wr_ok by (rewrite length_replicate; lia).
  eexists. split; [done|]. split.
  - by rewrite length_insert, length_replicate.
  - intros v. rewrite list_elem_of_singleton. split.
    + intros ->. split; [lia|].
      apply list_lookup_insert_eq. rewrite length_replicate. lia.
    + intros [Hv Hl].
      destruct (decide (Z.to_nat start = Z.to_nat v)) as [E|E]; [lia|].
      rewrite list_lookup_insert_ne in Hl by done.
      apply lookup_replicate in Hl as [? _]. done.
  - done.
  - simpl. apply NoDup_singleton.
  - simpl. intros v ->%list_elem_of_singleton. split; [done|]. apply rtc_refl.
  - intros u v Hu. by apply elem_of_nil in Hu.
  - simpl. by apply list_elem_of_singleton.
Qed.

Lemma StronglySorted_lvl_ext (lvl lvl' : Z -> nat) (l : list Z) :
  (forall v, v ∈ l -> lvl' v = lvl v) ->
  StronglySorted (fun x y => (lvl x <= lvl y)%nat) l ->
  StronglySorted (fun x y => (lvl' x <= lvl' y)%nat) l.
Proof.
  induction l as [|a l IH]; intros Heq Hs; [constructor|].
  apply StronglySorted_cons in Hs as [Ha Hs]. apply StronglySorted_cons. split.
  - rewrite list.Forall_forall in Ha |- *. intros y Hy.
    rewrite (Heq a), (Heq y) by set_solver. by apply Ha.
  - apply IH; [|done]. intros v Hv. apply Heq. by right.
Qed.

Lemma StronglySorted_flat (lvl : Z -> nat) (l : list Z) (n : nat) :
  (forall v, v ∈ l -> lvl v = n) ->
  StronglySorted (fun x y => (lvl x <= lvl y)%nat) l.
Proof.
  induction l as [|a l IH]; intros Heq; [constructor|].
  apply StronglySorted_cons. split.
  - rewrite list.Forall_forall. intros y Hy.
    rewrite (Heq a), (Heq y) by set_solver. done.
  - apply IH. intros v Hv. apply Heq. by right.
Qed.

Lemma lvl_inv_step g start lvl out u q0 :
  lvl_inv g start lvl out (u :: q0) ->
  forall seen, (forall v, v ∈ seen <-> v ∈ out ++ u :: q0) ->
  exists lvl',
    lvl_inv g start lvl' (out ++ [u]) (discover (neighbours g u) seen q0).2.
Proof.
  intros [Hpath Hsort Hhead Hedge [Hst Hst0]] seen Hseen.
  destruct (discover_spec (neighbours g u) seen q0)
    as (fresh & -> & Hs' & Hndf & Hfr & Hns).
  set (lvl' := fun v => if decide (v ∈ fresh) then S (lvl u) else lvl v).
  assert (forall v, v ∈ out ++ u :: q0 -> lvl' v = lvl v) as Hold.
  { intros v Hv. unfold lvl'. case_decide as Hf; [|done].
    apply Hfr in Hf as [Hf _]. by apply Hseen in Hv. }
  assert (forall v, v ∈ fresh -> lvl' v = S (lvl u)) as Hnew.
  { intros v Hv. unfold lvl'. by rewrite decide_True. }
  assert (forall v, v ∈ (out ++ [u]) ++ q0 ++ fresh <->
                    v ∈ out ++ u :: q0 \/ v ∈ fresh) as Hmem.
  { intros v. rewrite ?elem_of_app, ?elem_of_cons, ?elem_of_nil. tauto. }
  assert (forall v, v ∈ (out ++ [u]) ++ q0 ++ fresh -> (lvl' v <= lvl u + 1)%nat)
    as Hbound.
  { intros v [Hv|Hv]%Hmem.
    - rewrite (Hold v Hv). by eapply Hhead.
    - rewrite (Hnew v Hv). lia. }
  assert (u ∈ out ++ u :: q0) as Hu by set_solver.
  exists lvl'. split.
  - intros v [Hv|Hv]%Hmem.
    + rewrite (Hold v Hv). by apply Hpath.
    + rewrite (Hnew v Hv). eapply nsteps_r; [by apply Hpath|].
      apply neighbours_edge. by apply Hfr.
  - replace ((out ++ [u]) ++ q0 ++ fresh) with ((out ++ u :: q0) ++ fresh)
      by (rewrite <- !app_assoc; done).
    apply StronglySorted_app. split; [|split].
    + intros x y Hx Hy. rewrite (Hold x Hx), (Hnew y Hy).
      specialize (Hhead u q0 x eq_refl Hx). lia.
    + by apply (StronglySorted_lvl_ext lvl).
    + by apply (StronglySorted_flat _ _ (S (lvl u))).
  - intros h q1 v Hq Hv. specialize (Hbound v Hv).
    assert (lvl u <= lvl' h)%nat; [|lia].
    destruct q0 as [|h0 q0']; simpl in Hq.
    + assert (h ∈ fresh) as Hh by (rewrite Hq; left).
      rewrite (Hnew h Hh). lia.
    + injection Hq as -> _.
      rewrite Hold by set_solver.
      apply StronglySorted_app_1_r, StronglySorted_cons in Hsort as [Hall _].
      rewrite list.Forall_forall in Hall. apply Hall. by left.
  - intros x y [Hx|Hx%list_elem_of_singleton]%elem_of_app He.
    + destruct (Hedge x y Hx He) as [Hy Hle]. split; [apply Hmem; by left|].
      rewrite (Hold y Hy), (Hold x) by set_solver. done.
    + subst x. apply neighbours_edge in He.
      assert (y ∈ (out ++ [u]) ++ q0 ++ fresh) as Hy.
      { apply Hmem. apply Hns, Hs' in He as [He|He]; [left; by apply Hseen|by right]. }
      split; [done|]. rewrite (Hold u Hu). by apply Hbound.
  - split; [apply Hmem; by left|]. by rewrite (Hold start Hst).
Qed.

Lemma bfs_order_levels g start seen q rest :
  bfs_order g seen q rest ->
  forall out lvl,
    (forall v, v ∈ seen <-> v ∈ out ++ q) ->
    lvl_inv g start lvl out q ->
    exists lvl', lvl_inv g start lvl' (out ++ rest) [].
Proof.
  induction 1 as [seen|seen u q rest _ IH]; intros out lvl Hseen Hinv.
  - exists lvl. by rewrite app_nil_r.
  - destruct (lvl_inv_step g start lvl out u q Hinv seen Hseen) as [lvl' Hinv'].
    destruct (IH (out ++ [u]) lvl') as [lvl'' Hfin]; [|done|].
    + intros v.
      destruct (discover_spec (neighbours g u) seen q)
        as (fresh & -> & Hs' & _).
      rewrite Hs', Hseen, ?elem_of_app, ?elem_of_cons, ?elem_of_nil. tauto.
    + exists lvl''. by rewrite <- app_assoc in Hfin.
Qed.

Lemma bfs_traversal_level_order g start out :
  bfs_traversal g start out -> level_order g start out.
Proof.
  intros Hord.
  destruct (bfs_order_levels g start [start] [start] out Hord [] (fun _ => 0%nat))
    as [lvl [Hpath Hsort _ Hedge [Hst Hst0]]]; [done| |].
  { split; simpl.
    - intros v ->%list_elem_of_singleton. constructor.
    - repeat constructor.
    - intros; lia.
    - intros x y Hx. by apply elem_of_nil in Hx.
    - split; [by left|done]. }
  simpl in *. rewrite app_nil_r in *.
  assert (forall k v, nsteps (edge g) k start v -> v ∈ out /\ (lvl v <= k)%nat)
    as Hmin.
  { induction k as [|k IH]; intros v Hk.
    - inversion Hk; subst. split; [done|lia].
    - apply nsteps_inv_r in Hk as (w & Hw & He).
      destruct (IH w Hw) as [Hwin Hwl].
      destruct (Hedge w v Hwin He) as [Hv Hvl]. split; [done|lia]. }
  intros l1 x l2 y l3 k -> Hk.
  exists (lvl x). split; [|apply Hpath; set_solver].
  destruct (Hmin k y Hk) as [_ Hy].
  apply StronglySorted_app_1_r, StronglySorted_cons in Hsort as [Hall _].
  rewrite list.Forall_forall in Hall.
  assert (lvl x <= lvl y)%nat by (apply Hall; set_solver). lia.
Qed.

Lemma BFS_spec g start buffer fuel :
  wf_graph g -> 0 <= start < vertices g ->
  length buffer = Z.to_nat (vertices g) ->
  (Z.to_nat (vertices g) < fuel)%nat ->
  exists out,
    BFS fuel g start buffer =
      Ok (out ++ drop (length out) buffer, Z.of_nat (length out)) /\
    NoDup out /\
    (forall v, v ∈ out <-> reachable g start v) /\
    bfs_traversal g start out /\
    (length out <= length buffer)%nat.
Proof.
  intros Hwf Hs Hbuf Hfuel. unfold BFS.
  destruct (bfs_inv_init g start Hwf Hs) as (visited & -> & Hinv). cbn [bind].
  destruct (BFS_loop_spec g start buffer Hwf Hbuf fuel visited [start] [] [start])
    as (out & Hrun & Hnd & Hall & Hord & Hlen); [done|simpl; lia|].
  simpl in *. rewrite drop_0 in Hrun. exists out. rewrite Hbuf. done.
Qed.

(** C1. BFS from an in-range start writes every vertex reachable from it
    exactly once and nothing else, in the dequeue order of the traversal
    that explores each dequeued vertex's chain front to back (most recently
    added edge first); that order is breadth first: a vertex written earlier
    is never farther from the start than one written later. *)
Theorem BFS_visits_reachable_once g start buffer fuel :
  wf_graph g -> 0 <= start < vertices g ->
  length buffer = Z.to_nat (vertices g) ->
  (Z.to_nat (vertices g) < fuel)%nat ->
  exists out,
    BFS fuel g start buffer =
      Ok (out ++ drop (length out) buffer, Z.of_nat (length out)) /\
    NoDup out /\
    (forall v, v ∈ out <-> reachable g start v) /\
    bfs_traversal g start out /\
    level_order g start out.
Proof.
  intros Hwf Hs Hbuf Hfuel.
  destruct (BFS_spec g start buffer fuel Hwf Hs Hbuf Hfuel)
    as (out & Hrun & Hnd & Hall & Hord & _).
  exists out. do 4 (split; [done|]). by apply bfs_traversal_level_order.
Qed.

Lemma BFS_visits_reachable_once_witness :
  (wf_graph example_graph /\ 0 <= 0 < vertices example_graph /\
   length [7; 8; 9] = Z.to_nat (vertices example_graph) /\
   (Z.to_nat (vertices example_graph) < 4)%nat) /\
  exists out,
    BFS 4 example_graph 0 [7; 8; 9] =
      Ok (out ++ drop (length out) [7; 8; 9], Z.of_nat (length out)) /\
    NoDup out /\
    (forall v, v ∈ out <-> reachable example_graph 0 v) /\
    bfs_traversal example_graph 0 out /\
    level_order example_graph 0 out.
Proof.
  assert (wf_graph example_graph /\ 0 <= 0 < vertices example_graph /\
          length [7; 8; 9] = Z.to_nat (vertices example_graph) /\
          (Z.to_nat (vertices example_graph) < 4)%nat) as H.
  { split; [apply example_graph_wf|]. simpl. lia. }
  split; [exact H|].
  destruct H as (H1 & H2 & H3 & H4).
  exact (BFS_visits_reachable_once example_graph 0 [7; 8; 9] 4 H1 H2 H3 H4).
Defined.

(** C9. BFS writes exactly as many buffer cells as there are vertices
    reachable from the start, and every cell from that count on keeps the
    value it had before the call. *)
Theorem BFS_writes_reachable_count g start buffer fuel :
  wf_graph g -> 0 <= start < vertices g ->
  length buffer = Z.to_nat (vertices g) ->
  (Z.to_nat (vertices g) < fuel)%nat ->
  exists buffer' k,
    BFS fuel g start buffer = Ok (buffer', Z.of_nat k) /\
    (forall l, NoDup l -> (forall v, v ∈ l <-> reachable g start v) ->
       length l = k) /\
    (forall v, reachable g start v -> v ∈ take k buffer') /\
    length buffer' = length buffer /\
    (forall i, (k <= i)%nat -> buffer' !! i = buffer !! i).
Proof.
  intros Hwf Hs Hbuf Hfuel.
  destruct (BFS_spec g start buffer fuel Hwf Hs Hbuf Hfuel)
    as (out & Hrun & Hnd & Hall & _ & Hlen).
  exists (out ++ drop (length out) buffer), (length out).
  split; [done|]. split; [|split; [|split]].
  - intros l Hl Hmem. apply Permutation_length, NoDup_Permutation; [done..|].
    intros v. by rewrite Hmem, Hall.
  - intros v Hv. rewrite take_app_length. by apply Hall.
  - rewrite length_app, length_drop. lia.
  - intros i Hi. rewrite lookup_app_r by done. rewrite lookup_drop.
    f_equal. lia.
Qed.

Lemma BFS_writes_reachable_count_witness :
  (wf_graph example_graph /\ 0 <= 1 < vertices example_graph /\
   length [7; 8; 9] = Z.to_nat (vertices example_graph) /\
   (Z.to_nat (vertices example_graph) < 5)%nat) /\
  exists buffer' k,
    BFS 5 example_graph 1 [7; 8; 9] = Ok (buffer', Z.of_nat k) /\
    (forall l, NoDup l -> (forall v, v ∈ l <-> reachable example_graph 1 v) ->
       length l = k) /\
    (forall v, reachable example_graph 1 v -> v ∈ take k buffer') /\
    length buffer' = length [7; 8; 9] /\
    (forall i, (k <= i)%nat -> buffer' !! i = [7; 8; 9] !! i).
Proof.
  assert (wf_graph example_graph /\ 0 <= 1 < vertices example_graph /\
          length [7; 8; 9] = Z.to_nat (vertices example_graph) /\
          (Z.to_nat (vertices example_graph) < 5)%nat) as H.
  { split; [apply example_graph_wf|]. simpl. lia. }
  split; [exact H|].
  destruct H as (H1 & H2 & H3 & H4).
  exact (BFS_writes_reachable_count example_graph 1 [7; 8; 9] 5 H1 H2 H3 H4).
Defined.

(** * Depth-first search *)

Lemma DFS_scan_spec adj : forall visited s,
  Forall (fun nd => 0 <= destination nd < Z.of_nat (length visited)) adj ->
  exists pushed,
    DFS_scan adj visited s = Ok (pushed ++ s) /\
    (length pushed <= length adj)%nat /\
    (forall v, v ∈ pushed ->
       0 <= v < Z.of_nat (length visited) /\ rd visited v = Ok false).
Proof.
  induction adj as [|nd adj IH]; intros visited s Hadj; simpl.
  - exists []. split; [done|]. split; [done|]. by intros v ?%elem_of_nil.
  - apply Forall_cons_1 in Hadj as [Hd Hadj]. simpl in Hd.
    destruct (rd_ex visited (destination nd) Hd) as (b & Hb & Hrd).
    rewrite Hrd. cbn [bind]. destruct b; cbn [negb].
    + destruct (IH visited s Hadj) as (pushed & -> & Hlen & Hp).
      exists pushed. split; [done|]. split; [lia|done].
    + destruct (IH visited (Stack.push s (destination nd)) Hadj)
        as (pushed & -> & Hlen & Hp).
      exists (pushed ++ [destination nd]). unfold Stack.push.
      split; [by rewrite <- app_assoc|]. split; [rewrite length_app; simpl; lia|].
      intros v [Hv| ->%list_elem_of_singleton]%elem_of_app; [by apply Hp|done].
Qed.

Lemma top_unvisited_pushed visited (pushed s : list Z) :
  pushed <> [] ->
  (forall v, v ∈ pushed -> rd visited v = Ok false) ->
  top_unvisited visited (pushed ++ s) = true.
Proof.
  intros Hne Hp. destruct pushed as [|v pushed]; [done|]. simpl.
  by rewrite (Hp v) by apply list_elem_of_here.
Qed.

Lemma max_degree_bound g i adj :
  array g !! i = Some adj -> (length adj <= max_degree g)%nat.
Proof.
  intros Hadj. apply max_list_elem_of_le, list_elem_of_fmap.
  exists adj. split; [done|]. by eapply list_elem_of_lookup_2.
Qed.

Lemma marks_insert visited out u :
  marks visited out -> 0 <= u < Z.of_nat (length visited) ->
  marks (<[Z.to_nat u := true]> visited) (out ++ [u]).
Proof.
  intros Hm Hu v. rewrite elem_of_app, list_elem_of_singleton, (Hm v).
  destruct (decide (v = u)) as [->|Hne].
  - rewrite list_lookup_insert_eq by lia.
    split; [intros _; split; [lia|done]|intros _; by right].
  - destruct (decide (0 <= v)) as [Hv|Hv].
    + rewrite list_lookup_insert_ne by lia.
      split; [intros [?|?]; [done|lia]|intros ?; by left].
    + split; [intros [[? _]|?]; lia|intros [? _]; lia].
Qed.

Section DFS_loop.
Variables (g : Graph) (buffer0 : list Z).
Hypothesis Hwf : wf_graph g.
Hypothesis Hbuf : length buffer0 = Z.to_nat (vertices g).

Lemma dfs_inv_written visited s out :
  dfs_inv g visited s out ->
  (forall v, v ∈ out -> 0 <= v < vertices g) /\
  Z.of_nat (length out) <= vertices g.
Proof.
  intros [Hlen Hm Hnd Hst].
  assert (forall v, v ∈ out -> 0 <= v < vertices g) as Hr.
  { intros v [Hv Hl]%Hm. apply lookup_lt_Some in Hl. lia. }
  split; [done|].
  apply NoDup_bounded_length; [apply (wf_vertices g Hwf)|done|done].
Qed.

Lemma DFS_body_spec visited u s out :
  dfs_inv g visited (u :: s) out ->
  exists visited' s' out',
    DFS_body g visited (u :: s) (out ++ drop (length out) buffer0)
      (Z.of_nat (length out)) =
      Ok (visited', s', out' ++ drop (length out') buffer0,
          Z.of_nat (length out')) /\
    dfs_inv g visited' s' out' /\
    (exists new, out' = out ++ new) /\
    (dfs_potential g visited' s' (length out') <
     dfs_potential g visited (u :: s) (length out))%nat.
Proof.
  intros Hinv. pose proof Hinv as [Hlen Hm Hnd Hst].
  pose proof (wf_vertices g Hwf) as Hn.
  destruct (dfs_inv_written _ _ _ Hinv) as [Hr Hle].
  assert (0 <= u < vertices g) as Hu by (apply Hst; left).
  unfold DFS_body. cbn [Stack.top Stack.pop].
  destruct (rd_ex visited u) as (b & Hb & Hrd); [lia|]. rewrite Hrd. cbn [bind].
  destruct (rd_ex (array g) u) as (adj & Hadj & Hrda);
    [rewrite (wf_array g Hwf); lia|].
  pose proof (max_degree_bound g _ adj Hadj) as Hdeg.
  assert (forall vis : list bool, length vis = length visited ->
            Forall (fun nd => 0 <= destination nd < Z.of_nat (length vis)) adj)
    as Hdest.
  { intros vis ->. rewrite Hlen.
    eapply list.Forall_impl;
      [apply (Forall_lookup_1 _ _ _ _ (wf_dest g Hwf) Hadj)|].
    simpl. intros nd Hnd'. lia. }
  unfold dfs_potential. cbn [top_unvisited]. rewrite Hrd.
  set (c := (2 * max_degree g + 3)%nat).
  destruct b; cbn [negb bind].
  - rewrite Hrda. cbn [bind]. unfold getHead.
    destruct (DFS_scan_spec adj visited s (Hdest visited eq_refl))
      as (pushed & -> & Hpl & Hp). cbn [bind].
    exists visited, (pushed ++ s), out. split; [done|]. split; [|split].
    + split; [done..|]. intros v [Hv|Hv]%elem_of_app.
      * apply Hp in Hv as [Hv _]. lia.
      * apply Hst. by right.
    + exists []. by rewrite app_nil_r.
    + rewrite length_app. simpl.
      destruct pushed as [|p pushed].
      * simpl. destruct (top_unvisited visited s); unfold c; lia.
      * rewrite top_unvisited_pushed
          by (try done; intros v Hv; by apply Hp in Hv as [_ Hv]).
        simpl in Hpl |- *. unfold c. lia.
  - assert (u ∉ out) as Hnotin by (intros [_ Hl]%Hm; congruence).
    assert (NoDup (out ++ [u])) as Hnd'.
    { apply list.NoDup_app. split; [done|]. split; [|apply NoDup_singleton].
      intros v Hv ->%list_elem_of_singleton. done. }
    assert (Z.of_nat (length (out ++ [u])) <= vertices g) as Hle'.
    { apply NoDup_bounded_length; [lia|done|].
      intros v [Hv| ->%list_elem_of_singleton]%elem_of_app; [by apply Hr|done]. }
    rewrite length_app in Hle'. simpl in Hle'.
    rewrite wr_ok by (rewrite length_app, length_drop; lia). cbn [bind].
    rewrite wr_ok by lia. cbn [bind].
    rewrite Nat2Z.id, buffer_write by lia.
    rewrite add32_1 by (unfold INT_MIN, INT_MAX in *; lia).
    replace (Z.of_nat (length out) + 1) with (Z.of_nat (length (out ++ [u])))
      by (rewrite length_app; simpl; lia).
    rewrite Hrda. cbn [bind]. unfold getHead.
    destruct (DFS_scan_spec adj (<[Z.to_nat u:=true]> visited) s)
      as (pushed & -> & Hpl & Hp); [apply Hdest; by rewrite length_insert|].
    cbn [bind]. rewrite length_insert in Hp.
    exists (<[Z.to_nat u:=true]> visited), (pushed ++ s), (out ++ [u]).
    split; [done|]. split; [|split].
    + split.
      * by rewrite length_insert.
      * apply marks_insert; [done|lia].
      * done.
      * intros v [Hv|Hv]%elem_of_app.
        -- apply Hp in Hv as [Hv _]. lia.
        -- apply Hst. by right.
    + by exists [u].
    + rewrite !length_app. simpl.
      assert ((Z.to_nat (vertices g) - (length out + 1)) * c + c =
              (Z.to_nat (vertices g) - length out) * c)%nat as <-.
      { replace (Z.to_nat (vertices g) - length out)%nat
          with (S (Z.to_nat (vertices g) - (length out + 1))) by lia.
        simpl. lia. }
      destruct (top_unvisited _ (pushed ++ s)); unfold c; lia.
Qed.

Lemma DFS_loop_spec fuel : forall visited s out,
  dfs_inv g visited s out ->
  (dfs_potential g visited s (length out) < fuel)%nat ->
  exists rest,
    DFS_loop fuel g visited s (out ++ drop (length out) buffer0)
      (Z.of_nat (length out)) =
      Ok ((out ++ rest) ++ drop (length (out ++ rest)) buffer0,
          Z.of_nat (length (out ++ rest))) /\
    NoDup (out ++ rest) /\
    (forall v, v ∈ out ++ rest -> 0 <= v < vertices g) /\
    Z.of_nat (length (out ++ rest)) <= vertices g.
Proof.
  induction fuel as [|fuel IH]; intros visited s out Hinv Hfuel; [lia|].
  destruct s as [|u s]; cbn [DFS_loop Stack.isEmpty].
  - exists []. rewrite !app_nil_r. split; [done|].
    destruct (dfs_inv_written _ _ _ Hinv) as [Hr Hle].
    split; [apply (di_nodup _ _ _ _ Hinv)|done].
  - destruct (DFS_body_spec visited u s out Hinv)
      as (visited' & s' & out' & -> & Hinv' & [new ->] & Hpot).
    cbn [bind].
    destruct (IH visited' s' (out ++ new) Hinv') as (rest & Hrun & Hres); [lia|].
    exists (new ++ rest). rewrite !app_assoc. done.
Qed.
End DFS_loop.

Lemma triangle_graph_built :
  add_edges (Graph_new 3) [(0,1,1); (0,2,1); (1,2,1)] = Ok triangle_graph.
Proof. reflexivity. Qed.

Lemma dfs_inv_init g start :
  wf_graph g -> 0 <= start < vertices g ->
  dfs_inv g (all_false (vertices g)) [start] [] /\
  (dfs_potential g (all_false (vertices g)) [start] 0 < dfs_fuel g)%nat.
Proof.
  intros Hwf Hs. unfold all_false. split.
  - split.
    + by rewrite length_replicate.
    + intros v. split; [by intros ?%elem_of_nil|].
      intros [_ [? _]%lookup_replicate]. done.
    + constructor.
    + by intros v ->%list_elem_of_singleton.
  - unfold dfs_potential, dfs_fuel. cbn [top_unvisited].
    rewrite (rd_Some _ start false); [simpl; lia|lia|].
    apply lookup_replicate_2. lia.
Qed.

(** C10. DFS from an in-range start writes no vertex twice: the written
    cells are duplicate free, hold vertex ids, number at most [vertices],
    and no write falls outside the buffer.  The same unvisited vertex can
    still sit on the stack twice: on the triangle graph, after two passes of
    the loop, the stack holds vertex 2 twice and vertex 2 is unvisited. *)
Theorem DFS_writes_each_vertex_once g start buffer fuel :
  wf_graph g -> 0 <= start < vertices g ->
  length buffer = Z.to_nat (vertices g) ->
  (dfs_fuel g <= fuel)%nat ->
  (exists out,
     DFS fuel g start buffer =
       Ok (out ++ drop (length out) buffer, Z.of_nat (length out)) /\
     NoDup out /\
     (forall v, v ∈ out -> 0 <= v < vertices g) /\
     Z.of_nat (length out) <= vertices g) /\
  (exists visited buffer' count,
     (do ' (v, s, b, c) <-
        DFS_body triangle_graph (all_false 3) (Stack.push Stack.empty 0)
          [0; 0; 0] 0 ;;
      DFS_body triangle_graph v s b c) = Ok (visited, [2; 2], buffer', count) /\
     rd visited 2 = Ok false).
Proof.
  intros Hwf Hs Hbuf Hfuel. split.
  - destruct (dfs_inv_init g start Hwf Hs) as [Hinv Hpot]. unfold DFS.
    destruct (DFS_loop_spec g buffer Hwf Hbuf fuel (all_false (vertices g))
                [start] [] Hinv) as (out & Hrun & Hres); [simpl; lia|].
    simpl in Hrun, Hres. rewrite drop_0 in Hrun. by exists out.
  - by exists [true; true; false], [0; 1; 0], 2.
Qed.

Lemma DFS_writes_each_vertex_once_witness :
  (wf_graph example_graph /\ 0 <= 0 < vertices example_graph /\
   length [7; 8; 9] = Z.to_nat (vertices example_graph) /\
   (dfs_fuel example_graph <= 20)%nat) /\
  (exists out,
     DFS 20 example_graph 0 [7; 8; 9] =
       Ok (out ++ drop (length out) [7; 8; 9], Z.of_nat (length out)) /\
     NoDup out /\
     (forall v, v ∈ out -> 0 <= v < vertices example_graph) /\
     Z.of_nat (length out) <= vertices example_graph) /\
  (exists visited buffer' count,
     (do ' (v, s, b, c) <-
        DFS_body triangle_graph (all_false 3) (Stack.push Stack.empty 0)
          [0; 0; 0] 0 ;;
      DFS_body triangle_graph v s b c) = Ok (visited, [2; 2], buffer', count) /\
     rd visited 2 = Ok false).
Proof.
  assert (wf_graph example_graph /\ 0 <= 0 < vertices example_graph /\
          length [7; 8; 9] = Z.to_nat (vertices example_graph) /\
          (dfs_fuel example_graph <= 20)%nat) as H.
  { split; [apply example_graph_wf|]. split; [simpl; lia|].
    split; [reflexivity|]. vm_compute. lia. }
  split; [exact H|].
  destruct H as (H1 & H2 & H3 & H4).
  exact (DFS_writes_each_vertex_once example_graph 0 [7; 8; 9] 20 H1 H2 H3 H4).
Defined.

(** * Dijkstra on a fixed graph of any size *)

Lemma for_up_fill (x : Z) (buf : list Z) : forall pre,
  for_up (Z.of_nat (length pre)) (length buf) (fun i b => wr b i x) (pre ++ buf) =
  Ok (pre ++ replicate (length buf) x).
Proof.
  induction buf as [|y buf IH]; intros pre; simpl.
  - done.
  - rewrite wr_ok by (rewrite length_app; simpl; lia). cbn [bind].
    rewrite Nat2Z.id.
    replace (length pre) with (length pre + 0)%nat at 2 by lia.
    rewrite insert_app_r. simpl.
    replace (Z.of_nat (length pre) + 1) with (Z.of_nat (length (pre ++ [x])))
      by (rewrite length_app; simpl; lia).
    replace (pre ++ x :: buf) with ((pre ++ [x]) ++ buf)
      by (by rewrite <- app_assoc).
    rewrite IH. by rewrite <- app_assoc.
Qed.

Lemma InsertKey_room h v k :
  size h < capacity h ->
  InsertKey h v k =
    (do a <- wr (arr h) (add32 (size h) 1) (mkHNode v k) ;;
     percolateUp (Z.to_nat (add32 (size h) 1))
       {| arr := a; size := add32 (size h) 1; capacity := capacity h |}
       (add32 (size h) 1)).
Proof.
  intros H. unfold InsertKey.
  destruct (Z.geb_spec (size h) (capacity h)); [lia|done].
Qed.

(** Evaluate the innermost [wrap32] applied to a closed number. *)
Ltac eval_wrap32 :=
  match goal with
  | |- context [wrap32 ?z] =>
      lazymatch z with
      | context [wrap32 _] => fail
      | _ => let r := eval vm_compute in (wrap32 z) in
             change (wrap32 z) with r
      end
  end.

(** Run the heap code on arrays whose first cells are known. *)
Ltac run_heap :=
  repeat (first [ rewrite InsertKey_room by (simpl; lia)
                | progress (unfold add32, sub32, mul32)
                | eval_wrap32 ];
          simpl).

(** C3. On a fresh graph of at least 3 vertices with edges (0,1,4), (0,2,1),
    (2,1,1), Dijkstra's algorithm from 0 leaves 2 in cell 1 of the distance
    buffer: the path through vertex 2, not the direct edge of weight 4. *)
Theorem Dijkstra_fixed_graph (n : Z) (distBuffer : list Z) (fuel : nat) :
  3 <= n <= MAX_VERTICES -> length distBuffer = Z.to_nat n -> (5 <= fuel)%nat ->
  exists g dist,
    add_edges (Graph_new n) [(0,1,4); (0,2,1); (2,1,1)] = Ok g /\
    DijkstraAlgorithm fuel g 0 distBuffer = Ok dist /\
    rd dist 1 = Ok 2.
Proof.
  unfold MAX_VERTICES. intros Hn Hlen Hfuel.
  do 5 (destruct fuel as [|fuel]; [lia|]).
  assert (exists m, Z.to_nat n = S (S (S m))) as [m Hm]
    by (exists (Z.to_nat n - 3)%nat; lia).
  assert (forall u, 0 <= u <= 2 -> (u <? n) = true) as Hlt
    by (intros u Hu; apply Z.ltb_lt; lia).
  assert (exists mat tl,
            add_edges (Graph_new n) [(0,1,4); (0,2,1); (2,1,1)] =
            Ok {| vertices := n;
                  array := [mkNode 2 1; mkNode 1 4] :: [mkNode 2 1; mkNode 0 4]
                           :: [mkNode 1 1; mkNode 0 1] :: tl;
                  AdjMat := mat |}) as (mat & tl & HG).
  { unfold add_edges, addEdge, Graph_new. rewrite Hm.
    repeat (rewrite ?Hlt by (simpl; lia); simpl).
    eexists. eexists. reflexivity. }
  eexists. exists (0 :: 2 :: 1 :: replicate m INT_MAX).
  split; [exact HG|]. split; [|done].
  unfold DijkstraAlgorithm. cbn [vertices].
  pose proof (for_up_fill INT_MAX distBuffer []) as Hfill. simpl in Hfill.
  change (Z.of_nat 0) with 0 in Hfill.
  rewrite Hlen in Hfill. rewrite Hfill, Hm.
  assert (mul32 n n = n * n) as ->.
  { unfold mul32. apply wrap32_id. unfold INT_MIN, INT_MAX. nia. }
  assert (9 <= n * n <= 2147395600) as HC by nia.
  generalize dependent (n * n). intros C HC.
  unfold Heap_new. rewrite add32_1 by (unfold INT_MIN, INT_MAX; lia).
  assert (exists k, Z.to_nat (C + 1) = S (S (S (S k)))) as [k ->]
    by (exists (Z.to_nat (C + 1) - 4)%nat; lia).
  run_heap. reflexivity.
Qed.

Lemma Dijkstra_fixed_graph_witness :
  (3 <= 3 <= MAX_VERTICES /\ length [7; 7; 7] = Z.to_nat 3 /\ (5 <= 5)%nat) /\
  exists g dist,
    add_edges (Graph_new 3) [(0,1,4); (0,2,1); (2,1,1)] = Ok g /\
    DijkstraAlgorithm 5 g 0 [7; 7; 7] = Ok dist /\
    rd dist 1 = Ok 2.
Proof.
  assert (3 <= 3 <= MAX_VERTICES /\ length [7; 7; 7] = Z.to_nat 3 /\
          (5 <= 5)%nat) as H.
  { unfold MAX_VERTICES. split; [lia|]. split; [reflexivity|lia]. }
  split; [exact H|]. destruct H as (H1 & H2 & H3).
  exact (Dijkstra_fixed_graph 3 [7; 7; 7] 5 H1 H2 H3).
Defined.

(** * Further properties of the containers *)

(** X1. A stack gives back what was pushed, last pushed first; once it is
    empty, [top] reads 0 and [pop] does nothing. *)
Theorem stack_lifo (vs : list Z) (s : Stack.t) (n : nat) :
  stack_drain (length vs) (foldl Stack.push s vs) = (reverse vs, s) /\
  stack_drain (length vs + n) (foldl Stack.push Stack.empty vs) =
    (reverse vs ++ replicate n 0, Stack.empty).
Proof.
  unfold Stack.empty.
  assert (forall k, stack_drain k [] = (replicate k 0, [])) as Hempty.
  { induction k as [|k IH]; [done|]. simpl. by rewrite IH. }
  assert (forall (l : list Z) s k,
            stack_drain (length l + k) (l ++ s) =
            (l ++ (stack_drain k s).1, (stack_drain k s).2)) as Happ.
  { induction l as [|a l IH]; intros s0 k; simpl.
    - by destruct (stack_drain k s0).
    - by rewrite IH. }
  assert (forall (l : list Z) s, foldl Stack.push s l = reverse l ++ s) as Hpush.
  { induction l as [|a l IH]; intros s0; simpl; [done|].
    rewrite IH, reverse_cons, <- app_assoc. done. }
  split.
  - rewrite Hpush. rewrite <- (length_reverse vs).
    replace (length (reverse vs)) with (length (reverse vs) + 0)%nat by lia.
    rewrite Happ. simpl. by rewrite app_nil_r.
  - rewrite Hpush, app_nil_r. rewrite <- (length_reverse vs).
    rewrite <- (app_nil_r (reverse vs)) at 2.
    rewrite Happ, Hempty. done.
Qed.

(** X2. A queue gives back what was enqueued, in the order of arrival, after
    what it already held; once it is empty, [getFront] reads 0 and [dequeue]
    does nothing. *)
Theorem queue_fifo (vs : list Z) (q : Queue.t) (n : nat) :
  queue_drain (length q + length vs) (foldl Queue.enqueue q vs) =
    (q ++ vs, Queue.empty) /\
  queue_drain (length vs + n) (foldl Queue.enqueue Queue.empty vs) =
    (vs ++ replicate n 0, Queue.empty).
Proof.
  unfold Queue.empty.
  assert (forall k, queue_drain k [] = (replicate k 0, [])) as Hempty.
  { induction k as [|k IH]; [done|]. simpl. by rewrite IH. }
  assert (forall (l : list Z) k,
            queue_drain (length l + k) l = (l ++ replicate k 0, [])) as Hall.
  { induction l as [|a l IH]; intros k; simpl.
    - apply Hempty.
    - by rewrite IH. }
  assert (forall (l : list Z) q0, foldl Queue.enqueue q0 l = q0 ++ l) as Henq.
  { induction l as [|a l IH]; intros q0; simpl; [by rewrite app_nil_r|].
    unfold Queue.enqueue at 2. rewrite IH, <- app_assoc. done. }
  split.
  - rewrite Henq. rewrite <- length_app.
    replace (length (q ++ vs)) with (length (q ++ vs) + 0)%nat by lia.
    rewrite Hall. simpl. by rewrite app_nil_r.
  - rewrite Henq. simpl. apply Hall.
Qed.

(** * Further properties of the graph *)

Lemma addEdge_cases g u v w g' :
  wf_graph g -> addEdge g u v w = Ok g' ->
  (~ (0 <= u < vertices g /\ 0 <= v < vertices g) /\ g' = g) \/
  ((0 <= u < vertices g /\ 0 <= v < vertices g) /\
   exists lu lv ru rv,
     array g !! Z.to_nat u = Some lu /\
     <[Z.to_nat u := AddEdge lu v w]> (array g) !! Z.to_nat v = Some lv /\
     AdjMat g !! Z.to_nat u = Some ru /\
     <[Z.to_nat u := <[Z.to_nat v := w]> ru]> (AdjMat g) !! Z.to_nat v = Some rv /\
     g' = {| vertices := vertices g;
             array := <[Z.to_nat v := AddEdge lv u w]>
                        (<[Z.to_nat u := AddEdge lu v w]> (array g));
             AdjMat := <[Z.to_nat v := <[Z.to_nat u := w]> rv]>
                         (<[Z.to_nat u := <[Z.to_nat v := w]> ru]> (AdjMat g)) |}).
Proof.
  intros Hwf H.
  destruct (decide (0 <= u < vertices g /\ 0 <= v < vertices g)) as [[Hu Hv]|Hn].
  - right. split; [done|].
    destruct (addEdge_in_range g u v w Hwf Hu Hv)
      as (lu & lv & ru & rv & Hlu & Hlv & Hru & Hrv & E).
    rewrite E in H. injection H as <-. by exists lu, lv, ru, rv.
  - left. split; [done|]. unfold addEdge in H.
    destruct (Z.leb_spec 0 u), (Z.ltb_spec u (vertices g)),
      (Z.leb_spec 0 v), (Z.ltb_spec v (vertices g));
      cbn [andb] in H; try (by injection H as <-); lia.
Qed.

Lemma addEdge_effect g u v w :
  wf_graph g -> 0 <= u < vertices g -> 0 <= v < vertices g ->
  exists g',
    addEdge g u v w = Ok g' /\
    vertices g' = vertices g /\
    (forall x adj, rd (array g) x = Ok adj ->
       rd (array g') x =
         Ok ((if decide (x = v) then [mkNode u w] else []) ++
             (if decide (x = u) then [mkNode v w] else []) ++ adj)) /\
    (forall i j x, edge_weight g (i, j) = Ok x ->
       edge_weight g' (i, j) =
         Ok (if decide ((i = u /\ j = v) \/ (i = v /\ j = u)) then w else x)).
Proof.
  intros Hwf Hu Hv.
  destruct (addEdge_in_range g u v w Hwf Hu Hv)
    as (lu & lv & ru & rv & Hlu & Hlv & Hru & Hrv & E).
  pose proof Hwf as [Hn Ha Hr Hc Hd].
  eexists. split; [exact E|]. split; [done|]. simpl. split.
  - intros x adj [Hx Hadj]%rd_Ok_inv.
    apply rd_Some; [lia|].
    destruct (decide (x = v)) as [->|Hxv].
    + rewrite list_lookup_insert_eq by (rewrite length_insert; lia).
      f_equal. unfold AddEdge. simpl. f_equal.
      destruct (decide (v = u)) as [->|Hvu].
      * rewrite list_lookup_insert_eq in Hlv by lia. injection Hlv as <-.
        unfold AddEdge. simpl. congruence.
      * rewrite list_lookup_insert_ne in Hlv by lia. simpl. congruence.
    + rewrite list_lookup_insert_ne by lia.
      destruct (decide (x = u)) as [->|Hxu].
      * rewrite list_lookup_insert_eq by lia. simpl. unfold AddEdge. congruence.
      * rewrite list_lookup_insert_ne by lia. done.
  - intros i j x Hx. unfold edge_weight in *. simpl in *.
    apply bind_Ok_inv in Hx as (row & [Hi Hrow]%rd_Ok_inv & [Hj Hcell]%rd_Ok_inv).
    assert (length ru = Z.to_nat (vertices g)) as Hlru
      by (eapply (Forall_lookup_1 _ _ _ _ Hc Hru)).
    destruct (decide (i = v)) as [->|Hiv].
    + rewrite (rd_Some _ v (<[Z.to_nat u:=w]> rv));
        [|lia|apply list_lookup_insert_eq; rewrite length_insert; lia].
      cbn [bind].
      destruct (decide (v = u)) as [->|Hvu].
      * rewrite list_lookup_insert_eq in Hrv by lia. injection Hrv as <-.
        assert (row = ru) as -> by congruence.
        destruct (decide (j = u)) as [->|Hju].
        -- rewrite decide_True by lia. apply rd_Some; [lia|].
           apply list_lookup_insert_eq. rewrite length_insert. lia.
        -- rewrite decide_False by lia. apply rd_Some; [lia|].
           rewrite !list_lookup_insert_ne by lia. done.
      * rewrite list_lookup_insert_ne in Hrv by lia.
        assert (row = rv) as -> by congruence.
        destruct (decide (j = u)) as [->|Hju].
        -- rewrite decide_True by lia. apply rd_Some; [lia|].
           apply list_lookup_insert_eq.
           rewrite (Forall_lookup_1 _ _ _ _ Hc Hrv). lia.
        -- rewrite decide_False by lia. apply rd_Some; [lia|].
           rewrite list_lookup_insert_ne by lia. done.
    + destruct (decide (i = u)) as [->|Hiu].
      * rewrite (rd_Some _ u (<[Z.to_nat v:=w]> ru));
          [|lia|rewrite list_lookup_insert_ne by lia;
                apply list_lookup_insert_eq; lia].
        cbn [bind]. assert (row = ru) as -> by congruence.
        destruct (decide (j = v)) as [->|Hjv].
        -- rewrite decide_True by lia. apply rd_Some; [lia|].
           apply list_lookup_insert_eq. lia.
        -- rewrite decide_False by lia. apply rd_Some; [lia|].
           rewrite list_lookup_insert_ne by lia. done.
      * rewrite (rd_Some _ i row); [|lia|by rewrite !list_lookup_insert_ne by lia].
        cbn [bind]. rewrite decide_False by lia. apply rd_Some; [lia|done].
Qed.

(** X3. [addEdge] only adds: with both ends in range, the chain of every
    vertex is its old chain behind the new records (one for an end point, two
    for a self-loop), the matrix changes in the cells [u][v] and [v][u] only,
    and the vertex count stays. *)
Theorem addEdge_frame g u v w :
  wf_graph g -> 0 <= u < vertices g -> 0 <= v < vertices g ->
  exists g',
    addEdge g u v w = Ok g' /\
    vertices g' = vertices g /\
    (forall x adj, rd (array g) x = Ok adj ->
       rd (array g') x =
         Ok ((if decide (x = v) then [mkNode u w] else []) ++
             (if decide (x = u) then [mkNode v w] else []) ++ adj)) /\
    (forall i j x, edge_weight g (i, j) = Ok x ->
       edge_weight g' (i, j) =
         Ok (if decide ((i = u /\ j = v) \/ (i = v /\ j = u)) then w else x)).
Proof. apply addEdge_effect. Qed.

Lemma addEdge_frame_witness :
  (wf_graph example_graph /\ 0 <= 1 < vertices example_graph /\
   0 <= 2 < vertices example_graph) /\
  exists g',
    addEdge example_graph 1 2 5 = Ok g' /\
    vertices g' = vertices example_graph /\
    (forall x adj, rd (array example_graph) x = Ok adj ->
       rd (array g') x =
         Ok ((if decide (x = 2) then [mkNode 1 5] else []) ++
             (if decide (x = 1) then [mkNode 2 5] else []) ++ adj)) /\
    (forall i j x, edge_weight example_graph (i, j) = Ok x ->
       edge_weight g' (i, j) =
         Ok (if decide ((i = 1 /\ j = 2) \/ (i = 2 /\ j = 1)) then 5 else x)).
Proof.
  assert (wf_graph example_graph /\ 0 <= 1 < vertices example_graph /\
          0 <= 2 < vertices example_graph) as H.
  { split; [apply example_graph_wf|simpl; lia]. }
  split; [exact H|]. destruct H as (H1 & H2 & H3).
  exact (addEdge_frame example_graph 1 2 5 H1 H2 H3).
Defined.

Lemma latest_weight_cons nd adj y :
  latest_weight (nd :: adj) y =
  if decide (destination nd = y) then weight nd else latest_weight adj y.
Proof.
  unfold latest_weight. simpl. case_decide; [done|].
  by destruct (list_find _ adj) as [[i x]|].
Qed.

Lemma edge_weight_in_range g x y :
  wf_graph g -> 0 <= x < vertices g -> 0 <= y < vertices g ->
  exists c, edge_weight g (x, y) = Ok c.
Proof.
  intros [Hn Ha Hr Hc Hd] Hx Hy. unfold edge_weight. simpl.
  destruct (rd_ex (AdjMat g) x) as (row & Hrow & ->); [lia|]. cbn [bind].
  destruct (rd_ex row y) as (c & _ & ->);
    [rewrite (Forall_lookup_1 _ _ _ _ Hc Hrow); lia|]. by exists c.
Qed.

Lemma graph_state_undirected g :
  graph_state g ->
  (forall x y c ax ay, rd (array g) x = Ok ax -> rd (array g) y = Ok ay ->
     (mkNode y c ∈ ax <-> mkNode x c ∈ ay)) /\
  (forall x y ax, rd (array g) x = Ok ax -> 0 <= y < vertices g ->
     edge_weight g (x, y) = Ok (latest_weight ax y)) /\
  (forall x y, 0 <= x < vertices g -> 0 <= y < vertices g ->
     edge_weight g (x, y) = edge_weight g (y, x)).
Proof.
  induction 1 as [n Hn|g u v w g' Hst IH E].
  - split; [|split].
    + intros x y c ax ay [_ [-> _]%lookup_replicate]%rd_Ok_inv
        [_ [-> _]%lookup_replicate]%rd_Ok_inv.
      split; by intros ?%elem_of_nil.
    + simpl. intros x y ax [Hx [-> Hlt]%lookup_replicate]%rd_Ok_inv Hy.
      unfold edge_weight. simpl.
      rewrite (rd_Some _ x (replicate (Z.to_nat n) 0));
        [|lia|by apply lookup_replicate_2].
      cbn [bind]. apply rd_Some; [lia|]. apply lookup_replicate_2. lia.
    + simpl. intros x y Hx Hy. unfold edge_weight. simpl.
      rewrite !(rd_Some _ _ (replicate (Z.to_nat n) 0))
        by (lia || apply lookup_replicate_2; lia).
      cbn [bind]. rewrite !(rd_Some _ _ 0) by (lia || apply lookup_replicate_2; lia).
      done.
  - pose proof (graph_state_wf g Hst) as Hwf.
    destruct (addEdge_cases g u v w g' Hwf E) as [[_ ->]|[[Hu Hv] _]]; [done|].
    destruct (addEdge_effect g u v w Hwf Hu Hv) as (g'' & E' & Hvn & Hch & Hmat).
    rewrite E in E'. injection E' as <-.
    destruct IH as (IHs & IHl & IHm).
    assert (forall x ax', rd (array g') x = Ok ax' ->
              exists ax, rd (array g) x = Ok ax /\
                ax' = (if decide (x = v) then [mkNode u w] else []) ++
                      (if decide (x = u) then [mkNode v w] else []) ++ ax)
      as Hinv.
    { intros x ax' Hx'. pose proof (addEdge_wf g u v w g' Hwf E) as Hwf'.
      apply rd_Ok_inv in Hx' as Hx''. destruct Hx'' as [Hx _].
      rewrite (wf_array g' Hwf'), Hvn in Hx.
      destruct (rd_ex (array g) x) as (ax & _ & Hax);
        [rewrite (wf_array g Hwf); lia|].
      exists ax. split; [done|]. rewrite (Hch x ax Hax) in Hx'. congruence. }
    split; [|split].
    + intros x y c ax' ay' (ax & Hax & ->)%Hinv (ay & Hay & ->)%Hinv.
      rewrite !elem_of_app. rewrite (IHs x y c ax ay Hax Hay).
      repeat case_decide; subst;
        rewrite ?list_elem_of_singleton, ?elem_of_nil;
        split; intros [?|[?|?]]; simplify_eq; tauto.
    + intros x y ax' (ax & Hax & ->)%Hinv Hy. rewrite Hvn in Hy.
      rewrite (Hmat x y _ (IHl x y ax Hax Hy)). f_equal.
      repeat case_decide; simpl; rewrite ?latest_weight_cons; simpl;
        repeat case_decide; try done; lia.
    + intros x y Hx Hy. rewrite Hvn in Hx, Hy.
      destruct (edge_weight_in_range g x y Hwf Hx Hy) as [c Hc].
      pose proof Hc as Hc'. rewrite (IHm x y Hx Hy) in Hc'.
      rewrite (Hmat x y c Hc), (Hmat y x c Hc'). f_equal.
      repeat case_decide; try done; lia.
Qed.

Lemma graph_state_edge_sym g u v :
  graph_state g -> edge g u v -> edge g v u.
Proof.
  intros Hst (adj & nd & Hadj & Hnd & Hd).
  pose proof (graph_state_wf g Hst) as Hwf.
  destruct (graph_state_undirected g Hst) as (Hsym & _ & _).
  apply rd_Ok_inv in Hadj as Hadj'. destruct Hadj' as [Hu Hlu].
  pose proof (Forall_lookup_1 _ _ _ _ (wf_dest g Hwf) Hlu) as Hall.
  rewrite list.Forall_forall in Hall. specialize (Hall nd Hnd). rewrite Hd in Hall.
  destruct (rd_ex (array g) v) as (av & _ & Hav);
    [rewrite (wf_array g Hwf); lia|].
  exists av, (mkNode u (weight nd)). split; [done|]. split; [|done].
  apply (Hsym u v (weight nd) adj av Hadj Hav).
  destruct nd as [d c]. simpl in *. by subst d.
Qed.

(** X4. The graph is undirected in every state a caller can build: a chain
    holds a record [(v, w)] for [u] exactly when the chain of [v] holds
    [(u, w)], so edges and reachability go both ways. *)
Theorem graph_state_symmetric g :
  graph_state g ->
  (forall u v w au av, rd (array g) u = Ok au -> rd (array g) v = Ok av ->
     (mkNode v w ∈ au <-> mkNode u w ∈ av)) /\
  (forall u v, edge g u v -> edge g v u) /\
  (forall u v, reachable g u v -> reachable g v u).
Proof.
  intros Hst. destruct (graph_state_undirected g Hst) as (Hsym & _ & _).
  split; [done|]. split; [intros u v; by apply graph_state_edge_sym|].
  intros u v Hr. induction Hr as [|x y z Hxy _ IH]; [apply rtc_refl|].
  eapply rtc_r; [exact IH|]. by apply graph_state_edge_sym.
Qed.

Lemma graph_state_symmetric_witness :
  graph_state example_graph /\
  ((forall u v w au av,
      rd (array example_graph) u = Ok au -> rd (array example_graph) v = Ok av ->
      (mkNode v w ∈ au <-> mkNode u w ∈ av)) /\
   (forall u v, edge example_graph u v -> edge example_graph v u) /\
   (forall u v, reachable example_graph u v -> reachable example_graph v u)).
Proof.
  split; [apply example_graph_state|].
  exact (graph_state_symmetric example_graph example_graph_state).
Defined.

(** X5. The matrix mirrors the chains: in every state a caller can build,
    cell [u][v] holds the weight of the most recently added edge between [u]
    and [v], which is the first record for [v] in the chain of [u] (0 when
    there is none), and the matrix is symmetric. *)
Theorem matrix_holds_latest_weight g u v au :
  graph_state g -> rd (array g) u = Ok au -> 0 <= v < vertices g ->
  edge_weight g (u, v) = Ok (latest_weight au v) /\
  edge_weight g (v, u) = Ok (latest_weight au v).
Proof.
  intros Hst Hau Hv. destruct (graph_state_undirected g Hst) as (_ & Hl & Hm).
  pose proof (graph_state_wf g Hst) as Hwf.
  apply rd_Ok_inv in Hau as Hau'. destruct Hau' as [Hu _].
  rewrite (wf_array g Hwf) in Hu.
  split; [by apply Hl|]. rewrite <- (Hm u v) by lia. by apply Hl.
Qed.

Lemma matrix_holds_latest_weight_witness :
  (graph_state example_graph /\
   rd (array example_graph) 0 = Ok [mkNode 1 1] /\
   0 <= 1 < vertices example_graph) /\
  edge_weight example_graph (0, 1) = Ok (latest_weight [mkNode 1 1] 1) /\
  edge_weight example_graph (1, 0) = Ok (latest_weight [mkNode 1 1] 1).
Proof.
  assert (graph_state example_graph /\
          rd (array example_graph) 0 = Ok [mkNode 1 1] /\
          0 <= 1 < vertices example_graph) as H.
  { split; [apply example_graph_state|]. split; [reflexivity|simpl; lia]. }
  split; [exact H|]. destruct H as (H1 & H2 & H3).
  exact (matrix_holds_latest_weight example_graph 0 1 [mkNode 1 1] H1 H2 H3).
Defined.

(** * Further properties of the traversals *)

Lemma push_unvisited_elem ns : forall seen s v,
  v ∈ push_unvisited ns seen s <-> v ∈ s \/ (v ∈ ns /\ v ∉ seen).
Proof.
  induction ns as [|n ns IH]; intros seen s v; simpl.
  - rewrite elem_of_nil. tauto.
  - case_decide as Hn; rewrite IH, ?elem_of_cons.
    + split; [tauto|]. intros [?|[[->|?] ?]]; tauto.
    + split; [intros [[->|?]|[? ?]]; tauto|].
      intros [?|[[->|?] ?]]; tauto.
Qed.

Lemma DFS_scan_push adj : forall visited seen s,
  Forall (fun nd => 0 <= destination nd < Z.of_nat (length visited)) adj ->
  marks visited seen ->
  DFS_scan adj visited s = Ok (push_unvisited (destination <$> adj) seen s).
Proof.
  induction adj as [|nd adj IH]; intros visited seen s Hadj Hm; simpl; [done|].
  apply Forall_cons_1 in Hadj as [Hd Hadj]. simpl in Hd.
  destruct (rd_ex visited (destination nd) Hd) as (b & Hb & ->). cbn [bind].
  destruct b; cbn [negb].
  - rewrite decide_True by (apply Hm; split; [lia|done]). by apply IH.
  - rewrite decide_False by (intros [_ Hin]%Hm; congruence). by apply IH.
Qed.

Lemma dfs_order_det g seen s out1 :
  dfs_order g seen s out1 -> forall out2, dfs_order g seen s out2 -> out1 = out2.
Proof.
  induction 1 as [seen|seen u s out Hu _ IH|seen u s out Hu _ IH];
    intros out2 H2; inversion H2; subst; try done.
  - by apply IH.
  - f_equal. by apply IH.
Qed.

Lemma bfs_order_det g seen q out1 :
  bfs_order g seen q out1 -> forall out2, bfs_order g seen q out2 -> out1 = out2.
Proof.
  induction 1 as [seen|seen u q out _ IH]; intros out2 H2;
    inversion H2; subst; [done|].
  f_equal. by apply IH.
Qed.

Lemma dfs_order_reachable g start seen s out :
  dfs_order g seen s out ->
  NoDup seen ->
  (forall v, v ∈ seen ++ s -> reachable g start v) ->
  (forall x y, x ∈ seen -> edge g x y -> y ∈ seen ++ s) ->
  start ∈ seen ++ s ->
  NoDup (seen ++ out) /\
  (forall v, v ∈ seen ++ out <-> reachable g start v).
Proof.
  induction 1 as [seen|seen u s out Hu _ IH|seen u s out Hu _ IH];
    intros Hnd Hreach Hcl Hst.
  - rewrite !app_nil_r in *. split; [done|]. intros v. split; [apply Hreach|].
    by apply closed_reachable.
  - apply IH; [done|..].
    + intros v [Hv|Hv]%elem_of_app; [apply Hreach; set_solver|].
      apply push_unvisited_elem in Hv as [Hv|[Hv _]]; [apply Hreach; set_solver|].
      eapply rtc_r; [apply (Hreach u); set_solver|]. by apply neighbours_edge.
    + intros x y Hx He. apply elem_of_app.
      apply (Hcl x y Hx) in He as [He|[->|He]%elem_of_cons]%elem_of_app;
        [by left|by left|right].
      apply push_unvisited_elem. by left.
    + apply elem_of_app.
      apply elem_of_app in Hst as [Hs|[->|Hs]%elem_of_cons]; [by left|by left|].
      right. apply push_unvisited_elem. by left.
  - assert (NoDup (seen ++ [u])) as Hnd'.
    { apply list.NoDup_app. split; [done|]. split; [|apply NoDup_singleton].
      intros v Hv ->%list_elem_of_singleton. done. }
    destruct IH as [IH1 IH2]; [done|..].
    + intros v [[Hv|Hv%list_elem_of_singleton]%elem_of_app|Hv]%elem_of_app.
      * apply Hreach; set_solver.
      * subst v. apply Hreach; set_solver.
      * apply push_unvisited_elem in Hv as [Hv|[Hv _]];
          [apply Hreach; set_solver|].
        eapply rtc_r; [apply (Hreach u); set_solver|]. by apply neighbours_edge.
    + intros x y [Hx|Hx%list_elem_of_singleton]%elem_of_app He.
      * apply (Hcl x y Hx) in He as [He|[->|He]%elem_of_cons]%elem_of_app.
        -- set_solver.
        -- set_solver.
        -- apply elem_of_app. right. apply push_unvisited_elem. by left.
      * subst x. apply neighbours_edge in He.
        destruct (decide (y ∈ seen ++ [u])) as [Hy|Hy]; [set_solver|].
        apply elem_of_app. right. apply push_unvisited_elem. by right.
    + apply elem_of_app in Hst as [Hs|[->|Hs]%elem_of_cons]; [set_solver|set_solver|].
      apply elem_of_app. right. apply push_unvisited_elem. by left.
    + rewrite <- app_assoc in IH1. split; [done|].
      intros v. rewrite <- IH2, <- app_assoc. done.
Qed.

Section DFS_order.
Variables (g : Graph) (buffer0 : list Z).
Hypothesis Hwf : wf_graph g.
Hypothesis Hbuf : length buffer0 = Z.to_nat (vertices g).

Lemma DFS_body_exact visited u s out :
  dfs_inv g visited (u :: s) out ->
  exists visited',
    DFS_body g visited (u :: s) (out ++ drop (length out) buffer0)
      (Z.of_nat (length out)) =
      Ok (visited',
          push_unvisited (neighbours g u)
            (if decide (u ∈ out) then out else out ++ [u]) s,
          (if decide (u ∈ out) then out else out ++ [u]) ++
            drop (length (if decide (u ∈ out) then out else out ++ [u])) buffer0,
          Z.of_nat (length (if decide (u ∈ out) then out else out ++ [u]))).
Proof.
  intros Hinv. pose proof Hinv as [Hlen Hm Hnd Hst].
  pose proof (wf_vertices g Hwf) as Hn.
  destruct (dfs_inv_written g buffer0 Hwf Hbuf _ _ _ Hinv) as [Hr Hle].
  assert (0 <= u < vertices g) as Hu by (apply Hst; left).
  unfold DFS_body. cbn [Stack.top Stack.pop].
  destruct (rd_ex visited u) as (b & Hb & Hrd); [lia|]. rewrite Hrd. cbn [bind].
  destruct (rd_ex (array g) u) as (adj & Hadj & Hrda);
    [rewrite (wf_array g Hwf); lia|].
  assert (neighbours g u = destination <$> adj) as ->
    by (unfold neighbours; by rewrite Hrda).
  assert (forall vis : list bool, length vis = length visited ->
            Forall (fun nd => 0 <= destination nd < Z.of_nat (length vis)) adj)
    as Hdest.
  { intros vis ->. rewrite Hlen.
    eapply list.Forall_impl;
      [apply (Forall_lookup_1 _ _ _ _ (wf_dest g Hwf) Hadj)|].
    simpl. intros nd Hnd'. lia. }
  destruct b; cbn [negb bind].
  - rewrite decide_True by (apply Hm; split; [lia|done]).
    rewrite Hrda. cbn [bind]. unfold getHead.
    rewrite (DFS_scan_push adj visited out s (Hdest visited eq_refl) Hm).
    cbn [bind]. by exists visited.
  - assert (u ∉ out) as Hnotin by (intros [_ Hl]%Hm; congruence).
    rewrite decide_False by done.
    assert (NoDup (out ++ [u])) as Hnd'.
    { apply list.NoDup_app. split; [done|]. split; [|apply NoDup_singleton].
      intros v Hv ->%list_elem_of_singleton. done. }
    assert (Z.of_nat (length (out ++ [u])) <= vertices g) as Hle'.
    { apply NoDup_bounded_length; [lia|done|].
      intros v [Hv| ->%list_elem_of_singleton]%elem_of_app; [by apply Hr|done]. }
    rewrite length_app in Hle'. simpl in Hle'.
    rewrite wr_ok by (rewrite length_app, length_drop; lia). cbn [bind].
    rewrite wr_ok by lia. cbn [bind].
    rewrite Nat2Z.id, buffer_write by lia.
    rewrite add32_1 by (unfold INT_MIN, INT_MAX in *; lia).
    replace (Z.of_nat (length out) + 1) with (Z.of_nat (length (out ++ [u])))
      by (rewrite length_app; simpl; lia).
    rewrite Hrda. cbn [bind]. unfold getHead.
    rewrite (DFS_scan_push adj (<[Z.to_nat u:=true]> visited) (out ++ [u]) s);
      [|apply Hdest; by rewrite length_insert|apply marks_insert; [done|lia]].
    cbn [bind]. by eexists.
Qed.

Lemma DFS_loop_order fuel : forall visited s out,
  dfs_inv g visited s out ->
  (dfs_potential g visited s (length out) < fuel)%nat ->
  exists rest,
    DFS_loop fuel g visited s (out ++ drop (length out) buffer0)
      (Z.of_nat (length out)) =
      Ok ((out ++ rest) ++ drop (length (out ++ rest)) buffer0,
          Z.of_nat (length (out ++ rest))) /\
    dfs_order g out s rest.
Proof.
  induction fuel as [|fuel IH]; intros visited s out Hinv Hfuel; [lia|].
  destruct s as [|u s]; cbn [DFS_loop Stack.isEmpty].
  - exists []. rewrite !app_nil_r. split; [done|constructor].
  - destruct (DFS_body_spec g buffer0 Hwf Hbuf visited u s out Hinv)
      as (visited' & s' & out' & E & Hinv' & _ & Hpot).
    destruct (DFS_body_exact visited u s out Hinv) as (visited'' & E').
    rewrite E in E'. injection E' as -> Hs Hb Hc.
    apply Nat2Z.inj in Hc.
    apply app_inj_1 in Hb as [Hout _]; [|done].
    rewrite E. cbn [bind].
    destruct (IH visited'' s' out' Hinv') as (rest & Hrun & Hord); [lia|].
    rewrite Hrun. subst s' out'.
    destruct (decide (u ∈ out)) as [Hu|Hu].
    + exists rest. split; [done|]. by constructor.
    + exists (u :: rest).
      replace (out ++ u :: rest) with ((out ++ [u]) ++ rest)
        by (by rewrite <- app_assoc).
      split; [done|]. by constructor.
Qed.
End DFS_order.

Lemma DFS_spec g start buffer fuel :
  wf_graph g -> 0 <= start < vertices g ->
  length buffer = Z.to_nat (vertices g) ->
  (dfs_fuel g <= fuel)%nat ->
  exists out,
    DFS fuel g start buffer =
      Ok (out ++ drop (length out) buffer, Z.of_nat (length out)) /\
    dfs_traversal g start out.
Proof.
  intros Hwf Hs Hbuf Hfuel.
  destruct (dfs_inv_init g start Hwf Hs) as [Hinv Hpot]. unfold DFS.
  destruct (DFS_loop_order g buffer Hwf Hbuf fuel (all_false (vertices g))
              [start] [] Hinv) as (out & Hrun & Hord); [simpl; lia|].
  simpl in Hrun. rewrite drop_0 in Hrun. by exists out.
Qed.

Lemma dfs_traversal_reachable g start out :
  dfs_traversal g start out ->
  NoDup out /\ (forall v, v ∈ out <-> reachable g start v) /\
  exists rest, out = start :: rest.
Proof.
  intros Hord.
  destruct (dfs_order_reachable g start [] [start] out Hord) as [Hnd Hall].
  - constructor.
  - simpl. intros v ->%list_elem_of_singleton. apply rtc_refl.
  - intros x y Hx. by apply elem_of_nil in Hx.
  - simpl. by left.
  - simpl in *. split; [done|]. split; [done|].
    inversion Hord as [|? ? ? ? Hin _|? ? ? ? _ _]; subst;
      [by apply elem_of_nil in Hin|by eexists].
Qed.

(** X6. DFS from an in-range start writes exactly the vertices reachable
    from it, each once, beginning with the start itself, in the order of the
    stack discipline of [dfs_order]. *)
Theorem DFS_visits_reachable g start buffer fuel :
  wf_graph g -> 0 <= start < vertices g ->
  length buffer = Z.to_nat (vertices g) ->
  (dfs_fuel g <= fuel)%nat ->
  exists out,
    DFS fuel g start buffer =
      Ok (out ++ drop (length out) buffer, Z.of_nat (length out)) /\
    NoDup out /\
    (forall v, v ∈ out <-> reachable g start v) /\
    head out = Some start /\
    dfs_traversal g start out.
Proof.
  intros Hwf Hs Hbuf Hfuel.
  destruct (DFS_spec g start buffer fuel Hwf Hs Hbuf Hfuel) as (out & Hrun & Hord).
  destruct (dfs_traversal_reachable g start out Hord) as (Hnd & Hall & rest & ->).
  by exists (start :: rest).
Qed.

Lemma DFS_visits_reachable_witness :
  (wf_graph example_graph /\ 0 <= 0 < vertices example_graph /\
   length [7; 8; 9] = Z.to_nat (vertices example_graph) /\
   (dfs_fuel example_graph <= 20)%nat) /\
  exists out,
    DFS 20 example_graph 0 [7; 8; 9] =
      Ok (out ++ drop (length out) [7; 8; 9], Z.of_nat (length out)) /\
    NoDup out /\
    (forall v, v ∈ out <-> reachable example_graph 0 v) /\
    head out = Some 0 /\
    dfs_traversal example_graph 0 out.
Proof.
  assert (wf_graph example_graph /\ 0 <= 0 < vertices example_graph /\
          length [7; 8; 9] = Z.to_nat (vertices example_graph) /\
          (dfs_fuel example_graph <= 20)%nat) as H.
  { split; [apply example_graph_wf|]. split; [simpl; lia|].
    split; [reflexivity|]. vm_compute. lia. }
  split; [exact H|]. destruct H as (H1 & H2 & H3 & H4).
  exact (DFS_visits_reachable example_graph 0 [7; 8; 9] 20 H1 H2 H3 H4).
Defined.

Lemma edge_in_range g u v :
  wf_graph g -> edge g u v -> 0 <= u < vertices g /\ 0 <= v < vertices g.
Proof.
  intros Hwf (adj & nd & Hrd & Hnd & <-).
  apply rd_Ok_inv in Hrd as [Hu Hadj]. rewrite (wf_array g Hwf) in Hu.
  split; [lia|].
  pose proof (Forall_lookup_1 _ _ _ _ (wf_dest g Hwf) Hadj) as Hdst.
  rewrite list.Forall_forall in Hdst. by apply Hdst.
Qed.

Lemma reachable_in_range g u v :
  wf_graph g -> reachable g u v -> 0 <= u < vertices g -> 0 <= v < vertices g.
Proof.
  intros Hwf Hr. induction Hr as [|x y z Hxy _ IH]; intros Hx; [done|].
  apply IH. by apply (edge_in_range g x y).
Qed.

Lemma dfs_fuel_gt g : (Z.to_nat (vertices g) < dfs_fuel g)%nat.
Proof. unfold dfs_fuel. nia. Qed.

(** X7. BFS and DFS from the same start write the same vertices, possibly in
    a different order, and so return the same count. *)
Theorem BFS_DFS_same_vertices g start buffer1 buffer2 fuel :
  wf_graph g -> 0 <= start < vertices g ->
  length buffer1 = Z.to_nat (vertices g) ->
  length buffer2 = Z.to_nat (vertices g) ->
  (dfs_fuel g <= fuel)%nat ->
  exists out1 out2,
    BFS fuel g start buffer1 =
      Ok (out1 ++ drop (length out1) buffer1, Z.of_nat (length out1)) /\
    DFS fuel g start buffer2 =
      Ok (out2 ++ drop (length out2) buffer2, Z.of_nat (length out2)) /\
    out1 ≡ₚ out2.
Proof.
  intros Hwf Hs Hb1 Hb2 Hfuel. pose proof (dfs_fuel_gt g) as Hgt.
  destruct (BFS_spec g start buffer1 fuel Hwf Hs Hb1)
    as (out1 & Hrun1 & Hnd1 & Hall1 & _); [lia|].
  destruct (DFS_spec g start buffer2 fuel Hwf Hs Hb2 Hfuel)
    as (out2 & Hrun2 & Hord2).
  destruct (dfs_traversal_reachable g start out2 Hord2) as (Hnd2 & Hall2 & _).
  exists out1, out2. split; [done|]. split; [done|].
  apply NoDup_Permutation; [done..|]. intros v. by rewrite Hall1, Hall2.
Qed.

Lemma BFS_DFS_same_vertices_witness :
  (wf_graph example_graph /\ 0 <= 0 < vertices example_graph /\
   length [7; 8; 9] = Z.to_nat (vertices example_graph) /\
   length [1; 2; 3] = Z.to_nat (vertices example_graph) /\
   (dfs_fuel example_graph <= 20)%nat) /\
  exists out1 out2,
    BFS 20 example_graph 0 [7; 8; 9] =
      Ok (out1 ++ drop (length out1) [7; 8; 9], Z.of_nat (length out1)) /\
    DFS 20 example_graph 0 [1; 2; 3] =
      Ok (out2 ++ drop (length out2) [1; 2; 3], Z.of_nat (length out2)) /\
    out1 ≡ₚ out2.
Proof.
  assert (wf_graph example_graph /\ 0 <= 0 < vertices example_graph /\
          length [7; 8; 9] = Z.to_nat (vertices example_graph) /\
          length [1; 2; 3] = Z.to_nat (vertices example_graph) /\
          (dfs_fuel example_graph <= 20)%nat) as H.
  { split; [apply example_graph_wf|]. split; [simpl; lia|].
    split; [reflexivity|]. split; [reflexivity|]. vm_compute. lia. }
  split; [exact H|]. destruct H as (H1 & H2 & H3 & H4 & H5).
  exact (BFS_DFS_same_vertices example_graph 0 [7; 8; 9] [1; 2; 3] 20
           H1 H2 H3 H4 H5).
Defined.

(** X8. What BFS writes depends on the graph and the start only, not on the
    buffer it is given or on spare fuel; run again on its own output it
    leaves the buffer as it is. *)
Theorem BFS_rerun_same_buffer g start :
  wf_graph g -> 0 <= start < vertices g ->
  exists out,
    forall buffer fuel,
      length buffer = Z.to_nat (vertices g) ->
      (Z.to_nat (vertices g) < fuel)%nat ->
      BFS fuel g start buffer =
        Ok (out ++ drop (length out) buffer, Z.of_nat (length out)) /\
      BFS fuel g start (out ++ drop (length out) buffer) =
        Ok (out ++ drop (length out) buffer, Z.of_nat (length out)).
Proof.
  intros Hwf Hs.
  destruct (BFS_spec g start (replicate (Z.to_nat (vertices g)) 0)
              (S (Z.to_nat (vertices g))) Hwf Hs)
    as (out & _ & _ & _ & Hord & Hlen); [by rewrite length_replicate|lia|].
  rewrite length_replicate in Hlen.
  exists out. intros buffer fuel Hbuf Hfuel.
  assert (forall b, length b = Z.to_nat (vertices g) ->
            BFS fuel g start b =
            Ok (out ++ drop (length out) b, Z.of_nat (length out))) as Hrun.
  { intros b Hb.
    destruct (BFS_spec g start b fuel Hwf Hs Hb Hfuel)
      as (out' & Hrun & _ & _ & Hord' & _).
    by rewrite (bfs_order_det _ _ _ _ Hord _ Hord'). }
  split; [by apply Hrun|].
  rewrite Hrun by (rewrite length_app, length_drop; lia).
  by rewrite drop_app_length.
Qed.

Lemma BFS_rerun_same_buffer_witness :
  (wf_graph example_graph /\ 0 <= 0 < vertices example_graph) /\
  exists out,
    forall buffer fuel,
      length buffer = Z.to_nat (vertices example_graph) ->
      (Z.to_nat (vertices example_graph) < fuel)%nat ->
      BFS fuel example_graph 0 buffer =
        Ok (out ++ drop (length out) buffer, Z.of_nat (length out)) /\
      BFS fuel example_graph 0 (out ++ drop (length out) buffer) =
        Ok (out ++ drop (length out) buffer, Z.of_nat (length out)).
Proof.
  assert (wf_graph example_graph /\ 0 <= 0 < vertices example_graph) as H.
  { split; [apply example_graph_wf|simpl; lia]. }
  split; [exact H|]. destruct H as (H1 & H2).
  exact (BFS_rerun_same_buffer example_graph 0 H1 H2).
Defined.

(** X9. The same for DFS: its output depends on the graph and the start
    only, and a second run over the buffer of the first changes nothing. *)
Theorem DFS_rerun_same_buffer g start :
  wf_graph g -> 0 <= start < vertices g ->
  exists out,
    forall buffer fuel,
      length buffer = Z.to_nat (vertices g) ->
      (dfs_fuel g <= fuel)%nat ->
      DFS fuel g start buffer =
        Ok (out ++ drop (length out) buffer, Z.of_nat (length out)) /\
      DFS fuel g start (out ++ drop (length out) buffer) =
        Ok (out ++ drop (length out) buffer, Z.of_nat (length out)).
Proof.
  intros Hwf Hs.
  destruct (DFS_spec g start (replicate (Z.to_nat (vertices g)) 0)
              (dfs_fuel g) Hwf Hs)
    as (out & Hrun0 & Hord); [by rewrite length_replicate|lia|].
  assert (length out <= Z.to_nat (vertices g))%nat as Hlen.
  { destruct (dfs_traversal_reachable g start out Hord) as (Hnd & Hall & _).
    pose proof (wf_vertices g Hwf).
    assert (Z.of_nat (length out) <= vertices g); [|lia].
    apply NoDup_bounded_length; [lia|done|]. intros v Hv%Hall.
    by apply (reachable_in_range g start v). }
  exists out. intros buffer fuel Hbuf Hfuel.
  assert (forall b, length b = Z.to_nat (vertices g) ->
            DFS fuel g start b =
            Ok (out ++ drop (length out) b, Z.of_nat (length out))) as Hrun.
  { intros b Hb.
    destruct (DFS_spec g start b fuel Hwf Hs Hb Hfuel) as (out' & Hrun & Hord').
    by rewrite (dfs_order_det _ _ _ _ Hord _ Hord'). }
  split; [by apply Hrun|].
  rewrite Hrun by (rewrite length_app, length_drop; lia).
  by rewrite drop_app_length.
Qed.

Lemma DFS_rerun_same_buffer_witness :
  (wf_graph example_graph /\ 0 <= 0 < vertices example_graph) /\
  exists out,
    forall buffer fuel,
      length buffer = Z.to_nat (vertices example_graph) ->
      (dfs_fuel example_graph <= fuel)%nat ->
      DFS fuel example_graph 0 buffer =
        Ok (out ++ drop (length out) buffer, Z.of_nat (length out)) /\
      DFS fuel example_graph 0 (out ++ drop (length out) buffer) =
        Ok (out ++ drop (length out) buffer, Z.of_nat (length out)).
Proof.
  assert (wf_graph example_graph /\ 0 <= 0 < vertices example_graph) as H.
  { split; [apply example_graph_wf|simpl; lia]. }
  split; [exact H|]. destruct H as (H1 & H2).
  exact (DFS_rerun_same_buffer example_graph 0 H1 H2).
Defined.

(** * Further properties of the heap *)

Lemma swap_exact (a : list HNode) i j :
  0 <= i < Z.of_nat (length a) -> 0 <= j < Z.of_nat (length a) ->
  exists x y,
    a !! Z.to_nat i = Some x /\ a !! Z.to_nat j = Some y /\
    swap a i j = Ok (<[Z.to_nat j := x]> (<[Z.to_nat i := y]> a)).
Proof.
  intros Hi Hj. unfold swap.
  destruct (rd_ex a i Hi) as (x & Hx & ->).
  destruct (rd_ex a j Hj) as (y & Hy & ->). cbn [bind].
  rewrite wr_ok by done. cbn [bind].
  rewrite wr_ok by (rewrite length_insert; done).
  by exists x, y.
Qed.

Lemma swap_entries h i j a' :
  heap_shape h -> 1 <= i <= size h -> 1 <= j <= size h ->
  swap (arr h) i j = Ok a' ->
  heap_shape (set_arr h a') /\ heap_entries (set_arr h a') ≡ₚ heap_entries h.
Proof.
  intros (Hsz & Hcap & Hlen) Hi Hj Hsw.
  destruct (swap_exact (arr h) i j) as (x & y & Hx & Hy & E); [lia..|].
  rewrite E in Hsw. injection Hsw as <-. split.
  - unfold heap_shape. simpl. rewrite !length_insert. done.
  - unfold heap_entries. simpl.
    replace (Z.to_nat i) with (1 + (Z.to_nat i - 1))%nat in * by lia.
    replace (Z.to_nat j) with (1 + (Z.to_nat j - 1))%nat in * by lia.
    rewrite !drop_insert_ge by lia.
    replace (1 + (Z.to_nat i - 1) - 1)%nat with (Z.to_nat i - 1)%nat by lia.
    replace (1 + (Z.to_nat j - 1) - 1)%nat with (Z.to_nat j - 1)%nat by lia.
    rewrite !take_insert_lt by lia.
    apply Permutation_insert_swap.
    + rewrite lookup_take_lt by lia. by rewrite lookup_drop.
    + rewrite lookup_take_lt by lia. by rewrite lookup_drop.
Qed.

Lemma percolateUp_entries fuel : forall h i h',
  heap_shape h -> 1 <= i <= size h ->
  percolateUp fuel h i = Ok h' -> heap_entries h' ≡ₚ heap_entries h.
Proof.
  induction fuel as [|fuel IH]; intros h i h' Hsh Hi H; [discriminate|].
  simpl in H. apply bind_Ok_inv in H as (go & Hgo & H).
  destruct go; [|by injection H as <-].
  assert (1 < i) as H1.
  { destruct (Z.ltb_spec 1 i); [done|]. by injection Hgo. }
  apply bind_Ok_inv in H as (a' & Hsw & H).
  assert (i `quot` 2 = i `div` 2) as Hq by (apply Z.quot_div_nonneg; lia).
  pose proof (Z.div_mod i 2). pose proof (Z.mod_pos_bound i 2).
  destruct (swap_entries h i (i `quot` 2) a' Hsh) as [Hsh' Hperm];
    [lia|lia|done|].
  rewrite <- Hperm. apply (IH _ (i `quot` 2)); [done|simpl; lia|done].
Qed.

Lemma percolateDown_entries fuel : forall h i h',
  heap_shape h -> 1 <= i <= MAX_CAPACITY ->
  percolateDown fuel h i = Ok h' -> heap_entries h' ≡ₚ heap_entries h.
Proof.
  induction fuel as [|fuel IH]; intros h i h' Hsh Hi H; [discriminate|].
  pose proof Hsh as (Hsz & Hcap & Hlen). simpl in H.
  rewrite mul32_2 in H by lia.
  destruct (decide (i <= size h)) as [Hin|Hout].
  - rewrite add32_1 in H by (unfold INT_MIN, INT_MAX, MAX_CAPACITY in *; lia).
    rewrite pick_smaller_ok in H by lia. cbn [bind] in H.
    set (s1 := if decide (2 * i <= size h /\ _) then _ else _) in H.
    assert (0 <= s1 < Z.of_nat (length (arr h))) as Hs1
      by (subst s1; case_decide; lia).
    rewrite pick_smaller_ok in H by lia. cbn [bind] in H.
    set (s := if decide (2 * i + 1 <= size h /\ _) then _ else _) in H.
    assert (1 <= s <= size h) as Hs by (subst s s1; repeat case_decide; lia).
    clearbody s. clear s1 Hs1.
    destruct (Z.eqb_spec s i) as [Hsi|Hsi]; cbn [negb] in H.
    + by injection H as <-.
    + apply bind_Ok_inv in H as (a' & Hsw & H).
      destruct (swap_entries h i s a' Hsh) as [Hsh' Hperm]; [lia|lia|done|].
      rewrite <- Hperm. apply (IH _ s); [done|simpl; lia|done].
  - assert (forall l s, size h < l -> pick_smaller h l s = Ok s) as Hpick.
    { intros l s Hl. unfold pick_smaller.
      destruct (Z.leb_spec l (size h)); [lia|done]. }
    rewrite add32_1 in H by (unfold INT_MIN, INT_MAX, MAX_CAPACITY in *; lia).
    rewrite Hpick in H by lia. cbn [bind] in H.
    rewrite Hpick in H by lia. cbn [bind] in H.
    rewrite Z.eqb_refl in H. cbn [negb] in H. by injection H as <-.
Qed.

Lemma InsertKey_entries h v k h' :
  heap_shape h -> InsertKey h v k = Ok h' ->
  heap_entries h' ≡ₚ
    (if decide (size h < capacity h) then [mkHNode v k] else []) ++
    heap_entries h.
Proof.
  intros Hsh H. pose proof Hsh as (Hsz & Hcap & Hlen). unfold InsertKey in H.
  destruct (Z.geb_spec (size h) (capacity h)) as [Hfull|Hroom].
  - injection H as <-. by rewrite decide_False by lia.
  - rewrite decide_True by lia.
    rewrite add32_1 in H by (unfold INT_MIN, INT_MAX, MAX_CAPACITY in *; lia).
    rewrite wr_ok in H by lia. cbn [bind] in H.
    apply percolateUp_entries in H.
    + rewrite H. unfold heap_entries. simpl.
      replace (Z.to_nat (size h + 1)) with (S (Z.to_nat (size h))) by lia.
      rewrite drop_insert_ge by lia.
      replace (S (Z.to_nat (size h)) - 1)%nat with (Z.to_nat (size h)) by lia.
      rewrite (take_S_r _ _ (mkHNode v k));
        [|apply list_lookup_insert_eq; rewrite length_drop; lia].
      rewrite take_insert_ge by lia.
      by rewrite Permutation_app_comm.
    + unfold heap_shape. simpl. rewrite length_insert. lia.
    + simpl. lia.
Qed.

Lemma ExtractMin_entries h m h' :
  heap_shape h -> size h <> 0 -> ExtractMin h = Ok (m, h') ->
  heap_entries h ≡ₚ m :: heap_entries h'.
Proof.
  intros Hsh Hnz H. pose proof Hsh as (Hsz & Hcap & Hlen). unfold ExtractMin in H.
  destruct (Z.eqb_spec (size h) 0) as [|_]; [done|].
  apply bind_Ok_inv in H as (m' & [_ Hm]%rd_Ok_inv & H).
  apply bind_Ok_inv in H as (l & [_ Hl]%rd_Ok_inv & H).
  rewrite wr_ok in H by lia. cbn [bind] in H.
  rewrite sub32_1 in H by (unfold INT_MIN, INT_MAX, MAX_CAPACITY in *; lia).
  apply bind_Ok_inv in H as (h1 & Hpd & H). injection H as -> ->.
  apply percolateDown_entries in Hpd;
    [|unfold heap_shape; simpl; rewrite length_insert; lia
     |unfold MAX_CAPACITY; lia].
  rewrite Hpd. unfold heap_entries. simpl.
  change (Z.to_nat 1) with 1%nat in *.
  rewrite drop_insert_ge by lia. simpl.
  destruct (arr h) as [|a0 cells] eqn:Ea; [simpl in Hlen; lia|].
  simpl in Hm, Hl, Hlen |- *. rewrite drop_0.
  destruct cells as [|c1 cells]; [discriminate|]. simpl in Hm.
  injection Hm as ->. simpl.
  replace (Z.to_nat (size h)) with (S (Z.to_nat (size h - 1))) in * by lia.
  simpl in Hl |- *. constructor.
  set (n := Z.to_nat (size h - 1)) in *.
  destruct n as [|n]; simpl in *; [done|].
  rewrite (take_S_r cells n l) by done.
  by rewrite Permutation_app_comm.
Qed.

Lemma heap_entries_length h :
  heap_shape h -> length (heap_entries h) = Z.to_nat (size h).
Proof.
  intros (Hsz & Hcap & Hlen). unfold heap_entries.
  rewrite length_take, length_drop. lia.
Qed.

Lemma heap_entries_least h m :
  heap_shape h -> heap_ordered h -> rd (arr h) 1 = Ok m ->
  forall e, e ∈ heap_entries h -> key m <= key e.
Proof.
  intros Hsh Ho Hm e He. pose proof Hsh as (Hsz & Hcap & Hlen).
  unfold heap_entries in He.
  apply list_elem_of_lookup in He as [i Hi].
  apply lookup_take_Some in Hi as [Hi Hlt]. rewrite lookup_drop in Hi.
  pose proof (heap_root_least h Ho (Z.of_nat (1 + i))) as Hle.
  unfold keyAt in Hle. rewrite Hm in Hle.
  rewrite (rd_Some _ _ e) in Hle; [apply Hle; lia|lia|by rewrite Nat2Z.id].
Qed.

Lemma insert_all_ok es : forall h,
  heap_shape h -> heap_ordered h ->
  size h + Z.of_nat (length es) <= capacity h ->
  exists h',
    insert_all h es = Ok h' /\ heap_shape h' /\ heap_ordered h' /\
    capacity h' = capacity h /\
    size h' = size h + Z.of_nat (length es) /\
    heap_entries h' ≡ₚ heap_entries h ++ es.
Proof.
  induction es as [|e es IH]; intros h Hsh Ho Hroom; simpl.
  - exists h. rewrite app_nil_r. do 4 (split; [done|]). split; [lia|done].
  - simpl in Hroom.
    destruct (InsertKey_ok h (vertex e) (key e) Hsh Ho)
      as (h1 & E & Hsh1 & Ho1 & Hc1 & Hs1).
    rewrite decide_True in Hs1 by lia.
    pose proof (InsertKey_entries h _ _ h1 Hsh E) as Hent.
    rewrite decide_True in Hent by lia.
    rewrite E. cbn [bind].
    destruct (IH h1 Hsh1 Ho1) as (h' & E' & Hsh' & Ho' & Hc' & Hs' & Hent');
      [lia|].
    exists h'. split; [done|]. split; [done|]. split; [done|].
    split; [lia|]. split; [lia|].
    rewrite Hent', Hent. destruct e as [ev ek]. simpl.
    by rewrite <- Permutation_middle.
Qed.

Lemma extract_all_sorted n : forall h,
  heap_shape h -> heap_ordered h -> n = Z.to_nat (size h) ->
  exists ms h',
    extract_all n h = Ok (ms, h') /\ heap_shape h' /\ heap_ordered h' /\
    size h' = 0 /\ capacity h' = capacity h /\
    ms ≡ₚ heap_entries h /\
    StronglySorted (fun a b => key a <= key b) ms.
Proof.
  induction n as [|n IH]; intros h Hsh Ho Hn; simpl.
  - exists [], h. split; [done|]. split; [done|]. split; [done|].
    pose proof Hsh as (Hsz & _). split; [lia|]. split; [done|].
    split; [|constructor].
    unfold heap_entries. by rewrite <- Hn.
  - destruct (ExtractMin_ok h Hsh Ho)
      as (m & h1 & E & Hsh1 & Ho1 & Hc1 & _ & Hnz).
    destruct Hnz as [Hm Hs1]; [lia|].
    pose proof (ExtractMin_entries h m h1 Hsh ltac:(lia) E) as Hent.
    rewrite E. cbn [bind].
    destruct (IH h1 Hsh1 Ho1) as (ms & h' & E' & Hsh' & Ho' & Hz & Hc' & Hperm & Hsort);
      [lia|].
    rewrite E'. cbn [bind]. exists (m :: ms), h'.
    split; [done|]. split; [done|]. split; [done|]. split; [done|].
    split; [lia|]. split; [by rewrite Hent, Hperm|].
    apply StronglySorted_cons. split; [|done].
    rewrite list.Forall_forall. intros e He.
    apply (heap_entries_least h m Hsh Ho Hm).
    rewrite Hent. right. by rewrite <- Hperm.
Qed.

Lemma extract_all_empty k : forall h,
  size h = 0 -> extract_all k h = Ok (replicate k (mkHNode 0 0), h).
Proof.
  induction k as [|k IH]; intros h Hz; simpl; [done|].
  unfold ExtractMin. rewrite Hz. simpl. rewrite (IH h Hz). done.
Qed.

Lemma extract_all_app n : forall k h ms h1,
  extract_all n h = Ok (ms, h1) ->
  extract_all (n + k) h =
    (do ' (ms2, h2) <- extract_all k h1 ;; Ok (ms ++ ms2, h2)).
Proof.
  induction n as [|n IH]; intros k h ms h1 H; simpl in *.
  - injection H as <- <-. by destruct (extract_all k h) as [[ms2 h2]| |].
  - destruct (ExtractMin h) as [[m hm]| |]; try discriminate. cbn [bind] in *.
    destruct (extract_all n hm) as [[ms' h']| |] eqn:E; try discriminate.
    cbn [bind] in H. injection H as <- <-.
    rewrite (IH k hm ms' h' E).
    by destruct (extract_all k h') as [[ms2 h2]| |].
Qed.

(** X10. [InsertKey] on a heap with room stores exactly the new entry next
    to the old ones and raises the size by one; on a full heap it stores
    nothing.  (Entries are compared as a multiset: their cells may change.) *)
Theorem InsertKey_adds_entry c h v k :
  0 <= c <= MAX_CAPACITY -> heap_state c h ->
  exists h',
    InsertKey h v k = Ok h' /\
    heap_entries h' ≡ₚ
      (if decide (size h < c) then [mkHNode v k] else []) ++ heap_entries h /\
    size h' = (if decide (size h < c) then size h + 1 else size h) /\
    length (heap_entries h') = Z.to_nat (size h').
Proof.
  intros Hc Hst. destruct (heap_state_inv c h Hc Hst) as (Hsh & Ho & <-).
  destruct (InsertKey_ok h v k Hsh Ho) as (h' & E & Hsh' & _ & _ & Hs).
  exists h'. split; [done|]. split; [by apply InsertKey_entries|].
  split; [done|]. by apply heap_entries_length.
Qed.

Lemma InsertKey_adds_entry_witness :
  (0 <= 3 <= MAX_CAPACITY /\ heap_state 3 example_heap) /\
  exists h',
    InsertKey example_heap 9 9 = Ok h' /\
    heap_entries h' ≡ₚ
      (if decide (size example_heap < 3) then [mkHNode 9 9] else []) ++
      heap_entries example_heap /\
    size h' = (if decide (size example_heap < 3) then size example_heap + 1
               else size example_heap) /\
    length (heap_entries h') = Z.to_nat (size h').
Proof.
  assert (0 <= 3 <= MAX_CAPACITY /\ heap_state 3 example_heap) as H.
  { split; [unfold MAX_CAPACITY; lia|apply example_heap_state]. }
  split; [exact H|]. destruct H as (H1 & H2).
  exact (InsertKey_adds_entry 3 example_heap 9 9 H1 H2).
Defined.

(** X11. [ExtractMin] on a non-empty heap removes exactly the entry it
    returns: the entries before the call are that entry plus the entries
    after it, the size drops by one, and no stored entry has a smaller key. *)
Theorem ExtractMin_removes_least c h :
  0 <= c <= MAX_CAPACITY -> heap_state c h -> size h <> 0 ->
  exists m h',
    ExtractMin h = Ok (m, h') /\
    heap_entries h ≡ₚ m :: heap_entries h' /\
    size h' = size h - 1 /\
    (forall e, e ∈ heap_entries h -> key m <= key e).
Proof.
  intros Hc Hst Hnz. destruct (heap_state_inv c h Hc Hst) as (Hsh & Ho & _).
  destruct (ExtractMin_ok h Hsh Ho) as (m & h' & E & _ & _ & _ & _ & Hm).
  destruct (Hm Hnz) as [Hrd Hs].
  exists m, h'. split; [done|]. split; [by apply ExtractMin_entries|].
  split; [done|]. by apply heap_entries_least.
Qed.

Lemma ExtractMin_removes_least_witness :
  (0 <= 3 <= MAX_CAPACITY /\ heap_state 3 example_heap /\
   size example_heap <> 0) /\
  exists m h',
    ExtractMin example_heap = Ok (m, h') /\
    heap_entries example_heap ≡ₚ m :: heap_entries h' /\
    size h' = size example_heap - 1 /\
    (forall e, e ∈ heap_entries example_heap -> key m <= key e).
Proof.
  assert (0 <= 3 <= MAX_CAPACITY /\ heap_state 3 example_heap /\
          size example_heap <> 0) as H.
  { split; [unfold MAX_CAPACITY; lia|]. split; [apply example_heap_state|].
    simpl. lia. }
  split; [exact H|]. destruct H as (H1 & H2 & H3).
  exact (ExtractMin_removes_least 3 example_heap H1 H2 H3).
Defined.

(** X12. Heap sort: inserting the entries [es] into a fresh heap that can
    hold them and extracting as many times returns a rearrangement of [es]
    in non-decreasing key order and leaves the heap empty; every further
    [ExtractMin] returns the zero node. *)
Theorem heap_sorts c (es : list HNode) (k : nat) :
  0 <= c <= MAX_CAPACITY -> Z.of_nat (length es) <= c ->
  exists h ms h',
    insert_all (Heap_new c) es = Ok h /\
    extract_all (length es + k) h =
      Ok (ms ++ replicate k (mkHNode 0 0), h') /\
    ms ≡ₚ es /\
    StronglySorted (fun a b => key a <= key b) ms /\
    size h' = 0.
Proof.
  intros Hc Hlen. destruct (Heap_new_shape c Hc) as [Hsh Ho].
  destruct (insert_all_ok es (Heap_new c) Hsh Ho)
    as (h & E & Hsh' & Ho' & _ & Hs & Hent); [simpl; lia|].
  simpl in Hs.
  destruct (extract_all_sorted (length es) h Hsh' Ho')
    as (ms & h' & E' & _ & _ & Hz & _ & Hperm & Hsort); [lia|].
  exists h, ms, h'. split; [done|]. split.
  - rewrite (extract_all_app _ k h ms h' E').
    by rewrite (extract_all_empty k h' Hz).
  - split; [|done]. rewrite Hperm, Hent. unfold heap_entries. simpl. done.
Qed.

Lemma heap_sorts_witness :
  (0 <= 3 <= MAX_CAPACITY /\
   Z.of_nat (length [mkHNode 0 5; mkHNode 1 3; mkHNode 2 4]) <= 3) /\
  exists h ms h',
    insert_all (Heap_new 3) [mkHNode 0 5; mkHNode 1 3; mkHNode 2 4] = Ok h /\
    extract_all (length [mkHNode 0 5; mkHNode 1 3; mkHNode 2 4] + 2) h =
      Ok (ms ++ replicate 2 (mkHNode 0 0), h') /\
    ms ≡ₚ [mkHNode 0 5; mkHNode 1 3; mkHNode 2 4] /\
    StronglySorted (fun a b => key a <= key b) ms /\
    size h' = 0.
Proof.
  assert (0 <= 3 <= MAX_CAPACITY /\
          Z.of_nat (length [mkHNode 0 5; mkHNode 1 3; mkHNode 2 4]) <= 3) as H.
  { unfold MAX_CAPACITY. simpl. lia. }
  split; [exact H|]. destruct H as (H1 & H2).
  exact (heap_sorts 3 [mkHNode 0 5; mkHNode 1 3; mkHNode 2 4] 2 H1 H2).
Defined.

(** * Prim's algorithm on any graph *)

Lemma rd_insert {A} (a : list A) i j x :
  0 <= i < Z.of_nat (length a) ->
  rd (<[Z.to_nat i := x]> a) j = if decide (j = i) then Ok x else rd a j.
Proof.
  intros Hi. case_decide as Hj.
  - subst j. apply rd_Some; [lia|]. apply list_lookup_insert_eq. lia.
  - unfold rd. destruct (Z.leb_spec 0 j); [|done].
    by rewrite list_lookup_insert_ne by lia.
Qed.

Lemma has_parent_insert pb v u x :
  0 <= v < Z.of_nat (length pb) -> 0 <= u ->
  has_parent pb x \/ x = v -> has_parent (<[Z.to_nat v := u]> pb) x.
Proof.
  intros Hv Hu Hx. unfold has_parent. rewrite rd_insert by done.
  case_decide as E.
  - exists u. split; [done|lia].
  - destruct Hx as [Hx|Hx]; [done|contradiction].
Qed.

Lemma tree_path_insert pb start (visited : list bool) v u x :
  0 <= v < Z.of_nat (length pb) ->
  rd visited v = Ok false ->
  (forall y p, rd pb y = Ok p -> p <> -1 -> rd visited p = Ok true) ->
  tree_path pb start x -> rd visited x = Ok true ->
  tree_path (<[Z.to_nat v := u]> pb) start x.
Proof.
  intros Hv Hvis Hpar Hx. induction Hx as [|y p Hy Hp _ IH]; intros Hvx.
  - constructor.
  - apply (tree_path_step _ _ y p); [|done|].
    + rewrite rd_insert by done. rewrite decide_False; [done|]. congruence.
    + apply IH. by apply (Hpar y p).
Qed.

Lemma tree_path_reachable g pb start v :
  (forall y p, rd pb y = Ok p -> p <> -1 -> edge g p y) ->
  tree_path pb start v -> reachable g start v.
Proof.
  intros Hedge Hv. induction Hv as [|y p Hy Hp _ IH]; [apply rtc_refl|].
  eapply rtc_r; [exact IH|]. by apply Hedge.
Qed.

Lemma unvisited_records_insert (chains : list AdjList) : forall visited i adj,
  visited !! i = Some false -> chains !! i = Some adj ->
  (unvisited_records (<[i := true]> visited) chains + length adj =
   unvisited_records visited chains)%nat.
Proof.
  unfold unvisited_records.
  induction chains as [|c chains IH]; intros visited i adj Hv Hc; [done|].
  destruct visited as [|b visited]; [done|].
  destruct i as [|i]; simpl in *.
  - injection Hv as ->. injection Hc as ->. lia.
  - rewrite <- (IH visited i adj Hv Hc). lia.
Qed.

Lemma unvisited_records_all (chains : list AdjList) n :
  length chains = n ->
  unvisited_records (replicate n false) chains = sum_list (length <$> chains).
Proof.
  unfold unvisited_records. revert n.
  induction chains as [|c chains IH]; intros n Hn; subst n; simpl; [done|].
  by rewrite IH.
Qed.

Lemma prim_relax g start visited key pb h u v w kv :
  wf_graph g -> prim_inv g start visited key pb h ->
  rd visited start = Ok true -> rd visited u = Ok true ->
  rd visited v = Ok false ->
  (exists adj, rd (array g) u = Ok adj /\ mkNode v w ∈ adj) ->
  rd key v = Ok kv -> w < kv ->
  (span_ok g -> size h < capacity h) ->
  exists h',
    InsertKey h v w = Ok h' /\
    prim_inv g start visited (<[Z.to_nat v := w]> key)
      (<[Z.to_nat v := u]> pb) h' /\
    size h' <= size h + 1 /\
    (forall x, has_parent pb x \/ x = v ->
       has_parent (<[Z.to_nat v := u]> pb) x).
Proof.
  intros Hwf [Hlv Hlk Hlp Hsh Ho Hcap Hent Hroot Hstart Hpar Htree Hkeys Hq]
    Hvs Hvu Hvv (adj & Hadj & Hnd) Hkv Hlt Hroom.
  apply rd_Ok_inv in Hvv as Hvv'. destruct Hvv' as [Hv _].
  apply rd_Ok_inv in Hvu as Hvu'. destruct Hvu' as [Hu _].
  assert (edge g u v) as Hedge by (by exists adj, (mkNode v w)).
  assert (v <> start) as Hvne by congruence.
  destruct (InsertKey_ok h v w Hsh Ho) as (h' & E & Hsh' & Ho' & Hc' & Hs').
  pose proof (InsertKey_entries h v w h' Hsh E) as Hent'.
  assert (forall x, has_parent pb x \/ x = v ->
            has_parent (<[Z.to_nat v := u]> pb) x) as Hmono.
  { intros x Hx. apply has_parent_insert; [lia|lia|done]. }
  exists h'. split; [done|]. split; [|split; [case_decide; lia|done]].
  split.
  - done.
  - by rewrite length_insert.
  - by rewrite length_insert.
  - done.
  - done.
  - lia.
  - intros e He. rewrite Hent' in He.
    apply elem_of_app in He as [He|He].
    + case_decide; [|by apply elem_of_nil in He].
      apply list_elem_of_singleton in He as ->. simpl.
      split; [lia|]. right. apply Hmono. by right.
    + destruct (Hent e He) as [? [?|?]]; [split; [done|by left]|].
      split; [done|]. right. apply Hmono. by left.
  - rewrite rd_insert by lia. by rewrite decide_False.
  - by left.
  - intros x p. rewrite rd_insert by lia.
    destruct (decide (x = v)) as [Ex|Ex].
    + intros Hp _. assert (p = u) as -> by congruence. by subst x.
    + apply Hpar.
  - intros x Hx. apply (tree_path_insert pb start visited); [lia|done| |by apply Htree|done].
    intros y p Hy Hp. by apply (Hpar y p).
  - intros x kx. rewrite rd_insert by lia.
    destruct (decide (x = v)) as [Ex|Ex].
    + intros _ _. right. apply Hmono. by right.
    + intros Hx Hlx. destruct (Hkeys x kx Hx Hlx) as [?|?]; [by left|].
      right. apply Hmono. by left.
  - intros Hspan x Hx Hvx.
    rewrite decide_True in Hent' by (specialize (Hroom Hspan); lia).
    destruct (decide (x = v)) as [->|Hne].
    + exists (mkHNode v w). split; [|done]. rewrite Hent'. by left.
    + assert (has_parent pb x) as Hx'.
      { destruct Hx as (p & Hp & Hp1). rewrite rd_insert in Hp by lia.
        rewrite decide_False in Hp by done. by exists p. }
      destruct (Hq Hspan x Hx' Hvx) as (e & He & Hev).
      exists e. split; [|done]. rewrite Hent'. by right.
Qed.

Lemma Prims_scan_spec g start u visited adj :
  wf_graph g ->
  rd visited start = Ok true -> rd visited u = Ok true ->
  rd (array g) u = Ok adj ->
  forall temp key pb h,
    prim_inv g start visited key pb h ->
    (forall nd, nd ∈ temp -> nd ∈ adj) ->
    (span_ok g -> size h + Z.of_nat (length temp) <= capacity h) ->
    exists key' pb' h',
      Prims_scan temp u visited key pb h = Ok (key', pb', h') /\
      prim_inv g start visited key' pb' h' /\
      size h' <= size h + Z.of_nat (length temp) /\
      (forall x, has_parent pb x -> has_parent pb' x) /\
      (span_ok g -> forall nd, nd ∈ temp ->
         rd visited (destination nd) = Ok true \/
         has_parent pb' (destination nd)).
Proof.
  intros Hwf Hvs Hvu Hadj.
  assert (adj ∈ array g) as Hin.
  { apply rd_Ok_inv in Hadj as [_ Hadj]. by eapply list_elem_of_lookup_2. }
  pose proof (proj1 (list.Forall_forall _ _) (wf_dest g Hwf) adj Hin) as Hdest.
  induction temp as [|[v w] next IH]; intros key pb h Hinv Hsub Hroom.
  - exists key, pb, h. simpl. split; [done|]. split; [done|].
    split; [lia|]. split; [done|]. intros _ nd Hnd. by apply elem_of_nil in Hnd.
  - assert (mkNode v w ∈ adj) as Hnd by (apply Hsub; by left).
    pose proof (proj1 (list.Forall_forall _ _) Hdest _ Hnd) as Hv.
    simpl in Hv.
    assert (forall nd, nd ∈ next -> nd ∈ adj) as Hsub'
      by (intros nd ?; apply Hsub; by right).
    pose proof Hinv as [Hlv Hlk Hlp Hsh Ho Hcap _ _ _ _ _ Hkeys _].
    cbn [Prims_scan destination weight].
    destruct (rd_ex visited v) as (seen & _ & Hseen); [lia|]. rewrite Hseen.
    cbn [bind].
    destruct (rd_ex key v) as (kv & _ & Hkv); [lia|].
    destruct seen; cbn [negb bind].
    + destruct (IH key pb h Hinv Hsub') as (key' & pb' & h' & E & Hinv' & Hs & Hm & Hcl).
      { intros Hsp. specialize (Hroom Hsp). simpl in Hroom. lia. }
      exists key', pb', h'. split; [done|]. split; [done|].
      split; [simpl; lia|]. split; [done|].
      intros Hsp nd [->|Hnx]%elem_of_cons; [by left|by apply Hcl].
    + rewrite Hkv. cbn [bind].
      destruct (Z.ltb_spec w kv) as [Hlt|Hge].
      * destruct (prim_relax g start visited key pb h u v w kv)
          as (h1 & E1 & Hinv1 & Hs1 & Hm1); try done.
        { by exists adj. }
        { intros Hsp. specialize (Hroom Hsp). simpl in Hroom. lia. }
        rewrite !wr_ok by lia. cbn [bind].
        rewrite rd_insert by lia. rewrite decide_True by done. cbn [bind].
        rewrite E1. cbn [bind].
        destruct (IH _ _ _ Hinv1 Hsub') as (key' & pb' & h' & E & Hinv' & Hs & Hm & Hcl).
        { intros Hsp. specialize (Hroom Hsp). simpl in Hroom.
          rewrite (pi_capacity _ _ _ _ _ _ Hinv1). rewrite <- Hcap. lia. }
        exists key', pb', h'. split; [done|]. split; [done|].
        split; [simpl; lia|]. split.
        { intros x Hx. apply Hm, Hm1. by left. }
        intros Hsp nd [->|Hnx]%elem_of_cons; [|by apply Hcl].
        right. apply Hm, Hm1. by right.
      * destruct (IH key pb h Hinv Hsub') as (key' & pb' & h' & E & Hinv' & Hs & Hm & Hcl).
        { intros Hsp. specialize (Hroom Hsp). simpl in Hroom. lia. }
        exists key', pb', h'. split; [done|]. split; [done|].
        split; [simpl; lia|]. split; [done|].
        intros Hsp nd [->|Hnx]%elem_of_cons; [|by apply Hcl].
        right. apply Hm. simpl.
        destruct (Hkeys v kv Hkv) as [->|Hp]; [|congruence|done].
        pose proof (proj1 Hsp adj (mkNode v w) Hin Hnd) as Hw. simpl in Hw. lia.
Qed.

Lemma closed_reachable_pred g (P : Z -> Prop) :
  (forall u v, P u -> edge g u v -> P v) ->
  forall s v, reachable g s v -> P s -> P v.
Proof.
  intros Hcl s v Hr. induction Hr as [|x y z Hxy _ IH]; intros Hs; [done|].
  apply IH. by apply (Hcl x).
Qed.

Lemma prim_skip g start visited key pb h m h1 :
  prim_inv g start visited key pb h ->
  heap_shape h1 -> heap_ordered h1 -> capacity h1 = capacity h ->
  heap_entries h ≡ₚ m :: heap_entries h1 ->
  rd visited (vertex m) = Ok true ->
  prim_inv g start visited key pb h1 /\ rd visited start = Ok true.
Proof.
  intros [Hlv Hlk Hlp Hsh Ho Hcap Hent Hroot Hstart Hpar Htree Hkeys Hq]
    Hsh1 Ho1 Hc1 Hperm Hm.
  assert (forall e, e ∈ heap_entries h1 -> e ∈ heap_entries h) as Hsub.
  { intros e He. rewrite Hperm. by right. }
  assert (rd visited start = Ok true) as Hvs.
  { destruct Hstart as [?|Hall]; [done|].
    rewrite <- (Hall m); [done|]. rewrite Hperm. by left. }
  split; [|done]. split; try done.
  - lia.
  - intros e He. by apply Hent, Hsub.
  - by left.
  - intros Hsp v Hv Hvv. destruct (Hq Hsp v Hv Hvv) as (e & He & Hev).
    exists e. split; [|done]. rewrite Hperm in He.
    apply elem_of_cons in He as [->|He]; [congruence|done].
Qed.

Lemma prim_visit g start visited key pb h m h1 :
  prim_inv g start visited key pb h ->
  heap_shape h1 -> heap_ordered h1 -> capacity h1 = capacity h ->
  heap_entries h ≡ₚ m :: heap_entries h1 ->
  rd visited (vertex m) = Ok false ->
  prim_inv g start (<[Z.to_nat (vertex m) := true]> visited) key pb h1 /\
  rd (<[Z.to_nat (vertex m) := true]> visited) start = Ok true.
Proof.
  intros [Hlv Hlk Hlp Hsh Ho Hcap Hent Hroot Hstart Hpar Htree Hkeys Hq]
    Hsh1 Ho1 Hc1 Hperm Hm.
  apply rd_Ok_inv in Hm as Hm'. destruct Hm' as [Hu _].
  set (u := vertex m) in *.
  assert (forall e, e ∈ heap_entries h1 -> e ∈ heap_entries h) as Hsub.
  { intros e He. rewrite Hperm. by right. }
  assert (m ∈ heap_entries h) as Hmin by (rewrite Hperm; by left).
  assert (forall x, rd visited x = Ok true ->
            rd (<[Z.to_nat u := true]> visited) x = Ok true) as Hmono.
  { intros x Hx. rewrite rd_insert by done. by case_decide. }
  assert (rd (<[Z.to_nat u := true]> visited) start = Ok true) as Hvs.
  { destruct Hstart as [?|Hall]; [by apply Hmono|].
    rewrite rd_insert by done. rewrite decide_True; [done|].
    symmetry. by apply Hall. }
  split; [|done]. split; try done.
  - by rewrite length_insert.
  - lia.
  - intros e He. by apply Hent, Hsub.
  - by left.
  - intros v p Hv Hp. destruct (Hpar v p Hv Hp) as [Hvp He].
    split; [by apply Hmono|done].
  - intros x. rewrite rd_insert by done.
    destruct (decide (x = u)) as [->|Hne]; [|apply Htree].
    intros _. destruct (Hent m Hmin) as [_ [Heq|(p & Hp & Hp1)]].
    + unfold u. rewrite Heq. constructor.
    + apply (tree_path_step _ _ u p); [done|done|].
      apply Htree. by apply (Hpar u p).
  - intros Hsp v Hv. rewrite rd_insert by done.
    destruct (decide (v = u)) as [->|Hne]; [done|]. intros Hvv.
    destruct (Hq Hsp v Hv Hvv) as (e & He & Hev).
    exists e. split; [|done]. rewrite Hperm in He.
    apply elem_of_cons in He as [->|He]; [done|done].
Qed.

Lemma Prims_loop_spec g start :
  wf_graph g ->
  forall fuel visited key pb h,
    prim_inv g start visited key pb h ->
    rd visited start = Ok true \/ size h <> 0 ->
    (span_ok g -> forall x y, rd visited x = Ok true -> edge g x y ->
       rd visited y = Ok true \/ has_parent pb y) ->
    (span_ok g ->
       size h + Z.of_nat (unvisited_records visited (array g)) <=
       capacity h + 1) ->
    (Z.to_nat (size h) + unvisited_records visited (array g) < fuel)%nat ->
    exists pb',
      Prims_loop fuel g visited key pb h = Ok pb' /\
      length pb' = Z.to_nat (vertices g) /\
      rd pb' start = Ok (-1) /\
      (forall v p, rd pb' v = Ok p -> p <> -1 ->
         edge g p v /\ tree_path pb' start p) /\
      (span_ok g -> forall v, reachable g start v -> v <> start ->
         has_parent pb' v).
Proof.
  intros Hwf. induction fuel as [|fuel IH];
    intros visited key pb h Hinv Hne Hcl Hroom Hfuel; [lia|].
  pose proof Hinv as [Hlv Hlk Hlp Hsh Ho Hcap Hent Hroot Hstart Hpar Htree Hkeys Hq].
  pose proof Hsh as (Hsz & Hcmax & Hlen).
  cbn [Prims_loop]. unfold Heap_isEmpty.
  destruct (Z.eqb_spec (size h) 0) as [Hz|Hnz].
  - exists pb. split; [done|]. split; [done|]. split; [done|].
    destruct Hne as [Hvs|?]; [|done]. split.
    + intros v p Hv Hp. destruct (Hpar v p Hv Hp) as [Hvp He].
      split; [done|by apply Htree].
    + intros Hsp v Hr Hvne.
      assert (rd visited v = Ok true) as Hvv.
      { apply (closed_reachable_pred g (fun x => rd visited x = Ok true))
          with (s := start); [|done|done].
        intros x y Hx Hxy. destruct (Hcl Hsp x y Hx Hxy) as [?|Hy]; [done|].
        destruct (edge_in_range g x y Hwf Hxy) as [_ Hyr].
        destruct (rd_ex visited y) as ([] & _ & Hvy); [lia|done|].
        destruct (Hq Hsp y Hy Hvy) as (e & He & _).
        pose proof (heap_entries_length h Hsh) as Hl.
        rewrite Hz in Hl. destruct (heap_entries h); [|done].
        by apply elem_of_nil in He. }
      pose proof (Htree v Hvv) as Hp.
      inversion Hp as [|? p Hvp Hp1 _]; [done|]. by exists p.
  - destruct (ExtractMin_ok h Hsh Ho) as (m & h1 & E & Hsh1 & Ho1 & Hc1 & _ & Hex).
    destruct (Hex Hnz) as [Hm Hs1].
    pose proof (ExtractMin_entries h m h1 Hsh Hnz E) as Hperm.
    rewrite E. cbn [bind].
    assert (m ∈ heap_entries h) as Hmin by (rewrite Hperm; by left).
    destruct (Hent m Hmin) as [Hu _].
    destruct (rd_ex visited (vertex m)) as (seen & _ & Hseen); [lia|].
    rewrite Hseen. cbn [bind]. destruct seen.
    + destruct (prim_skip g start visited key pb h m h1 Hinv Hsh1 Ho1 Hc1 Hperm Hseen)
        as [Hinv1 Hvs].
      apply (IH visited key pb h1); [done|by left|done| |lia].
      intros Hsp. specialize (Hroom Hsp). lia.
    + destruct (prim_visit g start visited key pb h m h1 Hinv Hsh1 Ho1 Hc1 Hperm Hseen)
        as [Hinv1 Hvs].
      set (u := vertex m) in *.
      rewrite wr_ok by lia. cbn [bind].
      destruct (rd_ex (array g) u) as (adj & Hadj & Hrd);
        [rewrite (wf_array g Hwf); lia|].
      rewrite Hrd. cbn [bind]. unfold getHead.
      assert (rd visited u = Ok false) as Hseen' by done.
      apply rd_Ok_inv in Hseen' as [_ Hlook].
      pose proof (unvisited_records_insert (array g) visited (Z.to_nat u) adj
                    Hlook Hadj) as Hrec.
      set (visited' := <[Z.to_nat u := true]> visited) in *.
      assert (rd visited' u = Ok true) as Hvu.
      { unfold visited'. rewrite rd_insert by lia. by rewrite decide_True. }
      destruct (Prims_scan_spec g start u visited' adj Hwf Hvs Hvu Hrd adj key pb h1
                  Hinv1) as (key' & pb' & h2 & Es & Hinv2 & Hs2 & Hm2 & Hcl2).
      { done. }
      { intros Hsp. specialize (Hroom Hsp). lia. }
      rewrite Es. cbn [bind].
      apply (IH visited' key' pb' h2); [done|by left| | |lia].
      * intros Hsp x y. unfold visited' at 1. rewrite rd_insert by lia.
        destruct (decide (x = u)) as [->|Hxu].
        -- intros _ (adj' & nd & Hrd' & Hnd & <-).
           assert (adj' = adj) as -> by congruence.
           by apply Hcl2.
        -- intros Hx Hxy. destruct (Hcl Hsp x y Hx Hxy) as [Hy|Hy].
           ++ left. unfold visited'. rewrite rd_insert by lia. by case_decide.
           ++ right. by apply Hm2.
      * intros Hsp. specialize (Hroom Hsp).
        rewrite (pi_capacity _ _ _ _ _ _ Hinv2). rewrite <- Hcap. lia.
Qed.

Lemma rd_replicate {A} n (x y : A) i : rd (replicate n x) i = Ok y -> y = x.
Proof.
  intros [_ H]%rd_Ok_inv. by apply lookup_replicate in H as [-> _].
Qed.

Lemma mul32_square n : 0 <= n <= MAX_VERTICES -> mul32 n n = n * n.
Proof.
  intros Hn. unfold mul32. apply wrap32_id.
  unfold MAX_VERTICES, INT_MIN, INT_MAX in *. nia.
Qed.

Lemma span_ok_intro g :
  Forall (Forall (fun nd => weight nd < INT_MAX)) (array g) ->
  Z.of_nat (total_records g) <= vertices g * vertices g ->
  span_ok g.
Proof.
  intros Hw Ht. split; [|done]. intros adj nd Hadj Hnd.
  rewrite list.Forall_forall in Hw. specialize (Hw adj Hadj).
  rewrite list.Forall_forall in Hw. by apply Hw.
Qed.

Lemma add_edges_state es : forall g g',
  graph_state g -> add_edges g es = Ok g' -> graph_state g'.
Proof.
  induction es as [|[[u v] w] es IH]; intros g g' Hg H; simpl in H.
  - by injection H as <-.
  - apply bind_Ok_inv in H as (g1 & H1 & H).
    apply (IH g1); [|done]. by apply (gs_addEdge g u v w).
Qed.

Lemma triangle_graph_wf : wf_graph triangle_graph.
Proof.
  apply graph_state_wf.
  apply (add_edges_state _ (Graph_new 3) _ (gs_new 3 ltac:(unfold INT_MAX; lia))
           triangle_graph_built).
Qed.

(** The state in which Prim's loop is entered. *)
Lemma Prims_unfold g start buffer fuel :
  vertices g <= MAX_HEAP_VERTICES -> 0 <= start < vertices g ->
  length buffer = Z.to_nat (vertices g) ->
  PrimsAlgorithm fuel g start buffer =
    (do h <- InsertKey (Heap_new (vertices g * vertices g)) start 0 ;;
     Prims_loop fuel g (all_false (vertices g))
       (<[Z.to_nat start := 0]> (replicate (Z.to_nat (vertices g)) INT_MAX))
       (replicate (Z.to_nat (vertices g)) (-1)) h).
Proof.
  intros Hn Hs Hlen. unfold PrimsAlgorithm.
  pose proof (for_up_fill (-1) buffer []) as Hfill.
  change (Z.of_nat (length [])) with 0 in Hfill. simpl in Hfill.
  rewrite Hlen in Hfill. rewrite Hfill. cbn [bind].
  rewrite wr_ok by (rewrite length_replicate; lia). cbn [bind].
  by rewrite mul32_square by (unfold MAX_HEAP_VERTICES, MAX_VERTICES in *; lia).
Qed.

Lemma Prims_init g start :
  wf_graph g -> vertices g <= MAX_HEAP_VERTICES ->
  0 <= start < vertices g ->
  exists h,
    InsertKey (Heap_new (vertices g * vertices g)) start 0 = Ok h /\
    size h = 1 /\
    heap_entries h ≡ₚ [mkHNode start 0] /\
    prim_inv g start (all_false (vertices g))
      (<[Z.to_nat start := 0]> (replicate (Z.to_nat (vertices g)) INT_MAX))
      (replicate (Z.to_nat (vertices g)) (-1)) h.
Proof.
  intros Hwf Hn Hs.
  set (n := vertices g) in *.
  destruct (Heap_new_shape (n * n)) as [Hsh0 Ho0].
  { unfold MAX_HEAP_VERTICES, MAX_CAPACITY in *. nia. }
  destruct (InsertKey_ok (Heap_new (n * n)) start 0 Hsh0 Ho0)
    as (h & E & Hsh & Ho & Hc & Hsz).
  pose proof (InsertKey_entries _ start 0 h Hsh0 E) as Hent.
  assert (heap_entries (Heap_new (n * n)) = []) as Hnil by reflexivity.
  rewrite Hnil in Hent. simpl in Hsz, Hc.
  rewrite decide_True in Hsz by nia.
  rewrite decide_True in Hent by (simpl; nia).
  simpl in Hent.
  assert (forall e, e ∈ heap_entries h -> e = mkHNode start 0) as Hone.
  { intros e He. rewrite Hent in He. by apply list_elem_of_singleton in He. }
  exists h. split; [done|]. split; [lia|]. split; [done|].
  split.
  - unfold all_false. by rewrite length_replicate.
  - by rewrite length_insert, length_replicate.
  - by rewrite length_replicate.
  - done.
  - done.
  - done.
  - intros e ->%Hone. simpl. split; [done|by left].
  - apply rd_Some; [lia|]. apply lookup_replicate. split; [done|]. fold n. lia.
  - right. by intros e ->%Hone.
  - intros v p Hv%rd_replicate Hp. done.
  - intros u Hu%rd_replicate. done.
  - intros v kv. rewrite rd_insert by (rewrite length_replicate; fold n; lia).
    destruct (decide (v = start)); [by left|]. intros Hv%rd_replicate. lia.
  - intros _ v (p & Hp%rd_replicate & Hp1). done.
Qed.

(** The whole run of Prim's algorithm: it returns, and the parent buffer is
    a tree rooted at the start vertex that, under [span_ok], reaches every
    vertex connected to it. *)
Lemma PrimsAlgorithm_spec g start buffer fuel :
  wf_graph g -> vertices g <= MAX_HEAP_VERTICES ->
  0 <= start < vertices g ->
  length buffer = Z.to_nat (vertices g) ->
  (prim_fuel g <= fuel)%nat ->
  exists pb,
    PrimsAlgorithm fuel g start buffer = Ok pb /\
    length pb = Z.to_nat (vertices g) /\
    rd pb start = Ok (-1) /\
    (forall v p, rd pb v = Ok p -> p <> -1 ->
       edge g p v /\ tree_path pb start p) /\
    (span_ok g -> forall v, reachable g start v -> v <> start ->
       has_parent pb v).
Proof.
  intros Hwf Hn Hs Hlen Hfuel.
  rewrite Prims_unfold by done.
  destruct (Prims_init g start Hwf Hn Hs) as (h & E & Hsz & Hent & Hinv).
  rewrite E. cbn [bind].
  apply (Prims_loop_spec g start Hwf); [done| | | |].
  - right. lia.
  - unfold all_false. intros _ x y Hx%rd_replicate. done.
  - intros [_ Ht]. unfold all_false.
    rewrite unvisited_records_all by (by rewrite (wf_array g Hwf)).
    fold (total_records g). rewrite (pi_capacity _ _ _ _ _ _ Hinv). lia.
  - unfold all_false.
    rewrite unvisited_records_all by (by rewrite (wf_array g Hwf)).
    fold (total_records g). unfold prim_fuel in Hfuel. lia.
Qed.

(** X13.  [Graph::PrimsAlgorithm] always returns, and the parent buffer it
    leaves is a tree rooted at the start vertex: the start keeps -1, and
    every other recorded parent [p] of [v] is a neighbour of [v] in the
    graph from which the parent links lead back to the start. *)
Theorem Prims_parent_tree g start buffer fuel :
  wf_graph g -> vertices g <= MAX_HEAP_VERTICES ->
  0 <= start < vertices g ->
  length buffer = Z.to_nat (vertices g) ->
  (prim_fuel g <= fuel)%nat ->
  exists pb,
    PrimsAlgorithm fuel g start buffer = Ok pb /\
    length pb = Z.to_nat (vertices g) /\
    rd pb start = Ok (-1) /\
    forall v p, rd pb v = Ok p -> p <> -1 ->
      edge g p v /\ tree_path pb start v /\ reachable g start v.
Proof.
  intros Hwf Hn Hs Hlen Hfuel.
  destruct (PrimsAlgorithm_spec g start buffer fuel Hwf Hn Hs Hlen Hfuel)
    as (pb & E & Hl & Hroot & Hpar & _).
  exists pb. split; [done|]. split; [done|]. split; [done|].
  intros v p Hv Hp. destruct (Hpar v p Hv Hp) as [He Ht].
  assert (tree_path pb start v) as Htv by (by apply (tree_path_step _ _ v p)).
  split; [done|]. split; [done|].
  apply (tree_path_reachable g pb); [|done].
  intros y q Hy Hq. by apply (Hpar y q).
Qed.

Lemma Prims_parent_tree_witness :
  (wf_graph triangle_graph /\ vertices triangle_graph <= MAX_HEAP_VERTICES /\
   0 <= 2 < vertices triangle_graph /\
   length [7; 8; 9] = Z.to_nat (vertices triangle_graph) /\
   (prim_fuel triangle_graph <= 8)%nat) /\
  exists pb,
    PrimsAlgorithm 8 triangle_graph 2 [7; 8; 9] = Ok pb /\
    length pb = Z.to_nat (vertices triangle_graph) /\
    rd pb 2 = Ok (-1) /\
    forall v p, rd pb v = Ok p -> p <> -1 ->
      edge triangle_graph p v /\ tree_path pb 2 v /\
      reachable triangle_graph 2 v.
Proof.
  assert (wf_graph triangle_graph /\
          vertices triangle_graph <= MAX_HEAP_VERTICES /\
          0 <= 2 < vertices triangle_graph /\
          length [7; 8; 9] = Z.to_nat (vertices triangle_graph) /\
          (prim_fuel triangle_graph <= 8)%nat) as H.
  { split; [apply triangle_graph_wf|]. split; [by vm_compute|].
    split; [simpl; lia|]. split; [reflexivity|]. vm_compute. lia. }
  split; [exact H|]. destruct H as (H1 & H2 & H3 & H4 & H5).
  exact (Prims_parent_tree triangle_graph 2 [7; 8; 9] 8 H1 H2 H3 H4 H5).
Defined.

(** X14.  When every weight is below INT_MAX and the chains hold at most
    [vertices * vertices] records (so that the heap never drops an
    insertion), the tree of [Graph::PrimsAlgorithm] spans the component of
    the start vertex: a vertex other than the start has a parent exactly
    when it is connected to the start, and every other cell keeps -1. *)
Theorem Prims_spans_component g start buffer fuel :
  wf_graph g -> vertices g <= MAX_HEAP_VERTICES ->
  0 <= start < vertices g ->
  length buffer = Z.to_nat (vertices g) ->
  (prim_fuel g <= fuel)%nat ->
  span_ok g ->
  exists pb,
    PrimsAlgorithm fuel g start buffer = Ok pb /\
    forall v, 0 <= v < vertices g ->
      rd pb v = Ok (-1) <-> (v = start \/ ~ reachable g start v).
Proof.
  intros Hwf Hn Hs Hlen Hfuel Hsp.
  destruct (PrimsAlgorithm_spec g start buffer fuel Hwf Hn Hs Hlen Hfuel)
    as (pb & E & Hl & Hroot & Hpar & Hspan).
  exists pb. split; [done|]. intros v Hv.
  destruct (rd_ex pb v) as (p & _ & Hp); [lia|]. split.
  - intros Hm. destruct (decide (v = start)) as [|Hne]; [by left|]. right.
    intros Hr. destruct (Hspan Hsp v Hr Hne) as (q & Hq & Hq1). congruence.
  - intros [->|Hnr]; [done|].
    destruct (decide (p = -1)) as [->|Hne]; [done|].
    destruct (Hpar v p Hp Hne) as [He Ht]. destruct Hnr.
    eapply rtc_r; [|exact He].
    apply (tree_path_reachable g pb); [|done].
    intros y q Hy Hq. by apply (Hpar y q).
Qed.

Lemma Prims_spans_component_witness :
  (wf_graph example_graph /\ vertices example_graph <= MAX_HEAP_VERTICES /\
   0 <= 1 < vertices example_graph /\
   length [7; 8; 9] = Z.to_nat (vertices example_graph) /\
   (prim_fuel example_graph <= 4)%nat /\ span_ok example_graph) /\
  exists pb,
    PrimsAlgorithm 4 example_graph 1 [7; 8; 9] = Ok pb /\
    forall v, 0 <= v < vertices example_graph ->
      rd pb v = Ok (-1) <-> (v = 1 \/ ~ reachable example_graph 1 v).
Proof.
  assert (wf_graph example_graph /\
          vertices example_graph <= MAX_HEAP_VERTICES /\
          0 <= 1 < vertices example_graph /\
          length [7; 8; 9] = Z.to_nat (vertices example_graph) /\
          (prim_fuel example_graph <= 4)%nat /\ span_ok example_graph) as H.
  { split; [apply example_graph_wf|]. split; [by vm_compute|].
    split; [simpl; lia|]. split; [reflexivity|]. split; [vm_compute; lia|].
    apply span_ok_intro; [|vm_compute; discriminate].
    repeat constructor. }
  split; [exact H|]. destruct H as (H1 & H2 & H3 & H4 & H5 & H6).
  exact (Prims_spans_component example_graph 1 [7; 8; 9] 4 H1 H2 H3 H4 H5 H6).
Defined.

(** * Dijkstra's algorithm with non-negative weights *)

Lemma settled_count_cons b l :
  settled_count (b :: l) = (if b : bool then 1 else 0) + settled_count l.
Proof.
  unfold settled_count. rewrite fmap_cons.
  change (sum_list (?x :: ?k)) with (x + sum_list k)%nat.
  rewrite Nat2Z.inj_add. by destruct b.
Qed.

Lemma settled_count_bounds l : 0 <= settled_count l <= Z.of_nat (length l).
Proof.
  induction l as [|b l IH]; [done|].
  rewrite settled_count_cons, length_cons. destruct b; lia.
Qed.

Lemma settled_count_insert l : forall i,
  l !! i = Some false -> settled_count (<[i := true]> l) = settled_count l + 1.
Proof.
  induction l as [|b l IH]; intros [|i] H; [done|done| |].
  - injection H as ->. change (<[0%nat:=true]> (false :: l)) with (true :: l).
    rewrite !settled_count_cons. lia.
  - change (<[S i:=true]> (b :: l)) with (b :: <[i:=true]> l).
    rewrite !settled_count_cons. rewrite (IH i H). lia.
Qed.

Lemma record_edge g u v w : record g u v w -> edge g u v.
Proof. intros (adj & Hadj & Hnd). by exists adj, (mkNode v w). Qed.

Lemma edge_record g u v : edge g u v -> exists w, record g u v w.
Proof.
  intros (adj & [d w] & Hadj & Hnd & Hd). simpl in Hd. subst d.
  exists w. by exists adj.
Qed.

Lemma walk_reachable g start v d : walk g start v d -> reachable g start v.
Proof.
  induction 1 as [|u v w d _ IH Hr]; [apply rtc_refl|].
  eapply rtc_r; [exact IH|]. by apply (record_edge g u v w).
Qed.

Lemma reachable_walk g start v :
  reachable g start v -> exists d, walk g start v d.
Proof.
  intros Hr. apply rtc_nsteps in Hr as [k Hk]. revert v Hk.
  induction k as [|k IH]; intros v Hk.
  - inversion Hk; subst. exists 0. constructor.
  - apply nsteps_inv_r in Hk as (u & Hu & He).
    destruct (IH u Hu) as [d Hd]. destruct (edge_record g u v He) as [w Hw].
    exists (d + w). by apply (walk_step g start u v w d).
Qed.

Lemma record_weight g B u v w :
  weights_ok g B -> record g u v w -> 0 <= w <= B.
Proof.
  intros (_ & Hw & _) (adj & Hadj & Hnd).
  apply rd_Ok_inv in Hadj as [_ Hadj].
  apply list_elem_of_lookup_2 in Hadj. apply (Hw adj (mkNode v w) Hadj Hnd).
Qed.

Lemma dij_relax g start B settled m dist h u v w dv :
  wf_graph g -> weights_ok g B ->
  dij_inv g start B settled m dist h ->
  rd settled u = Ok true -> rd dist u = Ok m -> record g u v w ->
  rd dist v = Ok dv -> m + w < dv -> size h < capacity h ->
  exists h',
    InsertKey h v (m + w) = Ok h' /\
    dij_inv g start B settled m (<[Z.to_nat v := m + w]> dist) h' /\
    size h' = size h + 1 /\
    rd settled v = Ok false /\ v <> u.
Proof.
  intros Hwf Hok [Hls Hld Hsh Ho Hcap Hnd Hent Hstart Hwalk Hdone Hpend]
    Hsu Hdu Hrec Hdv Hlt Hroom.
  pose proof (record_weight g B u v w Hok Hrec) as Hw.
  destruct Hok as (HB & _ & HnB & _).
  pose proof (settled_count_bounds settled) as Hcnt. rewrite Hls in Hcnt.
  pose proof (wf_vertices g Hwf) as Hn.
  destruct (Hdone u m Hsu Hdu) as [_ Hmb].
  assert (m + w <= settled_count settled * B) as Hsum by nia.
  assert (settled_count settled * B <= vertices g * B) as Hle by nia.
  assert (m <> INT_MAX) as Hmne by lia.
  destruct (Hwalk u m Hdu Hmne) as [Hwu Hm0].
  apply rd_Ok_inv in Hdv as Hv. destruct Hv as [Hv _]. rewrite Hld in Hv.
  assert (rd settled v = Ok false) as Hsv.
  { destruct (rd_ex settled v) as ([] & _ & Hb); [lia| |done].
    destruct (Hdone v dv Hb Hdv) as [? _]. lia. }
  assert (v <> u) as Hvu by congruence.
  assert (v <> start) as Hvs.
  { intros ->. assert (dv = 0) by congruence. lia. }
  destruct (InsertKey_ok h v (m + w) Hsh Ho) as (h' & E & Hsh' & Ho' & Hc' & Hs').
  pose proof (InsertKey_entries h v (m + w) h' Hsh E) as Hent'.
  rewrite decide_True in Hs' by done. rewrite decide_True in Hent' by done.
  simpl in Hent'.
  exists h'. split; [done|]. split; [|done].
  split.
  - done.
  - by rewrite length_insert.
  - done.
  - done.
  - lia.
  - rewrite Hent'. apply NoDup_cons_2; [|done].
    intros Hin. destruct (Hent _ Hin) as (_ & _ & d & Hd & Hdk & _).
    simpl in Hd, Hdk. assert (d = dv) by congruence. lia.
  - intros e He. rewrite Hent' in He.
    apply elem_of_cons in He as [->|He]; simpl.
    + split; [lia|]. split; [lia|]. exists (m + w).
      rewrite rd_insert by lia. rewrite decide_True by done.
      split; [done|]. split; [lia|]. split; [lia|]. congruence.
    + destruct (Hent e He) as (Hr & Hmk & d & Hd & Hdk & Hdne & Hds).
      split; [done|]. split; [done|].
      rewrite rd_insert by lia.
      destruct (decide (vertex e = v)) as [Ev|Ev].
      * exists (m + w). rewrite Ev in Hd. assert (d = dv) by congruence.
        split; [done|]. split; [lia|]. split; [lia|]. rewrite Ev. congruence.
      * by exists d.
  - rewrite rd_insert by lia. by rewrite decide_False.
  - intros x d. rewrite rd_insert by lia.
    destruct (decide (x = v)) as [->|Ex]; [|apply Hwalk].
    intros Hd _. assert (d = m + w) as -> by congruence.
    split; [by apply (walk_step g start u v w m)|lia].
  - intros x d Hx. rewrite rd_insert by lia.
    destruct (decide (x = v)) as [->|Ex]; [congruence|]. by apply Hdone.
  - intros x d Hx. rewrite rd_insert by lia.
    destruct (decide (x = v)) as [->|Ex].
    + intros Hd _. assert (d = m + w) as -> by congruence.
      rewrite Hent'. by left.
    + intros Hd Hdne. rewrite Hent'. right. by apply Hpend.
Qed.

Lemma Dijkstra_scan_spec g start B settled m u adj :
  wf_graph g -> weights_ok g B ->
  rd settled u = Ok true -> rd (array g) u = Ok adj ->
  forall temp dist h,
    dij_inv g start B settled m dist h ->
    rd dist u = Ok m ->
    (forall nd, nd ∈ temp -> nd ∈ adj) ->
    size h + Z.of_nat (length temp) <= capacity h ->
    exists dist' h',
      Dijkstra_scan temp u dist h = Ok (dist', h') /\
      dij_inv g start B settled m dist' h' /\
      size h' <= size h + Z.of_nat (length temp) /\
      (forall x dx, rd dist x = Ok dx ->
         exists dx', rd dist' x = Ok dx' /\ dx' <= dx /\
                     (rd settled x = Ok true -> dx' = dx)) /\
      (forall nd, nd ∈ temp ->
         exists dv, rd dist' (destination nd) = Ok dv /\
                    dv <= m + weight nd).
Proof.
  intros Hwf Hok Hsu Hadj.
  assert (adj ∈ array g) as Hin.
  { apply rd_Ok_inv in Hadj as [_ Hadj']. by eapply list_elem_of_lookup_2. }
  pose proof (proj1 (list.Forall_forall _ _) (wf_dest g Hwf) adj Hin) as Hdest.
  induction temp as [|[v w] next IH]; intros dist h Hinv Hdu Hsub Hroom.
  - exists dist, h. simpl. split; [done|]. split; [done|]. split; [lia|].
    split; [|by intros nd ?%elem_of_nil].
    intros x dx Hx. by exists dx.
  - assert (mkNode v w ∈ adj) as Hnd by (apply Hsub; by left).
    assert (record g u v w) as Hrec by (by exists adj).
    pose proof (proj1 (list.Forall_forall _ _) Hdest _ Hnd) as Hv.
    simpl in Hv.
    assert (forall nd, nd ∈ next -> nd ∈ adj) as Hsub'
      by (intros nd ?; apply Hsub; by right).
    pose proof Hinv as [Hls Hld Hsh Ho Hcap _ _ _ Hwalk Hdone _].
    pose proof (record_weight g B u v w Hok Hrec) as Hw.
    pose proof Hok as (HB & _ & HnB & _).
    pose proof (settled_count_bounds settled) as Hcnt. rewrite Hls in Hcnt.
    pose proof (wf_vertices g Hwf) as Hn.
    destruct (Hdone u m Hsu Hdu) as [_ Hmb].
    assert (m + w <= settled_count settled * B) as Hsum by nia.
    assert (settled_count settled * B <= vertices g * B) as Hle by nia.
    assert (m <> INT_MAX) as Hmne by lia.
    destruct (Hwalk u m Hdu Hmne) as [_ Hm0].
    simpl in Hroom.
    destruct (rd_ex dist v) as (dv & _ & Hdv); [lia|].
    cbn [Dijkstra_scan destination weight]. rewrite Hdu. cbn [bind].
    destruct (Z.eqb_spec m INT_MAX) as [|_]; [done|]. cbn [negb].
    rewrite Hdv. cbn [bind].
    assert (add32 m w = m + w) as ->.
    { apply wrap32_id. unfold INT_MIN, INT_MAX in *. lia. }
    destruct (Z.ltb_spec (m + w) dv) as [Hlt|Hge].
    + destruct (dij_relax g start B settled m dist h u v w dv)
        as (h1 & E1 & Hinv1 & Hs1 & Hsv & Hvu); try done; [lia|].
      rewrite wr_ok by lia. cbn [bind].
      rewrite rd_insert by lia. rewrite decide_True by done. cbn [bind].
      rewrite E1. cbn [bind].
      destruct (IH _ _ Hinv1) as (dist' & h' & E & Hinv' & Hs & Hm & Hrel);
        [|done| |].
      { rewrite rd_insert by lia. by rewrite decide_False. }
      { rewrite (dj_capacity _ _ _ _ _ _ _ Hinv1). rewrite <- Hcap. lia. }
      exists dist', h'. split; [done|]. split; [done|].
      split; [simpl; lia|]. split.
      * intros x dx Hx.
        destruct (decide (x = v)) as [->|Hxv].
        -- destruct (Hm v (m + w)) as (dx' & Hdx' & Hle' & _).
           { rewrite rd_insert by lia. by rewrite decide_True. }
           assert (dx = dv) by congruence.
           exists dx'. split; [done|]. split; [lia|]. congruence.
        -- apply Hm. rewrite rd_insert by lia. by rewrite decide_False.
      * intros nd [->|Hnx]%elem_of_cons; [|by apply Hrel]. simpl.
        destruct (Hm v (m + w)) as (dx' & Hdx' & Hle' & _).
        { rewrite rd_insert by lia. by rewrite decide_True. }
        by exists dx'.
    + destruct (IH dist h Hinv Hdu Hsub') as (dist' & h' & E & Hinv' & Hs & Hm & Hrel);
        [lia|].
      exists dist', h'. split; [done|]. split; [done|].
      split; [simpl; lia|]. split; [done|].
      intros nd [->|Hnx]%elem_of_cons; [|by apply Hrel]. simpl.
      destruct (Hm v dv Hdv) as (dx' & Hdx' & Hle' & _).
      exists dx'. split; [done|lia].
Qed.

Lemma dij_skip g start B settled m dist h e h1 :
  dij_inv g start B settled m dist h ->
  heap_shape h1 -> heap_ordered h1 -> capacity h1 = capacity h ->
  heap_entries h ≡ₚ e :: heap_entries h1 ->
  (forall e', e' ∈ heap_entries h -> key e <= key e') ->
  (forall d, rd dist (vertex e) = Ok d -> d < key e) ->
  dij_inv g start B settled (key e) dist h1.
Proof.
  intros [Hls Hld Hsh Ho Hcap Hnd Hent Hstart Hwalk Hdone Hpend]
    Hsh1 Ho1 Hc1 Hperm Hleast Hstale.
  assert (forall e', e' ∈ heap_entries h1 -> e' ∈ heap_entries h) as Hsub.
  { intros e' He. rewrite Hperm. by right. }
  assert (e ∈ heap_entries h) as Hein by (rewrite Hperm; by left).
  destruct (Hent e Hein) as (_ & Hme & _).
  split; try done.
  - lia.
  - rewrite Hperm in Hnd. by apply NoDup_cons_1_2 in Hnd.
  - intros e' He'. destruct (Hent e' (Hsub e' He')) as (Hr & _ & Hd).
    split; [done|]. split; [by apply Hleast, Hsub|done].
  - intros u d Hu Hd. destruct (Hdone u d Hu Hd). split; [lia|done].
  - intros u d Hu Hd Hdne. pose proof (Hpend u d Hu Hd Hdne) as Hin.
    rewrite Hperm in Hin. apply elem_of_cons in Hin as [<-|Hin]; [|done].
    simpl in Hstale. specialize (Hstale d Hd). simpl in Hstale. lia.
Qed.

Lemma dij_settle g start B settled m dist h e h1 :
  0 <= B ->
  dij_inv g start B settled m dist h ->
  heap_shape h1 -> heap_ordered h1 -> capacity h1 = capacity h ->
  heap_entries h ≡ₚ e :: heap_entries h1 ->
  (forall e', e' ∈ heap_entries h -> key e <= key e') ->
  rd dist (vertex e) = Ok (key e) ->
  dij_inv g start B (<[Z.to_nat (vertex e) := true]> settled) (key e) dist h1 /\
  rd settled (vertex e) = Ok false.
Proof.
  intros HB [Hls Hld Hsh Ho Hcap Hnd Hent Hstart Hwalk Hdone Hpend]
    Hsh1 Ho1 Hc1 Hperm Hleast Hdu.
  assert (forall e', e' ∈ heap_entries h1 -> e' ∈ heap_entries h) as Hsub.
  { intros e' He. rewrite Hperm. by right. }
  assert (e ∈ heap_entries h) as Hein by (rewrite Hperm; by left).
  destruct (Hent e Hein) as (Hu & Hme & d0 & Hd0 & _ & Hd0ne & Hd0s).
  assert (d0 = key e) as -> by congruence.
  assert (rd settled (vertex e) = Ok false) as Hsu.
  { destruct (rd_ex settled (vertex e)) as ([] & _ & Hb); [lia| |done].
    specialize (Hd0s Hb). lia. }
  split; [|done].
  rewrite Hperm in Hnd. apply NoDup_cons in Hnd as [Hnotin Hnd1].
  apply rd_Ok_inv in Hsu as Hsu'. destruct Hsu' as [_ Hlook].
  pose proof (settled_count_insert settled _ Hlook) as Hcnt.
  pose proof (settled_count_bounds settled) as Hc0.
  set (u := vertex e) in *.
  split; try done.
  - by rewrite length_insert.
  - lia.
  - intros e' He'.
    destruct (Hent e' (Hsub e' He')) as (Hr & _ & d & Hd & Hdk & Hdne & Hds).
    split; [done|]. split; [by apply Hleast, Hsub|].
    exists d. split; [done|]. split; [done|]. split; [done|].
    rewrite rd_insert by lia.
    destruct (decide (vertex e' = u)) as [Ev|Ev]; [|done].
    intros _. rewrite Ev in Hd. assert (d = key e) as -> by congruence.
    destruct (decide (key e' = key e)) as [Ek|Ek]; [|lia].
    destruct Hnotin. replace e with e'; [done|].
    destruct e, e'. unfold u in Ev. simpl in *. congruence.
  - intros v d Hv Hdne. destruct (Hwalk v d Hv Hdne) as [? ?].
    split; [done|]. rewrite Hcnt. nia.
  - intros x d. rewrite rd_insert by lia.
    destruct (decide (x = u)) as [->|Ex].
    + intros _ Hd. assert (d = key e) as -> by congruence.
      destruct (Hwalk u (key e) Hdu Hd0ne) as [_ ?].
      split; [lia|]. rewrite Hcnt. lia.
    + intros Hx Hd. destruct (Hdone x d Hx Hd). split; [lia|].
      rewrite Hcnt. nia.
  - intros x d. rewrite rd_insert by lia.
    destruct (decide (x = u)) as [->|Ex]; [done|].
    intros Hx Hd Hdne. pose proof (Hpend x d Hx Hd Hdne) as Hin.
    rewrite Hperm in Hin. apply elem_of_cons in Hin as [Heq|Hin]; [|done].
    destruct Ex. unfold u. by rewrite <- Heq.
Qed.

Lemma Dijkstra_loop_spec g start B :
  wf_graph g -> weights_ok g B ->
  forall fuel settled m dist h,
    dij_inv g start B settled m dist h ->
    (forall x v w, rd settled x = Ok true -> record g x v w ->
       exists dx dv, rd dist x = Ok dx /\ rd dist v = Ok dv /\ dv <= dx + w) ->
    size h + Z.of_nat (unvisited_records settled (array g)) <=
      capacity h + 1 ->
    (Z.to_nat (size h) + unvisited_records settled (array g) < fuel)%nat ->
    exists dist',
      Dijkstra_loop fuel g dist h = Ok dist' /\
      length dist' = Z.to_nat (vertices g) /\
      (forall v d, rd dist' v = Ok d -> d <> INT_MAX ->
         walk g start v d /\ d < INT_MAX) /\
      (forall v s, walk g start v s ->
         exists d, rd dist' v = Ok d /\ d <> INT_MAX /\ d <= s).
Proof.
  intros Hwf Hok. induction fuel as [|fuel IH];
    intros settled m dist h Hinv Hrel Hroom Hfuel; [lia|].
  pose proof Hinv as [Hls Hld Hsh Ho Hcap Hnd Hent Hstart Hwalk Hdone Hpend].
  pose proof Hsh as (Hsz & Hcmax & Hlen).
  pose proof Hok as (HB & _ & HnB & _).
  cbn [Dijkstra_loop]. unfold Heap_isEmpty.
  destruct (Z.eqb_spec (size h) 0) as [Hz|Hnz].
  - pose proof (settled_count_bounds settled) as Hcnt. rewrite Hls in Hcnt.
    pose proof (wf_vertices g Hwf) as Hn.
    exists dist. split; [done|]. split; [done|]. split.
    { intros v d Hv Hd. destruct (Hwalk v d Hv Hd) as [? ?].
      split; [done|nia]. }
    assert (heap_entries h = []) as Hnil.
    { pose proof (heap_entries_length h Hsh) as Hl.
      rewrite Hz in Hl. by destruct (heap_entries h). }
    induction 1 as [|u v w d _ IHw Hr].
    + exists 0. split; [done|]. split; [done|lia].
    + destruct IHw as (du & Hdu & Hdne & Hle).
      apply rd_Ok_inv in Hdu as Hu. destruct Hu as [Hu _]. rewrite Hld in Hu.
      destruct (rd_ex settled u) as ([] & _ & Hb); [lia| |].
      * destruct (Hrel u v w Hb Hr) as (dx & dv & Hdx & Hdv & Hvle).
        assert (dx = du) as -> by congruence.
        destruct (Hdone u du Hb Hdu) as [_ Hdb].
        pose proof (record_weight g B u v w Hok Hr) as Hw.
        exists dv. split; [done|]. split; [nia|lia].
      * pose proof (Hpend u du Hb Hdu Hdne) as Hin. rewrite Hnil in Hin.
        by apply elem_of_nil in Hin.
  - destruct (ExtractMin_ok h Hsh Ho) as (e & h1 & E & Hsh1 & Ho1 & Hc1 & _ & Hex).
    destruct (Hex Hnz) as [He Hs1].
    pose proof (ExtractMin_entries h e h1 Hsh Hnz E) as Hperm.
    pose proof (heap_entries_least h e Hsh Ho He) as Hleast.
    rewrite E. cbn [bind].
    assert (e ∈ heap_entries h) as Hein by (rewrite Hperm; by left).
    destruct (Hent e Hein) as (Hu & _ & du & Hdu & Hdk & _).
    rewrite Hdu. cbn [bind].
    destruct (Z.gtb_spec (key e) du) as [Hgt|Hle].
    + apply (IH settled (key e) dist h1); [|done|lia|lia].
      apply (dij_skip g start B settled m dist h e h1); try done.
      intros d Hd. assert (d = du) by congruence. lia.
    + assert (du = key e) as -> by lia.
      destruct (dij_settle g start B settled m dist h e h1 HB Hinv Hsh1 Ho1 Hc1
                  Hperm Hleast Hdu) as [Hinv1 Hsu].
      set (u := vertex e) in *.
      destruct (rd_ex (array g) u) as (adj & Hadj & Hrd);
        [rewrite (wf_array g Hwf); lia|].
      rewrite Hrd. cbn [bind]. unfold getHead.
      apply rd_Ok_inv in Hsu as Hsu'. destruct Hsu' as [_ Hlook].
      pose proof (unvisited_records_insert (array g) settled (Z.to_nat u) adj
                    Hlook Hadj) as Hrec.
      set (settled' := <[Z.to_nat u := true]> settled) in *.
      assert (forall x, rd settled x = Ok true -> rd settled' x = Ok true)
        as Hmono.
      { intros x Hx. unfold settled'. rewrite rd_insert by lia. by case_decide. }
      assert (rd settled' u = Ok true) as Hsu1.
      { unfold settled'. rewrite rd_insert by lia. by rewrite decide_True. }
      destruct (Dijkstra_scan_spec g start B settled' (key e) u adj Hwf Hok Hsu1
                  Hrd adj dist h1 Hinv1 Hdu)
        as (dist' & h2 & Es & Hinv2 & Hs2 & Hm2 & Hrel2); [done|lia|].
      rewrite Es. cbn [bind].
      apply (IH settled' (key e) dist' h2); [done| | |lia].
      * intros x v w. unfold settled' at 1. rewrite rd_insert by lia.
        destruct (decide (x = u)) as [->|Hxu].
        -- intros _ Hr. destruct Hr as (adj' & Hrd' & Hin').
           assert (adj' = adj) as -> by congruence.
           destruct (Hrel2 _ Hin') as (dv & Hdv & Hvle). simpl in Hdv, Hvle.
           destruct (Hm2 u (key e) Hdu) as (du' & Hdu' & _ & Heq).
           rewrite (Heq Hsu1) in Hdu'.
           by exists (key e), dv.
        -- intros Hx Hr. destruct (Hrel x v w Hx Hr) as (dx & dv & Hdx & Hdv & Hvle).
           destruct (Hm2 x dx Hdx) as (dx' & Hdx' & _ & Heq).
           rewrite (Heq (Hmono x Hx)) in Hdx'.
           destruct (Hm2 v dv Hdv) as (dv' & Hdv' & Hle' & _).
           exists dx, dv'. split; [done|]. split; [done|lia].
      * rewrite (dj_capacity _ _ _ _ _ _ _ Hinv2). rewrite <- Hcap. lia.
Qed.

Lemma weights_ok_intro g B :
  0 <= B ->
  Forall (Forall (fun nd => 0 <= weight nd <= B)) (array g) ->
  vertices g * B < INT_MAX ->
  Z.of_nat (total_records g) <= vertices g * vertices g ->
  weights_ok g B.
Proof.
  intros HB Hw Hn Ht. split; [done|]. split; [|done]. intros adj nd Hadj Hnd.
  rewrite list.Forall_forall in Hw. specialize (Hw adj Hadj).
  rewrite list.Forall_forall in Hw. by apply Hw.
Qed.

(** X15.  Dijkstra's algorithm is correct on graphs with weights in
    [0, B], [vertices * B < INT_MAX] and at most [vertices * vertices]
    records: it returns, every vertex connected to the start holds the least
    total weight of a walk from the start, and every other vertex holds
    INT_MAX. *)
Theorem Dijkstra_shortest_paths g start buffer fuel B :
  wf_graph g -> vertices g <= MAX_HEAP_VERTICES ->
  0 <= start < vertices g ->
  length buffer = Z.to_nat (vertices g) ->
  weights_ok g B ->
  (dijkstra_fuel g <= fuel)%nat ->
  exists dist,
    DijkstraAlgorithm fuel g start buffer = Ok dist /\
    length dist = Z.to_nat (vertices g) /\
    forall v, 0 <= v < vertices g ->
      (reachable g start v ->
         exists d, rd dist v = Ok d /\ d < INT_MAX /\ shortest g start v d) /\
      (~ reachable g start v -> rd dist v = Ok INT_MAX).
Proof.
  intros Hwf Hn Hs Hlen Hok Hfuel. unfold DijkstraAlgorithm.
  pose proof (for_up_fill INT_MAX buffer []) as Hfill.
  change (Z.of_nat (length [])) with 0 in Hfill. simpl in Hfill.
  rewrite Hlen in Hfill. rewrite Hfill. cbn [bind].
  rewrite wr_ok by (rewrite length_replicate; lia). cbn [bind].
  rewrite mul32_square by (unfold MAX_HEAP_VERTICES, MAX_VERTICES in *; lia).
  set (n := vertices g) in *.
  destruct (Heap_new_shape (n * n)) as [Hsh0 Ho0].
  { unfold MAX_HEAP_VERTICES, MAX_CAPACITY in *. nia. }
  destruct (InsertKey_ok (Heap_new (n * n)) start 0 Hsh0 Ho0)
    as (h & E & Hsh & Ho & Hc & Hsz).
  pose proof (InsertKey_entries _ start 0 h Hsh0 E) as Hent.
  assert (heap_entries (Heap_new (n * n)) = []) as Hnil by reflexivity.
  rewrite Hnil in Hent. simpl in Hsz, Hc.
  rewrite decide_True in Hsz by nia.
  rewrite decide_True in Hent by (simpl; nia).
  rewrite E. cbn [bind]. simpl in Hent.
  assert (forall e, e ∈ heap_entries h -> e = mkHNode start 0) as Hone.
  { intros e He. rewrite Hent in He. by apply list_elem_of_singleton in He. }
  pose proof Hok as (HB & _ & HnB & Hrec).
  pose proof (settled_count_bounds (all_false n)) as Hcnt.
  set (dist0 := <[Z.to_nat start := 0]> (replicate (Z.to_nat n) INT_MAX)).
  assert (forall v d, rd dist0 v = Ok d -> d <> INT_MAX -> v = start /\ d = 0)
    as Hd0.
  { intros v d. unfold dist0.
    rewrite rd_insert by (rewrite length_replicate; lia).
    case_decide as Ev; [intros Hd _; split; [done|congruence]|].
    by intros ->%rd_replicate. }
  destruct (Dijkstra_loop_spec g start B Hwf Hok fuel (all_false n) 0 dist0 h)
    as (dist & Erun & Hl & Hsound & Hleast).
  - split.
    + unfold all_false. by rewrite length_replicate.
    + unfold dist0. by rewrite length_insert, length_replicate.
    + done.
    + done.
    + done.
    + rewrite Hent. apply NoDup_singleton.
    + intros e ->%Hone. simpl. split; [done|]. split; [done|].
      exists 0. split.
      { unfold dist0. rewrite rd_insert by (rewrite length_replicate; lia).
        by rewrite decide_True. }
      split; [done|]. split; [done|].
      unfold all_false. by intros ?%rd_replicate.
    + unfold dist0. rewrite rd_insert by (rewrite length_replicate; lia).
      by rewrite decide_True.
    + intros v d Hv Hd. destruct (Hd0 v d Hv Hd) as [-> ->].
      split; [constructor|nia].
    + unfold all_false. by intros u d ?%rd_replicate.
    + intros u d _ Hu Hd. destruct (Hd0 u d Hu Hd) as [-> ->].
      rewrite Hent. by left.
  - unfold all_false. by intros x v w ?%rd_replicate.
  - unfold all_false.
    rewrite unvisited_records_all by (by rewrite (wf_array g Hwf)).
    fold (total_records g). fold n in Hrec. lia.
  - unfold all_false.
    rewrite unvisited_records_all by (by rewrite (wf_array g Hwf)).
    fold (total_records g). unfold dijkstra_fuel in Hfuel. lia.
  - exists dist. split; [done|]. split; [done|]. intros v Hv. split.
    + intros Hr. destruct (reachable_walk g start v Hr) as [s Hw].
      destruct (Hleast v s Hw) as (d & Hd & Hdne & _).
      destruct (Hsound v d Hd Hdne) as [Hwd Hlt].
      exists d. split; [done|]. split; [done|]. split; [done|].
      intros s' Hs'. destruct (Hleast v s' Hs') as (d' & Hd' & _ & Hle).
      assert (d' = d) as -> by congruence. done.
    + intros Hnr. destruct (rd_ex dist v) as (d & _ & Hd); [lia|].
      destruct (decide (d = INT_MAX)) as [->|Hdne]; [done|].
      destruct Hnr. apply (walk_reachable g start v d). by apply Hsound.
Qed.

Lemma Dijkstra_shortest_paths_witness :
  (wf_graph triangle_graph /\ vertices triangle_graph <= MAX_HEAP_VERTICES /\
   0 <= 0 < vertices triangle_graph /\
   length [7; 8; 9] = Z.to_nat (vertices triangle_graph) /\
   weights_ok triangle_graph 1 /\
   (dijkstra_fuel triangle_graph <= 8)%nat) /\
  exists dist,
    DijkstraAlgorithm 8 triangle_graph 0 [7; 8; 9] = Ok dist /\
    length dist = Z.to_nat (vertices triangle_graph) /\
    forall v, 0 <= v < vertices triangle_graph ->
      (reachable triangle_graph 0 v ->
         exists d, rd dist v = Ok d /\ d < INT_MAX /\
                   shortest triangle_graph 0 v d) /\
      (~ reachable triangle_graph 0 v -> rd dist v = Ok INT_MAX).
Proof.
  assert (wf_graph triangle_graph /\
          vertices triangle_graph <= MAX_HEAP_VERTICES /\
          0 <= 0 < vertices triangle_graph /\
          length [7; 8; 9] = Z.to_nat (vertices triangle_graph) /\
          weights_ok triangle_graph 1 /\
          (dijkstra_fuel triangle_graph <= 8)%nat) as H.
  { split; [apply triangle_graph_wf|]. split; [by vm_compute|].
    split; [simpl; lia|]. split; [reflexivity|]. split; [|vm_compute; lia].
    apply weights_ok_intro; [lia| |by vm_compute|vm_compute; discriminate].
    repeat constructor; simpl; lia. }
  split; [exact H|]. destruct H as (H1 & H2 & H3 & H4 & H5 & H6).
  exact (Dijkstra_shortest_paths triangle_graph 0 [7; 8; 9] 8 1 H1 H2 H3 H4 H5 H6).
Defined.

(** * A start vertex outside the graph *)

Lemma rd_out {A} (a : list A) i :
  i < 0 \/ Z.of_nat (length a) <= i -> rd a i = OutOfBounds.
Proof.
  intros Hi. unfold rd. destruct (Z.leb_spec 0 i); [|done].
  rewrite (proj2 (lookup_ge_None a (Z.to_nat i))); [done|lia].
Qed.

Lemma wr_out {A} (a : list A) i x :
  i < 0 \/ Z.of_nat (length a) <= i -> wr a i x = OutOfBounds.
Proof.
  intros Hi. unfold wr. destruct (Z.leb_spec 0 i); [|done].
  rewrite (proj2 (lookup_ge_None a (Z.to_nat i))); [done|lia].
Qed.

(** X16.  None of the four algorithms checks its start vertex: with a start
    below 0 or at least [vertices], each of them accesses an array outside
    its bounds (BFS when it marks the start, DFS when it tests the mark of
    the popped start, Prim and Dijkstra when they store the key or distance
    0 of the start). *)
Theorem start_out_of_range_faults g start buffer fuel :
  start < 0 \/ vertices g <= start ->
  length buffer = Z.to_nat (vertices g) ->
  BFS fuel g start buffer = OutOfBounds /\
  DFS (S fuel) g start buffer = OutOfBounds /\
  PrimsAlgorithm fuel g start buffer = OutOfBounds /\
  DijkstraAlgorithm fuel g start buffer = OutOfBounds.
Proof.
  intros Hs Hlen.
  assert (forall {A} (x : A),
            start < 0 \/ Z.of_nat (length (replicate (Z.to_nat (vertices g)) x))
                         <= start) as Hout.
  { intros A x. rewrite length_replicate. lia. }
  split; [|split; [|split]].
  - unfold BFS, all_false. by rewrite wr_out.
  - unfold DFS, all_false. cbn [DFS_loop Stack.isEmpty Stack.push Stack.empty].
    unfold DFS_body. cbn [Stack.top Stack.push Stack.empty].
    by rewrite rd_out.
  - unfold PrimsAlgorithm.
    pose proof (for_up_fill (-1) buffer []) as Hfill.
    change (Z.of_nat (length [])) with 0 in Hfill. simpl in Hfill.
    rewrite Hlen in Hfill. rewrite Hfill. cbn [bind]. by rewrite wr_out.
  - unfold DijkstraAlgorithm.
    pose proof (for_up_fill INT_MAX buffer []) as Hfill.
    change (Z.of_nat (length [])) with 0 in Hfill. simpl in Hfill.
    rewrite Hlen in Hfill. rewrite Hfill. cbn [bind]. by rewrite wr_out.
Qed.

Lemma start_out_of_range_faults_witness :
  (3 < 0 \/ vertices example_graph <= 3) /\
  length [7; 8; 9] = Z.to_nat (vertices example_graph) /\
  BFS 10 example_graph 3 [7; 8; 9] = OutOfBounds /\
  DFS 11 example_graph 3 [7; 8; 9] = OutOfBounds /\
  PrimsAlgorithm 10 example_graph 3 [7; 8; 9] = OutOfBounds /\
  DijkstraAlgorithm 10 example_graph 3 [7; 8; 9] = OutOfBounds.
Proof.
  assert (3 < 0 \/ vertices example_graph <= 3) as H1 by (right; simpl; lia).
  assert (length [7; 8; 9] = Z.to_nat (vertices example_graph)) as H2
    by reflexivity.
  split; [exact H1|]. split; [exact H2|].
  exact (start_out_of_range_faults example_graph 3 [7; 8; 9] 10 H1 H2).
Defined.

(** * Dijkstra's algorithm with any weights *)

Lemma dist_slack_nonneg dist :
  Forall (fun d => INT_MIN <= d <= INT_MAX) dist -> 0 <= dist_slack dist.
Proof.
  induction 1 as [|d dist Hd _ IH]; simpl; [done|]. lia.
Qed.

Lemma dist_slack_insert dist : forall i old x,
  dist !! i = Some old ->
  dist_slack (<[i := x]> dist) = dist_slack dist - old + x.
Proof.
  induction dist as [|d dist IH]; intros [|i] old x H; simpl in *; try done.
  - injection H as ->. lia.
  - rewrite (IH i old x H). lia.
Qed.

Lemma Dijkstra_scan_safe g start u adj :
  wf_graph g -> 0 <= u < vertices g -> reachable g start u ->
  rd (array g) u = Ok adj ->
  forall temp dist h,
    dij_safe g start dist h ->
    (forall nd, nd ∈ temp -> nd ∈ adj) ->
    exists dist' h',
      Dijkstra_scan temp u dist h = Ok (dist', h') /\
      dij_safe g start dist' h' /\
      size h' + dist_slack dist' <= size h + dist_slack dist.
Proof.
  intros Hwf Hu Hru Hadj.
  assert (adj ∈ array g) as Hin.
  { apply rd_Ok_inv in Hadj as [_ Hadj']. by eapply list_elem_of_lookup_2. }
  pose proof (proj1 (list.Forall_forall _ _) (wf_dest g Hwf) adj Hin) as Hdest.
  induction temp as [|[v w] next IH]; intros dist h Hinv Hsub.
  - exists dist, h. simpl. split; [done|]. split; [done|lia].
  - assert (mkNode v w ∈ adj) as Hnd by (apply Hsub; by left).
    pose proof (proj1 (list.Forall_forall _ _) Hdest _ Hnd) as Hv.
    simpl in Hv.
    assert (forall nd, nd ∈ next -> nd ∈ adj) as Hsub'
      by (intros nd ?; apply Hsub; by right).
    pose proof Hinv as [Hld Hrange Hsh Ho Hent Hreach].
    destruct (rd_ex dist u) as (du & _ & Hdu); [lia|].
    destruct (rd_ex dist v) as (dv & Hlook & Hdv); [lia|].
    cbn [Dijkstra_scan destination weight]. rewrite Hdu. cbn [bind].
    destruct (Z.eqb_spec du INT_MAX) as [Hinf|Hfin]; cbn [negb bind].
    { by apply IH. }
    rewrite Hdv. cbn [bind].
    destruct (Z.ltb_spec (add32 du w) dv) as [Hlt|Hge]; [|by apply IH].
    rewrite wr_ok by lia. cbn [bind].
    rewrite rd_insert by lia. rewrite decide_True by done. cbn [bind].
    destruct (InsertKey_ok h v (add32 du w) Hsh Ho)
      as (h1 & E1 & Hsh1 & Ho1 & Hc1 & Hs1).
    pose proof (InsertKey_entries h v (add32 du w) h1 Hsh E1) as Hent1.
    rewrite E1. cbn [bind].
    pose proof (wrap32_range (du + w)) as Hwr. fold (add32 du w) in Hwr.
    destruct (IH (<[Z.to_nat v := add32 du w]> dist) h1) as
      (dist' & h' & E & Hinv' & Hpot); [|done|].
    + split.
      * by rewrite length_insert.
      * apply Forall_insert; [done|lia].
      * done.
      * done.
      * intros e He. rewrite Hent1 in He.
        apply elem_of_app in He as [He|He]; [|by apply Hent].
        case_decide; [|by apply elem_of_nil in He].
        apply list_elem_of_singleton in He as ->. simpl. lia.
      * intros x d. rewrite rd_insert by lia.
        destruct (decide (x = v)) as [->|Ex]; [|apply Hreach].
        intros _ _. eapply rtc_r; [exact Hru|]. by exists adj, (mkNode v w).
    + exists dist', h'. split; [done|]. split; [done|].
      rewrite (dist_slack_insert dist _ dv) in Hpot by done.
      case_decide; lia.
Qed.

Lemma Dijkstra_loop_safe g start :
  wf_graph g ->
  forall fuel dist h,
    dij_safe g start dist h ->
    (Z.to_nat (size h + dist_slack dist) < fuel)%nat ->
    exists dist',
      Dijkstra_loop fuel g dist h = Ok dist' /\
      length dist' = Z.to_nat (vertices g) /\
      Forall (fun d => INT_MIN <= d <= INT_MAX) dist' /\
      (forall v d, rd dist' v = Ok d -> d <> INT_MAX -> reachable g start v).
Proof.
  intros Hwf. induction fuel as [|fuel IH]; intros dist h Hinv Hfuel; [lia|].
  pose proof Hinv as [Hld Hrange Hsh Ho Hent Hreach].
  pose proof Hsh as (Hsz & Hcmax & Hlen).
  pose proof (dist_slack_nonneg dist Hrange) as Hsl.
  cbn [Dijkstra_loop]. unfold Heap_isEmpty.
  destruct (Z.eqb_spec (size h) 0) as [Hz|Hnz].
  - by exists dist.
  - destruct (ExtractMin_ok h Hsh Ho) as (e & h1 & E & Hsh1 & Ho1 & Hc1 & _ & Hex).
    destruct (Hex Hnz) as [He Hs1].
    pose proof (ExtractMin_entries h e h1 Hsh Hnz E) as Hperm.
    rewrite E. cbn [bind].
    assert (e ∈ heap_entries h) as Hein by (rewrite Hperm; by left).
    pose proof (Hent e Hein) as Hu.
    assert (dij_safe g start dist h1) as Hinv1.
    { split; try done. intros e' He'. apply Hent. rewrite Hperm. by right. }
    destruct (rd_ex dist (vertex e)) as (du & _ & Hdu); [lia|].
    rewrite Hdu. cbn [bind].
    destruct (Z.gtb_spec (key e) du) as [Hgt|Hle].
    + apply (IH dist h1); [done|lia].
    + destruct (rd_ex (array g) (vertex e)) as (adj & _ & Hrd);
        [rewrite (wf_array g Hwf); lia|].
      rewrite Hrd. cbn [bind]. unfold getHead.
      destruct (decide (du = INT_MAX)) as [Hinf|Hfin].
      * (* nothing is relaxed from a vertex without a distance *)
        assert (forall temp dist0 h0, rd dist0 (vertex e) = Ok INT_MAX ->
                  Dijkstra_scan temp (vertex e) dist0 h0 = Ok (dist0, h0))
          as Hidle.
        { induction temp as [|nd next IHt]; intros dist0 h0 H0; [done|].
          cbn [Dijkstra_scan]. rewrite H0. cbn [bind].
          rewrite Z.eqb_refl. cbn [negb bind]. by apply IHt. }
        rewrite Hidle by (by rewrite Hdu, Hinf). cbn [bind].
        apply (IH dist h1); [done|lia].
      * destruct (Dijkstra_scan_safe g start (vertex e) adj Hwf Hu
                    (Hreach _ _ Hdu Hfin) Hrd adj dist h1 Hinv1)
          as (dist' & h2 & Es & Hinv2 & Hpot); [done|].
        rewrite Es. cbn [bind].
        apply (IH dist' h2); [done|].
        pose proof (dist_slack_nonneg dist' (ds_range _ _ _ _ Hinv2)).
        destruct (ds_shape _ _ _ _ Hinv2) as (? & _). lia.
Qed.

Lemma DijkstraAlgorithm_safe g start buffer :
  wf_graph g -> vertices g <= MAX_HEAP_VERTICES ->
  0 <= start < vertices g ->
  length buffer = Z.to_nat (vertices g) ->
  exists fuel0, forall fuel, (fuel0 <= fuel)%nat ->
    exists dist,
      DijkstraAlgorithm fuel g start buffer = Ok dist /\
      length dist = Z.to_nat (vertices g) /\
      Forall (fun d => INT_MIN <= d <= INT_MAX) dist /\
      (forall v d, rd dist v = Ok d -> d <> INT_MAX -> reachable g start v).
Proof.
  intros Hwf Hn Hs Hlen. unfold DijkstraAlgorithm.
  pose proof (for_up_fill INT_MAX buffer []) as Hfill.
  change (Z.of_nat (length [])) with 0 in Hfill. simpl in Hfill.
  rewrite Hlen in Hfill. rewrite Hfill. cbn [bind].
  rewrite wr_ok by (rewrite length_replicate; lia). cbn [bind].
  rewrite mul32_square by (unfold MAX_HEAP_VERTICES, MAX_VERTICES in *; lia).
  set (n := vertices g) in *.
  destruct (Heap_new_shape (n * n)) as [Hsh0 Ho0].
  { unfold MAX_HEAP_VERTICES, MAX_CAPACITY in *. nia. }
  destruct (InsertKey_ok (Heap_new (n * n)) start 0 Hsh0 Ho0)
    as (h & E & Hsh & Ho & Hc & Hsz).
  pose proof (InsertKey_entries _ start 0 h Hsh0 E) as Hent.
  assert (heap_entries (Heap_new (n * n)) = []) as Hnil by reflexivity.
  rewrite Hnil in Hent.
  rewrite decide_True in Hent by (simpl; nia).
  rewrite E. cbn [bind]. simpl in Hent.
  set (dist0 := <[Z.to_nat start := 0]> (replicate (Z.to_nat n) INT_MAX)).
  exists (S (Z.to_nat (size h + dist_slack dist0))). intros fuel Hfuel.
  apply (Dijkstra_loop_safe g start Hwf); [|lia].
  split.
  - unfold dist0. by rewrite length_insert, length_replicate.
  - unfold dist0. apply Forall_insert; [|unfold INT_MIN, INT_MAX; lia].
    apply Forall_replicate. unfold INT_MIN, INT_MAX. lia.
  - done.
  - done.
  - intros e He. rewrite Hent in He.
    by apply list_elem_of_singleton in He as ->.
  - intros v d. unfold dist0.
    rewrite rd_insert by (rewrite length_replicate; lia).
    destruct (decide (v = start)) as [->|Ev]; [intros _ _; apply rtc_refl|].
    by intros ->%rd_replicate.
Qed.

(** X17.  Whatever the weights are (negative ones and sums that wrap
    around included), Dijkstra's algorithm on a well-formed graph with an
    in-range start makes no access outside an array and, given enough
    passes of its loop, returns: every relaxation lowers a distance, and a
    distance is an [int].  Only vertices connected to the start get a
    distance other than INT_MAX. *)
Theorem Dijkstra_always_returns g start buffer :
  wf_graph g -> vertices g <= MAX_HEAP_VERTICES ->
  0 <= start < vertices g ->
  length buffer = Z.to_nat (vertices g) ->
  exists fuel0, forall fuel, (fuel0 <= fuel)%nat ->
    exists dist,
      DijkstraAlgorithm fuel g start buffer = Ok dist /\
      length dist = Z.to_nat (vertices g) /\
      Forall (fun d => INT_MIN <= d <= INT_MAX) dist /\
      (forall v d, rd dist v = Ok d -> d <> INT_MAX -> reachable g start v).
Proof. apply DijkstraAlgorithm_safe. Qed.

Lemma Dijkstra_always_returns_witness :
  (wf_graph triangle_graph /\ vertices triangle_graph <= MAX_HEAP_VERTICES /\
   0 <= 1 < vertices triangle_graph /\
   length [7; 8; 9] = Z.to_nat (vertices triangle_graph)) /\
  exists fuel0, forall fuel, (fuel0 <= fuel)%nat ->
    exists dist,
      DijkstraAlgorithm fuel triangle_graph 1 [7; 8; 9] = Ok dist /\
      length dist = Z.to_nat (vertices triangle_graph) /\
      Forall (fun d => INT_MIN <= d <= INT_MAX) dist /\
      (forall v d, rd dist v = Ok d -> d <> INT_MAX ->
         reachable triangle_graph 1 v).
Proof.
  assert (wf_graph triangle_graph /\
          vertices triangle_graph <= MAX_HEAP_VERTICES /\
          0 <= 1 < vertices triangle_graph /\
          length [7; 8; 9] = Z.to_nat (vertices triangle_graph)) as H.
  { split; [apply triangle_graph_wf|]. split; [by vm_compute|].
    split; [simpl; lia|reflexivity]. }
  split; [exact H|]. destruct H as (H1 & H2 & H3 & H4).
  exact (Dijkstra_always_returns triangle_graph 1 [7; 8; 9] H1 H2 H3 H4).
Defined.

(** * The exported functions *)





Lemma all_vertices_perm (out : list Z) n :
  NoDup out -> (forall v, v ∈ out <-> 0 <= v < n) ->
  out ≡ₚ Z.of_nat <$> seq 0 (Z.to_nat n).
Proof.
  intros Hnd Hall. apply NoDup_Permutation; [done| |].
  - apply NoDup_fmap_2; [apply _|apply NoDup_seq].
  - intros v. rewrite Hall, list_elem_of_fmap. split.
    + intros Hv. exists (Z.to_nat v). split; [lia|]. apply elem_of_seq. lia.
    + intros (i & -> & Hi%elem_of_seq). lia.
Qed.

(** X19.  When every vertex is connected to the start (what the front end
    checks before a run), [runBFS] and [runDFS] overwrite the whole result
    buffer: what [getResultBuffer] then points to is the traversal order, a
    rearrangement of all vertex ids, and nothing of what the buffer held
    before (uninitialised cells or an earlier result) is left. *)
Theorem connected_traversal_fills_buffer b g s :
  Bridge.inv b -> Bridge.globalGraph b = Some g ->
  0 <= s < vertices g ->
  (forall v, 0 <= v < vertices g -> reachable g s v) ->
  exists fuel0, forall fuel, (fuel0 <= fuel)%nat ->
    exists b1 b2 out1 out2,
      Bridge.runBFS fuel s b = Ok b1 /\
      Bridge.getResultBuffer b1 = Some out1 /\
      bfs_traversal g s out1 /\
      out1 ≡ₚ Z.of_nat <$> seq 0 (Z.to_nat (vertices g)) /\
      Bridge.runDFS fuel s b = Ok b2 /\
      Bridge.getResultBuffer b2 = Some out2 /\
      dfs_traversal g s out2 /\
      out2 ≡ₚ Z.of_nat <$> seq 0 (Z.to_nat (vertices g)).
Proof.
  intros Hinv Hg Hs Hconn. destruct b as [g0 [buf|]]; simpl in Hg; subst g0;
    simpl in Hinv; [|done].
  destruct Hinv as (Hgs & Hmax & Hlen).
  pose proof (graph_state_wf g Hgs) as Hwf.
  pose proof (dfs_fuel_gt g) as Hgt.
  exists (dfs_fuel g). intros fuel Hfuel.
  destruct (BFS_spec g s buf fuel Hwf Hs Hlen) as (out1 & E1 & Hnd1 & Hall1 & Hord1 & _);
    [lia|].
  destruct (DFS_spec g s buf fuel Hwf Hs Hlen Hfuel) as (out2 & E2 & Hord2).
  destruct (dfs_traversal_reachable g s out2 Hord2) as (Hnd2 & Hall2 & _).
  assert (forall out : list Z, NoDup out ->
            (forall v, v ∈ out <-> reachable g s v) ->
            out ≡ₚ Z.of_nat <$> seq 0 (Z.to_nat (vertices g)) /\
            out ++ drop (length out) buf = out) as Hfull.
  { intros out Hnd Hall.
    assert (out ≡ₚ Z.of_nat <$> seq 0 (Z.to_nat (vertices g))) as Hp.
    { apply all_vertices_perm; [done|]. intros v. rewrite Hall. split.
      - intros Hr. by apply (reachable_in_range g s v Hwf).
      - apply Hconn. }
    split; [done|].
    rewrite drop_ge; [by rewrite app_nil_r|].
    rewrite Hp, length_fmap, length_seq. lia. }
  destruct (Hfull out1 Hnd1 Hall1) as [Hp1 Hb1].
  destruct (Hfull out2 Hnd2 Hall2) as [Hp2 Hb2].
  rewrite Hb1 in E1. rewrite Hb2 in E2.
  exists {| Bridge.globalGraph := Some g; Bridge.outputBuffer := Some out1 |},
         {| Bridge.globalGraph := Some g; Bridge.outputBuffer := Some out2 |},
         out1, out2.
  unfold Bridge.runBFS, Bridge.runDFS, Bridge.buffer. simpl.
  rewrite E1, E2. simpl. done.
Qed.

Lemma connected_traversal_fills_buffer_witness :
  (Bridge.inv triangle_session /\
   Bridge.globalGraph triangle_session = Some triangle_graph /\
   0 <= 0 < vertices triangle_graph /\
   (forall v, 0 <= v < vertices triangle_graph ->
      reachable triangle_graph 0 v)) /\
  exists fuel0, forall fuel, (fuel0 <= fuel)%nat ->
    exists b1 b2 out1 out2,
      Bridge.runBFS fuel 0 triangle_session = Ok b1 /\
      Bridge.getResultBuffer b1 = Some out1 /\
      bfs_traversal triangle_graph 0 out1 /\
      out1 ≡ₚ Z.of_nat <$> seq 0 (Z.to_nat (vertices triangle_graph)) /\
      Bridge.runDFS fuel 0 triangle_session = Ok b2 /\
      Bridge.getResultBuffer b2 = Some out2 /\
      dfs_traversal triangle_graph 0 out2 /\
      out2 ≡ₚ Z.of_nat <$> seq 0 (Z.to_nat (vertices triangle_graph)).
Proof.
  assert (Bridge.inv triangle_session /\
          Bridge.globalGraph triangle_session = Some triangle_graph /\
          0 <= 0 < vertices triangle_graph /\
          (forall v, 0 <= v < vertices triangle_graph ->
             reachable triangle_graph 0 v)) as H.
  { split.
    { simpl. split; [|split; [by vm_compute|reflexivity] ].
      apply (add_edges_state _ (Graph_new 3) _
               (gs_new 3 ltac:(unfold INT_MAX; lia)) triangle_graph_built). }
    split; [reflexivity|]. split; [simpl; lia|].
    intros v Hv. simpl in Hv.
    assert (v = 0 \/ v = 1 \/ v = 2) as [->|[->| ->] ] by lia.
    - apply rtc_refl.
    - apply rtc_once. exists [mkNode 2 1; mkNode 1 1], (mkNode 1 1).
      split; [reflexivity|]. split; [|reflexivity]. right. left.
    - apply rtc_once. exists [mkNode 2 1; mkNode 1 1], (mkNode 2 1).
      split; [reflexivity|]. split; [|reflexivity]. left. }
  split; [exact H|]. destruct H as (H1 & H2 & H3 & H4).
  exact (connected_traversal_fills_buffer triangle_session triangle_graph 0
           H1 H2 H3 H4).
Defined.

(** X20.  Prim's and Dijkstra's algorithms never read what the buffer they
    are given holds: run with two buffers of [vertices] cells they give the
    same outcome, whatever the graph, the start and the number of passes
    allowed, so nothing of an earlier result shows in a later one. *)
Theorem Prims_Dijkstra_ignore_buffer g start fuel (buffer1 buffer2 : list Z) :
  length buffer1 = Z.to_nat (vertices g) ->
  length buffer2 = Z.to_nat (vertices g) ->
  PrimsAlgorithm fuel g start buffer1 = PrimsAlgorithm fuel g start buffer2 /\
  DijkstraAlgorithm fuel g start buffer1 =
    DijkstraAlgorithm fuel g start buffer2.
Proof.
  intros H1 H2. unfold PrimsAlgorithm, DijkstraAlgorithm.
  assert (forall x (buffer : list Z), length buffer = Z.to_nat (vertices g) ->
            for_up 0 (Z.to_nat (vertices g)) (fun i b => wr b i x) buffer =
            Ok (replicate (Z.to_nat (vertices g)) x)) as Hfill.
  { intros x buffer Hlen. pose proof (for_up_fill x buffer []) as Hf.
    change (Z.of_nat (length [])) with 0 in Hf. simpl in Hf.
    by rewrite Hlen in Hf. }
  by rewrite !Hfill.
Qed.

Lemma Prims_Dijkstra_ignore_buffer_witness :
  (length [7; 8; 9] = Z.to_nat (vertices triangle_graph) /\
   length [0; 0; 0] = Z.to_nat (vertices triangle_graph)) /\
  PrimsAlgorithm 8 triangle_graph 1 [7; 8; 9] =
    PrimsAlgorithm 8 triangle_graph 1 [0; 0; 0] /\
  DijkstraAlgorithm 8 triangle_graph 1 [7; 8; 9] =
    DijkstraAlgorithm 8 triangle_graph 1 [0; 0; 0].
Proof.
  assert (length [7; 8; 9] = Z.to_nat (vertices triangle_graph) /\
          length [0; 0; 0] = Z.to_nat (vertices triangle_graph)) as H
    by (split; reflexivity).
  split; [exact H|]. destruct H as [H1 H2].
  exact (Prims_Dijkstra_ignore_buffer triangle_graph 1 8 [7; 8; 9] [0; 0; 0] H1 H2).
Defined.

(** * The greedy rule of Prim's algorithm *)

Lemma app_snoc_split {A} (order before after : list A) u v :
  order ++ [u] = before ++ v :: after ->
  (after = [] /\ before = order /\ v = u) \/
  exists after', after = after' ++ [u] /\ order = before ++ v :: after'.
Proof.
  intros H. destruct after as [|a after _] using rev_ind.
  - left. apply app_inj_tail in H as [-> ->]. done.
  - right. exists after.
    replace (before ++ v :: after ++ [a]) with ((before ++ v :: after) ++ [a])
      in H by (by rewrite <- app_assoc).
    apply app_inj_tail in H as [-> ->]. done.
Qed.

Lemma record_light g u v w : span_ok g -> record g u v w -> weight (mkNode v w) < INT_MAX.
Proof.
  intros [Hw _] (adj & Hadj & Hnd).
  apply rd_Ok_inv in Hadj as [_ Hadj]. apply list_elem_of_lookup_2 in Hadj.
  exact (Hw adj (mkNode v w) Hadj Hnd).
Qed.

Lemma prim_greedy_relax g start order visited key pb h u v w kv h' :
  span_ok g -> prim_greedy g start order visited key pb h ->
  0 <= v < Z.of_nat (length key) -> 0 <= v < Z.of_nat (length pb) ->
  u ∈ order -> rd visited v = Ok false -> record g u v w ->
  rd key v = Ok kv -> w < kv ->
  heap_entries h' ≡ₚ mkHNode v w :: heap_entries h ->
  prim_greedy g start order visited (<[Z.to_nat v := w]> key)
    (<[Z.to_nat v := u]> pb) h'.
Proof.
  intros Hsp [Hnd Hord Hhead Htree Hkey Hent Hq] Hvk Hvp Hu Hvv Hrec Hkv Hlt Hperm.
  pose proof (record_light g u v w Hsp Hrec) as Hw. simpl in Hw.
  split.
  - done.
  - done.
  - done.
  - intros before x after Ho Hne.
    destruct (Htree before x after Ho Hne) as (p & wx & Hp & Hpin & Hprec & Hmin).
    exists p, wx. split; [|done].
    rewrite rd_insert by done. rewrite decide_False; [done|].
    intros ->. assert (v ∈ order) as Hin.
    { rewrite Ho. apply elem_of_app. right. by left. }
    apply Hord in Hin. congruence.
  - intros x kx Hx. rewrite !rd_insert by done.
    destruct (decide (x = v)) as [->|Ex].
    + intros Hk _. assert (kx = w) as -> by congruence.
      right. by exists u.
    + apply Hkey. done.
  - intros e He. rewrite Hperm in He.
    apply elem_of_cons in He as [->|He]; simpl.
    + split; [done|]. exists w. rewrite rd_insert by done.
      by rewrite decide_True.
    + destruct (Hent e He) as (Hk & ke & Hke & Hle). split; [done|].
      rewrite rd_insert by done.
      destruct (decide (vertex e = v)) as [Ev|Ev]; [|by exists ke].
      exists w. split; [done|]. rewrite Ev in Hke.
      assert (ke = kv) by congruence. lia.
  - intros x kx Hx. rewrite rd_insert by done.
    destruct (decide (x = v)) as [->|Ex].
    + intros Hk _. assert (kx = w) as -> by congruence.
      rewrite Hperm. by left.
    + intros Hk Hlk. rewrite Hperm. right. by apply Hq.
Qed.

Lemma Prims_scan_greedy g start order u visited adj :
  wf_graph g -> span_ok g ->
  rd visited start = Ok true -> rd visited u = Ok true -> u ∈ order ->
  rd (array g) u = Ok adj ->
  forall temp key pb h key' pb' h',
    prim_inv g start visited key pb h ->
    prim_greedy g start order visited key pb h ->
    (forall nd, nd ∈ temp -> nd ∈ adj) ->
    size h + Z.of_nat (length temp) <= capacity h ->
    Prims_scan temp u visited key pb h = Ok (key', pb', h') ->
    prim_greedy g start order visited key' pb' h' /\
    (forall y ky, rd key y = Ok ky ->
       exists ky', rd key' y = Ok ky' /\ ky' <= ky) /\
    (forall nd, nd ∈ temp -> rd visited (destination nd) = Ok false ->
       exists ky, rd key' (destination nd) = Ok ky /\ ky <= weight nd).
Proof.
  intros Hwf Hsp Hvs Hvu Huo Hadj.
  assert (adj ∈ array g) as Hin.
  { apply rd_Ok_inv in Hadj as [_ Hadj']. by eapply list_elem_of_lookup_2. }
  pose proof (proj1 (list.Forall_forall _ _) (wf_dest g Hwf) adj Hin) as Hdest.
  induction temp as [|[v w] next IH];
    intros key pb h key' pb' h' Hinv Hgr Hsub Hroom H.
  - simpl in H. injection H as <- <- <-. split; [done|]. split.
    + intros y ky Hy. by exists ky.
    + by intros nd ?%elem_of_nil.
  - assert (mkNode v w ∈ adj) as Hnd by (apply Hsub; by left).
    assert (record g u v w) as Hrec by (by exists adj).
    pose proof (proj1 (list.Forall_forall _ _) Hdest _ Hnd) as Hv.
    simpl in Hv.
    assert (forall nd, nd ∈ next -> nd ∈ adj) as Hsub'
      by (intros nd ?; apply Hsub; by right).
    pose proof Hinv as [Hlv Hlk Hlp Hsh Ho Hcap _ _ _ _ _ _ _].
    simpl in Hroom.
    cbn [Prims_scan destination weight] in H.
    destruct (rd_ex visited v) as (seen & _ & Hseen); [lia|].
    rewrite Hseen in H. cbn [bind] in H.
    destruct (rd_ex key v) as (kv & _ & Hkv); [lia|].
    destruct seen; cbn [negb bind] in H.
    + destruct (IH _ _ _ _ _ _ Hinv Hgr Hsub' ltac:(lia) H) as (Hgr' & Hmono & Hrel).
      split; [done|]. split; [done|].
      intros nd [->|Hnx]%elem_of_cons; [simpl; congruence|by apply Hrel].
    + rewrite Hkv in H. cbn [bind] in H.
      destruct (Z.ltb_spec w kv) as [Hlt|Hge].
      * destruct (prim_relax g start visited key pb h u v w kv)
          as (h1 & E1 & Hinv1 & Hs1 & Hm1); try done.
        { intros _. lia. }
        rewrite !wr_ok in H by lia. cbn [bind] in H.
        rewrite rd_insert in H by lia. rewrite decide_True in H by done.
        cbn [bind] in H. rewrite E1 in H. cbn [bind] in H.
        pose proof (InsertKey_entries h v w h1 Hsh E1) as Hent1.
        rewrite decide_True in Hent1 by lia. simpl in Hent1.
        assert (prim_greedy g start order visited (<[Z.to_nat v := w]> key)
                  (<[Z.to_nat v := u]> pb) h1) as Hgr1.
        { apply (prim_greedy_relax g start order visited key pb h u v w kv);
            try done; lia. }
        assert (size h1 + Z.of_nat (length next) <= capacity h1) as Hroom1.
        { rewrite (pi_capacity _ _ _ _ _ _ Hinv1). rewrite <- Hcap. lia. }
        destruct (IH _ _ _ _ _ _ Hinv1 Hgr1 Hsub' Hroom1 H)
          as (Hgr' & Hmono & Hrel).
        split; [done|]. split.
        -- intros y ky Hy. destruct (decide (y = v)) as [->|Eyv].
           ++ destruct (Hmono v w) as (ky' & Hky' & Hle).
              { rewrite rd_insert by lia. by rewrite decide_True. }
              assert (ky = kv) by congruence.
              exists ky'. split; [done|lia].
           ++ apply Hmono. rewrite rd_insert by lia. by rewrite decide_False.
        -- intros nd [->|Hnx]%elem_of_cons; [|by apply Hrel]. simpl.
           intros _. apply (Hmono v w).
           rewrite rd_insert by lia. by rewrite decide_True.
      * destruct (IH _ _ _ _ _ _ Hinv Hgr Hsub' ltac:(lia) H) as (Hgr' & Hmono & Hrel).
        split; [done|]. split; [done|].
        intros nd [->|Hnx]%elem_of_cons; [|by apply Hrel]. simpl.
        intros _. destruct (Hmono v kv Hkv) as (ky' & Hky' & Hle).
        exists ky'. split; [done|lia].
Qed.

Lemma prim_greedy_skip g start order visited key pb h e h1 :
  prim_greedy g start order visited key pb h ->
  heap_entries h ≡ₚ e :: heap_entries h1 ->
  rd visited (vertex e) = Ok true ->
  prim_greedy g start order visited key pb h1.
Proof.
  intros [Hnd Hord Hhead Htree Hkey Hent Hq] Hperm Hseen.
  split; try done.
  - intros e' He'. apply Hent. rewrite Hperm. by right.
  - intros v kv Hv Hk Hlt. pose proof (Hq v kv Hv Hk Hlt) as Hin.
    rewrite Hperm in Hin. apply elem_of_cons in Hin as [<-|Hin]; [|done].
    simpl in Hseen. congruence.
Qed.

Lemma prim_greedy_visit g start order visited keys pb h e h1 :
  wf_graph g -> span_ok g ->
  prim_inv g start visited keys pb h ->
  prim_greedy g start order visited keys pb h ->
  heap_entries h ≡ₚ e :: heap_entries h1 ->
  (forall e', e' ∈ heap_entries h -> key e <= key e') ->
  rd visited (vertex e) = Ok false ->
  (forall x y w, x ∈ order -> record g x y w -> rd visited y = Ok false ->
     exists ky, rd keys y = Ok ky /\ ky <= w) ->
  prim_greedy g start (order ++ [vertex e])
    (<[Z.to_nat (vertex e) := true]> visited) keys pb h1.
Proof.
  intros Hwf Hsp Hinv [Hnd Hord Hhead Htree Hkey Hent Hq] Hperm Hleast Hseen Hsc.
  pose proof Hinv as [Hlv _ _ _ _ _ _ _ Hstart _ _ _ _].
  apply rd_Ok_inv in Hseen as Hu. destruct Hu as [Hu _].
  assert (e ∈ heap_entries h) as Hein by (rewrite Hperm; by left).
  set (u := vertex e) in *.
  assert (u ∉ order) as Hnotin.
  { intros Hin. apply Hord in Hin. congruence. }
  assert (order = [] -> u = start) as Hfirst.
  { intros ->. destruct Hstart as [Hs|Hall]; [|by apply Hall].
    apply Hord in Hs. by apply elem_of_nil in Hs. }
  split.
  - apply list.NoDup_app. split; [done|]. split; [|apply NoDup_singleton].
    intros x Hx ->%list_elem_of_singleton. done.
  - intros v. rewrite elem_of_app, list_elem_of_singleton, Hord.
    rewrite rd_insert by done.
    destruct (decide (v = u)) as [->|Ev]; [by split; [|right]|].
    split; [by intros [?|?]|by left].
  - right. destruct order as [|o order]; [|by destruct Hhead].
    simpl. by rewrite Hfirst.
  - intros before v after Ho Hne.
    apply app_snoc_split in Ho as [(-> & -> & ->)|(after' & -> & Ho)];
      [|by apply (Htree before v after')].
    destruct (Hent e Hein) as (Hke & ku & Hku & Hle).
    destruct (Hkey u ku Hseen Hku ltac:(lia)) as [[_ ?]|(p & Hp & Hpin & Hprec)];
      [done|].
    exists p, ku. split; [done|]. split; [done|]. split; [done|].
    intros x y w' Hx Hy Hr.
    destruct (edge_in_range g x y Hwf (record_edge g x y w' Hr)) as [_ Hyr].
    destruct (rd_ex visited y) as ([] & _ & Hvy); [lia| |].
    { destruct Hy. by apply Hord. }
    destruct (Hsc x y w' Hx Hr Hvy) as (ky & Hky & Hkyle).
    pose proof (record_light g x y w' Hsp Hr) as Hw. simpl in Hw.
    pose proof (Hq y ky Hvy Hky ltac:(lia)) as Hyin.
    specialize (Hleast _ Hyin). simpl in Hleast. lia.
  - intros x kx. rewrite rd_insert by done.
    destruct (decide (x = u)) as [->|Ex]; [done|]. intros Hx Hk Hlt.
    destruct (Hkey x kx Hx Hk Hlt) as [[-> Hnil]|(p & Hp & Hpin & Hprec)].
    + destruct Ex. symmetry. by apply Hfirst.
    + right. exists p. split; [done|]. split; [|done].
      apply elem_of_app. by left.
  - intros e' He'. apply Hent. rewrite Hperm. by right.
  - intros x kx. rewrite rd_insert by done.
    destruct (decide (x = u)) as [->|Ex]; [done|]. intros Hx Hk Hlt.
    pose proof (Hq x kx Hx Hk Hlt) as Hin.
    rewrite Hperm in Hin. apply elem_of_cons in Hin as [Heq|Hin]; [|done].
    destruct Ex. unfold u. by rewrite <- Heq.
Qed.

Lemma Prims_loop_greedy g start :
  wf_graph g -> span_ok g ->
  forall fuel order visited key pb h pb',
    prim_inv g start visited key pb h ->
    prim_greedy g start order visited key pb h ->
    rd visited start = Ok true \/ size h <> 0 ->
    (forall x y, rd visited x = Ok true -> edge g x y ->
       rd visited y = Ok true \/ has_parent pb y) ->
    (forall x y w, x ∈ order -> record g x y w -> rd visited y = Ok false ->
       exists ky, rd key y = Ok ky /\ ky <= w) ->
    size h + Z.of_nat (unvisited_records visited (array g)) <=
      capacity h + 1 ->
    Prims_loop fuel g visited key pb h = Ok pb' ->
    exists order',
      NoDup order' /\ head order' = Some start /\
      (forall v, v ∈ order' <-> reachable g start v) /\
      (forall before v after,
         order' = before ++ v :: after -> before <> [] ->
         exists p w, rd pb' v = Ok p /\ p ∈ before /\ record g p v w /\
           forall x y w', x ∈ before -> y ∉ before -> record g x y w' ->
             w <= w').
Proof.
  intros Hwf Hsp. induction fuel as [|fuel IH];
    intros order visited key pb h pb' Hinv Hgr Hne Hcl Hsc Hroom Hrun;
    [done|].
  pose proof Hinv as [Hlv Hlk Hlp Hsh Ho Hcap Hent Hroot Hstart Hpar Htree Hkeys Hq].
  pose proof Hsh as (Hsz & Hcmax & Hlen).
  cbn [Prims_loop] in Hrun. unfold Heap_isEmpty in Hrun.
  destruct (Z.eqb_spec (size h) 0) as [Hz|Hnz].
  - injection Hrun as <-.
    destruct Hgr as [Hnd Hord Hhead Htr _ _ _].
    destruct Hne as [Hvs|?]; [|done].
    exists order. split; [done|]. split.
    { destruct Hhead as [->|?]; [|done].
      apply Hord in Hvs. by apply elem_of_nil in Hvs. }
    split; [|done].
    intros v. rewrite Hord. split.
    + intros Hv. apply (tree_path_reachable g pb); [|by apply Htree].
      intros y p Hy Hp. by apply (Hpar y p).
    + intros Hr.
      apply (closed_reachable_pred g (fun x => rd visited x = Ok true))
        with (s := start); [|done|done].
      intros x y Hx Hxy. destruct (Hcl x y Hx Hxy) as [?|Hy]; [done|].
      destruct (edge_in_range g x y Hwf Hxy) as [_ Hyr].
      destruct (rd_ex visited y) as ([] & _ & Hvy); [lia|done|].
      destruct (Hq Hsp y Hy Hvy) as (e & He & _).
      pose proof (heap_entries_length h Hsh) as Hl.
      rewrite Hz in Hl. destruct (heap_entries h); [|done].
      by apply elem_of_nil in He.
  - destruct (ExtractMin_ok h Hsh Ho) as (m & h1 & E & Hsh1 & Ho1 & Hc1 & _ & Hex).
    destruct (Hex Hnz) as [Hm Hs1].
    pose proof (ExtractMin_entries h m h1 Hsh Hnz E) as Hperm.
    pose proof (heap_entries_least h m Hsh Ho Hm) as Hleast.
    rewrite E in Hrun. cbn [bind] in Hrun.
    assert (m ∈ heap_entries h) as Hmin by (rewrite Hperm; by left).
    destruct (Hent m Hmin) as [Hu _].
    destruct (rd_ex visited (vertex m)) as (seen & _ & Hseen); [lia|].
    rewrite Hseen in Hrun. cbn [bind] in Hrun. destruct seen.
    + destruct (prim_skip g start visited key pb h m h1 Hinv Hsh1 Ho1 Hc1 Hperm Hseen)
        as [Hinv1 Hvs].
      apply (IH order visited key pb h1 pb'); try done; [|by left|lia].
      by apply (prim_greedy_skip g start order visited key pb h m h1).
    + destruct (prim_visit g start visited key pb h m h1 Hinv Hsh1 Ho1 Hc1 Hperm Hseen)
        as [Hinv1 Hvs].
      pose proof (prim_greedy_visit g start order visited key pb h m h1 Hwf Hsp
                    Hinv Hgr Hperm Hleast Hseen Hsc) as Hgr1.
      set (u := vertex m) in *.
      rewrite wr_ok in Hrun by lia. cbn [bind] in Hrun.
      destruct (rd_ex (array g) u) as (adj & Hadj & Hrd);
        [rewrite (wf_array g Hwf); lia|].
      rewrite Hrd in Hrun. cbn [bind] in Hrun. unfold getHead in Hrun.
      assert (rd visited u = Ok false) as Hseen' by done.
      apply rd_Ok_inv in Hseen' as [_ Hlook].
      pose proof (unvisited_records_insert (array g) visited (Z.to_nat u) adj
                    Hlook Hadj) as Hrec.
      set (visited' := <[Z.to_nat u := true]> visited) in *.
      assert (rd visited' u = Ok true) as Hvu.
      { unfold visited'. rewrite rd_insert by lia. by rewrite decide_True. }
      assert (u ∈ order ++ [u]) as Huo.
      { apply elem_of_app. right. by left. }
      assert (size h1 + Z.of_nat (length adj) <= capacity h1) as Hroom1 by lia.
      destruct (Prims_scan_spec g start u visited' adj Hwf Hvs Hvu Hrd adj key pb h1
                  Hinv1) as (key' & pb2 & h2 & Es & Hinv2 & Hs2 & Hm2 & Hcl2);
        [done|by intros _|].
      destruct (Prims_scan_greedy g start (order ++ [u]) u visited' adj Hwf Hsp
                  Hvs Hvu Huo Hrd adj key pb h1 key' pb2 h2 Hinv1 Hgr1)
        as (Hgr2 & Hmono & Hrel); [done|done|done|].
      rewrite Es in Hrun. cbn [bind] in Hrun.
      apply (IH (order ++ [u]) visited' key' pb2 h2 pb'); try done.
      * by left.
      * intros x y. unfold visited' at 1. rewrite rd_insert by lia.
        destruct (decide (x = u)) as [->|Hxu].
        -- intros _ (adj' & nd & Hrd' & Hnd & <-).
           assert (adj' = adj) as -> by congruence.
           by apply Hcl2.
        -- intros Hx Hxy. destruct (Hcl x y Hx Hxy) as [Hy|Hy].
           ++ left. unfold visited'. rewrite rd_insert by lia. by case_decide.
           ++ right. by apply Hm2.
      * intros x y w [Hx|Hx]%elem_of_app Hr Hvy;
          [|apply list_elem_of_singleton in Hx as ->].
        -- assert (rd visited y = Ok false) as Hvy0.
           { unfold visited' in Hvy. rewrite rd_insert in Hvy by lia.
             by destruct (decide (y = u)). }
           destruct (Hsc x y w Hx Hr Hvy0) as (ky & Hky & Hle).
           destruct (Hmono y ky Hky) as (ky' & Hky' & Hle').
           exists ky'. split; [done|lia].
        -- destruct Hr as (adj' & Hrd' & Hnd).
           assert (adj' = adj) as -> by congruence.
           apply (Hrel (mkNode y w) Hnd Hvy).
      * rewrite (pi_capacity _ _ _ _ _ _ Hinv2). rewrite <- Hcap. lia.
Qed.

(** X21.  Prim's algorithm grows its tree by the greedy rule.  When every
    weight is below INT_MAX and the chains hold at most
    [vertices * vertices] records, the vertices connected to the start can
    be listed in the order in which the run marked them, the start first,
    so that every later vertex [v] has as parent a vertex [p] marked before
    it, joined to it by a record that is a lightest one among all records
    leading from the vertices marked before [v] to the others. *)
Theorem Prims_greedy_rule g start buffer fuel :
  wf_graph g -> vertices g <= MAX_HEAP_VERTICES ->
  0 <= start < vertices g ->
  length buffer = Z.to_nat (vertices g) ->
  (prim_fuel g <= fuel)%nat ->
  span_ok g ->
  exists pb order,
    PrimsAlgorithm fuel g start buffer = Ok pb /\
    NoDup order /\ head order = Some start /\
    (forall v, v ∈ order <-> reachable g start v) /\
    (forall before v after,
       order = before ++ v :: after -> before <> [] ->
       exists p w, rd pb v = Ok p /\ p ∈ before /\ record g p v w /\
         forall x y w', x ∈ before -> y ∉ before -> record g x y w' ->
           w <= w').
Proof.
  intros Hwf Hn Hs Hlen Hfuel Hsp.
  destruct (PrimsAlgorithm_spec g start buffer fuel Hwf Hn Hs Hlen Hfuel)
    as (pb & E & _).
  exists pb. pose proof E as Hrun. rewrite Prims_unfold in Hrun by done.
  destruct (Prims_init g start Hwf Hn Hs) as (h & E0 & Hsz & Hent & Hinv).
  rewrite E0 in Hrun. cbn [bind] in Hrun.
  set (key0 := <[Z.to_nat start := 0]>
                 (replicate (Z.to_nat (vertices g)) INT_MAX)) in *.
  assert (forall v kv, rd key0 v = Ok kv -> kv < INT_MAX ->
            v = start /\ kv = 0) as Hk0.
  { intros v kv. unfold key0.
    rewrite rd_insert by (rewrite length_replicate; lia).
    destruct (decide (v = start)) as [->|Ev].
    - intros Hk _. split; [done|congruence].
    - intros ->%rd_replicate. lia. }
  destruct (Prims_loop_greedy g start Hwf Hsp fuel [] (all_false (vertices g))
              key0 (replicate (Z.to_nat (vertices g)) (-1)) h pb Hinv)
    as (order & Hnd & Hhead & Hall & Htree); try done.
  - split.
    + apply NoDup_nil_2.
    + intros v. split; [by intros ?%elem_of_nil|].
      unfold all_false. by intros ?%rd_replicate.
    + by left.
    + intros before v after Ho. by destruct before.
    + intros v kv _ Hk Hlt. left. by destruct (Hk0 v kv Hk Hlt) as [-> _].
    + intros e He. rewrite Hent in He.
      apply list_elem_of_singleton in He as ->. simpl.
      split; [done|]. exists 0. split; [|done].
      unfold key0. rewrite rd_insert by (rewrite length_replicate; lia).
      by rewrite decide_True.
    + intros v kv _ Hk Hlt. destruct (Hk0 v kv Hk Hlt) as [-> ->].
      rewrite Hent. by left.
  - right. lia.
  - unfold all_false. by intros x y ?%rd_replicate.
  - by intros x y w ?%elem_of_nil.
  - destruct Hsp as [_ Ht]. unfold all_false.
    rewrite unvisited_records_all by (by rewrite (wf_array g Hwf)).
    fold (total_records g). rewrite (pi_capacity _ _ _ _ _ _ Hinv). lia.
  - by exists order.
Qed.

Lemma Prims_greedy_rule_witness :
  (wf_graph triangle_graph /\ vertices triangle_graph <= MAX_HEAP_VERTICES /\
   0 <= 0 < vertices triangle_graph /\
   length [7; 8; 9] = Z.to_nat (vertices triangle_graph) /\
   (prim_fuel triangle_graph <= 8)%nat /\ span_ok triangle_graph) /\
  exists pb order,
    PrimsAlgorithm 8 triangle_graph 0 [7; 8; 9] = Ok pb /\
    NoDup order /\ head order = Some 0 /\
    (forall v, v ∈ order <-> reachable triangle_graph 0 v) /\
    (forall before v after,
       order = before ++ v :: after -> before <> [] ->
       exists p w, rd pb v = Ok p /\ p ∈ before /\
         record triangle_graph p v w /\
         forall x y w', x ∈ before -> y ∉ before ->
           record triangle_graph x y w' -> w <= w').
Proof.
  assert (wf_graph triangle_graph /\
          vertices triangle_graph <= MAX_HEAP_VERTICES /\
          0 <= 0 < vertices triangle_graph /\
          length [7; 8; 9] = Z.to_nat (vertices triangle_graph) /\
          (prim_fuel triangle_graph <= 8)%nat /\ span_ok triangle_graph) as H.
  { split; [apply triangle_graph_wf|]. split; [by vm_compute|].
    split; [simpl; lia|]. split; [reflexivity|]. split; [vm_compute; lia|].
    apply span_ok_intro; [|vm_compute; discriminate].
    repeat constructor. }
  split; [exact H|]. destruct H as (H1 & H2 & H3 & H4 & H5 & H6).
  exact (Prims_greedy_rule triangle_graph 0 [7; 8; 9] 8 H1 H2 H3 H4 H5 H6).
Defined.
